(** * SIFT keypoint detector: a shallow embedding of [SIFT.cpp]

    The development follows the source file function by function:
    [buildGaussianPyramid], [downSample], [buildDogPyr], [isExtrema],
    [cleanPoints], [getScaleSpaceExtrema], [histogramMax],
    [buildHistogram], [rad2deg], [computeOrientationHist],
    [computeDescriptors] and [findSiftInterestPoint].

    Modelling conventions.
    - [float] and [double] values are IEEE 754 numbers of the Standard
      Library's [spec_float], with binary32 ([prec = 24], [emax = 128]) and
      binary64 ([prec = 53], [emax = 1024]) rounding to nearest even; every
      operation rounds to the format of its C++ type.
    - [int] is [Z]; the loop counters and image sizes of the program stay far
      from the 32-bit limits, so no wrap-around is written.  The C++ integer
      division [/] is [Z.quot].
    - [cv::Mat] is a record of its [rows], its [cols] and its pixel function.
      [Mat::at] outside the image, [operator[]] outside a [vector], and the
      conversion to [int] of a [float] that no [int] holds are undefined
      behaviour in C++: the embedding stops there with [Undefined].  An
      OpenCV call that refuses its arguments throws: the embedding stops
      with [Thrown].
    - The constants and default arguments of [SIFT.h] and the OpenCV and libm
      functions ([GaussianBlur], [cvtColor], [normalize], [atan2f]) are
      parameters of the sections below. *)

From Stdlib Require Import ZArith List Bool Lia String Sorted.
From Stdlib Require Import Floats.SpecFloat.
Import ListNotations.
Local Open Scope Z_scope.

(** ** Floating-point numbers *)

Module F32.
Definition prec : Z := 24.
Definition emax : Z := 128.

Definition add := SFadd prec emax.
Definition sub := SFsub prec emax.
Definition mul := SFmul prec emax.
Definition div := SFdiv prec emax.
(** [a < b], [a <= b], [a > b], [a >= b] of C++; all are false on a NaN. *)
Definition lt (a b : spec_float) : bool := SFltb a b.
Definition le (a b : spec_float) : bool := SFleb a b.
Definition gt (a b : spec_float) : bool := SFltb b a.
Definition ge (a b : spec_float) : bool := SFleb b a.
(** [std::abs] on a [float]. *)
Definition abs := SFabs.
(** The [float] nearest to [m * 2^e]; [of_Z] is the conversion from [int]. *)
Definition of_scaled (m e : Z) : spec_float := binary_normalize prec emax m e false.
Definition of_Z (z : Z) : spec_float := of_scaled z 0.
Definition zero : spec_float := S754_zero false.
End F32.

Module F64.
Definition prec : Z := 53.
Definition emax : Z := 1024.

Definition add := SFadd prec emax.
Definition mul := SFmul prec emax.
Definition div := SFdiv prec emax.
Definition sqrt := SFsqrt prec emax.
Definition of_scaled (m e : Z) : spec_float := binary_normalize prec emax m e false.
Definition of_Z (z : Z) : spec_float := of_scaled z 0.
End F64.

Definition float : Type := spec_float.
Definition double : Type := spec_float.

(** Conversion between the two formats: exact from [float] to [double],
    rounded from [double] to [float]. *)
Definition convert (prec emax : Z) (x : spec_float) : spec_float :=
  match x with
  | S754_finite s m e => binary_round prec emax s m e
  | _ => x
  end.
Definition to_double : float -> double := convert F64.prec F64.emax.
Definition to_float : double -> float := convert F32.prec F32.emax.

(** A zero of either sign. *)
Definition is_zero (x : spec_float) : bool :=
  match x with S754_zero _ => true | _ => false end.

(** ** Results of a run *)

Inductive fault : Type :=
| MatIndex (r c : Z)      (* Mat::at outside the image *)
| VecIndex (i : Z)        (* operator[] outside the vector *)
| FloatToInt.             (* a float that no int holds, converted to int *)

Inductive res (A : Type) : Type :=
| Ok (a : A)
| Undefined (f : fault)
| Thrown (msg : string).
Arguments Ok {A} a.
Arguments Undefined {A} f.
Arguments Thrown {A} msg.

Definition bind {A B} (x : res A) (k : A -> res B) : res B :=
  match x with
  | Ok a => k a
  | Undefined f => Undefined f
  | Thrown msg => Thrown msg
  end.

Notation "x <- e ;; k" := (bind e (fun x => k))
  (at level 61, e at next level, right associativity).
Notation "' p <- e ;; k" := (bind e (fun x => let 'p := x in k))
  (at level 61, p pattern, e at next level, right associativity).

(** [float] to [int]: truncation toward zero; undefined for a NaN, an
    infinity and a value that no [int] holds. *)
Definition to_int (x : float) : res Z :=
  match x with
  | S754_zero _ => Ok 0
  | S754_finite s m e =>
      let a := match e with
               | Zneg p => Z.shiftr (Zpos m) (Zpos p)
               | _ => Z.shiftl (Zpos m) e
               end in
      let z := if s then - a else a in
      if (- 2 ^ 31 <=? z) && (z <? 2 ^ 31) then Ok z else Undefined FloatToInt
  | _ => Undefined FloatToInt
  end.

(** ** Loops *)

(** The values of [i] in [for (int i = lo; i < hi; i++)]. *)
Definition counting (lo hi : Z) : list Z :=
  map (fun k => lo + Z.of_nat k) (seq 0 (Z.to_nat (hi - lo))).

(** A loop whose body may [return]: [Some r] leaves the function with [r],
    [None] goes on with the next iteration. *)
Fixpoint for_return {R} (l : list Z) (body : Z -> res (option R)) : res (option R) :=
  match l with
  | [] => Ok None
  | i :: l' =>
      o <- body i ;;
      match o with
      | Some r => Ok (Some r)
      | None => for_return l' body
      end
  end.

(** A loop that updates the variables [s] of the enclosing function. *)
Fixpoint for_each {S} (l : list Z) (body : Z -> S -> res S) (s : S) : res S :=
  match l with
  | [] => Ok s
  | i :: l' => s' <- body i s ;; for_each l' body s'
  end.

(** ** Images and vectors *)

Record Mat : Type := { rows : Z; cols : Z; px : Z -> Z -> float }.

Definition inside (m : Mat) (r c : Z) : bool :=
  (0 <=? r) && (r <? rows m) && (0 <=? c) && (c <? cols m).

(** [m.at<float>(r, c)] *)
Definition at_ (m : Mat) (r c : Z) : res float :=
  if inside m r c then Ok (px m r c) else Undefined (MatIndex r c).

(** [m.at<float>(r, c) = v] *)
Definition set_at (m : Mat) (r c : Z) (v : float) : res Mat :=
  if inside m r c
  then Ok {| rows := rows m; cols := cols m;
             px := fun r' c' => if (r' =? r) && (c' =? c) then v else px m r' c' |}
  else Undefined (MatIndex r c).

(** [v[i]] *)
Definition vec_at {A} (v : list A) (i : Z) : res A :=
  if i <? 0 then Undefined (VecIndex i)
  else match nth_error v (Z.to_nat i) with
       | Some a => Ok a
       | None => Undefined (VecIndex i)
       end.

(** [v.size()] *)
Definition size {A} (v : list A) : Z := Z.of_nat (List.length v).

(** [v[i] = a] *)
Fixpoint update {A} (v : list A) (n : nat) (a : A) : list A :=
  match v, n with
  | [], _ => []
  | _ :: v', O => a :: v'
  | x :: v', S n' => x :: update v' n' a
  end.

Definition vec_set {A} (v : list A) (i : Z) (a : A) : res (list A) :=
  if (0 <=? i) && (i <? size v)
  then Ok (update v (Z.to_nat i) a)
  else Undefined (VecIndex i).

(** [a - b] on images: [cv::subtract] throws when the sizes differ. *)
Definition mat_sub (a b : Mat) : res Mat :=
  if (rows a =? rows b) && (cols a =? cols b)
  then Ok {| rows := rows a; cols := cols a;
             px := fun r c => F32.sub (px a r c) (px b r c) |}
  else Thrown "Sizes of input arguments do not match".

Definition same_size (a b : Mat) : Prop := rows a = rows b /\ cols a = cols b.

(** Every pixel of the image is a zero. *)
Definition all_zero (m : Mat) : Prop := forall r c, is_zero (px m r c) = true.

(** [dog_pyr[i][j]] *)
Definition pyr_at (pyr : list (list Mat)) (i j : Z) : res Mat :=
  oct <- vec_at pyr i ;; vec_at oct j.

(** ** The pyramid *)

Section Pyramid.
(** [cv::GaussianBlur(src, dst, Size(0, 0), sigma, 0)] *)
Variable GaussianBlur : Mat -> double -> res Mat.
(** From [SIFT.h]. *)
Variables SIFT_INIT_SIGMA SIFT_STEP_SIGMA INTERPOLATION_SIGMA : double.

(** [SIFT::downSample] *)
Definition downSample (image : Mat) : res Mat :=
  blurredImage <- GaussianBlur image INTERPOLATION_SIGMA ;;
  (* blurredImage.col(i * 2).copyTo(temp.col(i)) for i < temp.cols *)
  let temp := {| rows := rows blurredImage;
                 cols := Z.quot (cols blurredImage) 2;
                 px := fun r c => px blurredImage r (c * 2) |} in
  (* temp.row(i * 2).copyTo(resizedImage.row(i)) for i < resizedImage.rows *)
  let resizedImage := {| rows := Z.quot (rows temp) 2;
                         cols := cols temp;
                         px := fun r c => px temp (r * 2) c |} in
  Ok resizedImage.

(** The inner loop of [buildGaussianPyramid]: the state is
    [(sigma, pyr_intervals)]. *)
Definition blur_interval (tempImage : Mat) (j : Z) (s : double * list Mat)
  : res (double * list Mat) :=
  let '(sigma, pyr_intervals) := s in
  blurredImage <- GaussianBlur tempImage sigma ;;
  Ok (F64.mul sigma SIFT_STEP_SIGMA, pyr_intervals ++ [blurredImage]).

(** The outer loop: the state is [(tempImage, gauss_pyr)]. *)
Definition build_octave (nIntervals : Z) (i : Z) (s : Mat * list (list Mat))
  : res (Mat * list (list Mat)) :=
  let '(tempImage, gauss_pyr) := s in
  '(_, pyr_intervals) <-
     for_each (counting 0 (nIntervals + 3)) (blur_interval tempImage)
              (SIFT_INIT_SIGMA, []) ;;
  tempImage' <- downSample tempImage ;;
  Ok (tempImage', gauss_pyr ++ [pyr_intervals]).

(** [SIFT::buildGaussianPyramid]; [gauss_pyr] is the vector the caller
    passes by reference, empty in [findSiftInterestPoint]. *)
Definition buildGaussianPyramid (image : Mat) (gauss_pyr : list (list Mat))
           (nOctaves nIntervals : Z) : res (list (list Mat)) :=
  '(_, gauss_pyr') <-
     for_each (counting 0 nOctaves) (build_octave nIntervals) (image, gauss_pyr) ;;
  Ok gauss_pyr'.

(** The image octave [o] is blurred from: the input image down-sampled [o]
    times. *)
Fixpoint octave_base (o : nat) (image : Mat) : res Mat :=
  match o with
  | O => Ok image
  | S o' => base <- octave_base o' image ;; downSample base
  end.

(** One octave as the builder makes it from [base]: [nIntervals + 3] images,
    each a blur of [base]. *)
Definition octave_from (base : Mat) (nIntervals : Z) (oct : list Mat) : Prop :=
  List.length oct = Z.to_nat (nIntervals + 3) /\
  Forall (fun m => exists sigma, GaussianBlur base sigma = Ok m) oct.

(** The state of the outer loop after [k] octaves. *)
Definition built (image : Mat) (gauss_pyr : list (list Mat)) (nIntervals : Z)
           (k : Z) (s : Mat * list (list Mat)) : Prop :=
  exists octs,
    snd s = gauss_pyr ++ octs /\
    List.length octs = Z.to_nat k /\
    octave_base (Z.to_nat k) image = Ok (fst s) /\
    forall o oct, nth_error octs o = Some oct ->
                  exists base, octave_base o image = Ok base /\ octave_from base nIntervals oct.

(** What [GaussianBlur] is known to do: the result has the size of the
    source. *)
Definition blur_keeps_size : Prop :=
  forall m sigma m', GaussianBlur m sigma = Ok m' -> same_size m' m.

(** [GaussianBlur] of an image of zeros is an image of zeros. *)
Definition blur_keeps_zero : Prop :=
  forall m sigma m', all_zero m -> GaussianBlur m sigma = Ok m' -> all_zero m'.
End Pyramid.

(** The halving as the specification words it: every second column, and
    every second row, with the sizes rounded down. *)
Definition every_second_column (m : Mat) : Mat :=
  {| rows := rows m; cols := cols m / 2; px := fun r c => px m r (2 * c) |}.

Definition every_second_row (m : Mat) : Mat :=
  {| rows := rows m / 2; cols := cols m; px := fun r c => px m (2 * r) c |}.

(** [SIFT::buildDogPyr]: the body of the inner loop, the body of the outer
    loop, and the function. *)
Definition dog_interval (gauss_pyr : list (list Mat)) (i j : Z) (dog_intervals : list Mat)
  : res (list Mat) :=
  a <- pyr_at gauss_pyr i j ;;
  b <- pyr_at gauss_pyr i (j + 1) ;;
  d <- mat_sub a b ;;
  Ok (dog_intervals ++ [d]).

Definition dog_octave (gauss_pyr : list (list Mat)) (nIntervals : Z) (i : Z)
           (dog_pyr : list (list Mat)) : res (list (list Mat)) :=
  dog_intervals <- for_each (counting 0 (nIntervals - 1)) (dog_interval gauss_pyr i) [] ;;
  Ok (dog_pyr ++ [dog_intervals]).

Definition buildDogPyr (gauss_pyr : list (list Mat)) : res (list (list Mat)) :=
  let nOctaves := size gauss_pyr in
  first <- vec_at gauss_pyr 0 ;;
  let nIntervals := size first in
  for_each (counting 0 nOctaves) (dog_octave gauss_pyr nIntervals) [].

(** [d] is [a - b] pixel by pixel, on the size of [a]. *)
Definition difference_of (a b d : Mat) : Prop :=
  rows d = rows a /\ cols d = cols a /\
  forall r c, px d r c = F32.sub (px a r c) (px b r c).

(** [doct] is the octave of the differences of the consecutive images of
    [oct]. *)
Definition differences_of (oct doct : list Mat) : Prop :=
  size doct = Z.max 0 (size oct - 1) /\
  forall j, 0 <= j < size oct - 1 ->
            exists a b d, vec_at oct j = Ok a /\ vec_at oct (j + 1) = Ok b /\
                          vec_at doct j = Ok d /\ difference_of a b d.

(** ** Extrema *)

(** [SIFT::isExtrema].  The three nested loops are the same in both branches
    but for the comparison [cmp]: [intensity <= neighbour] when the centre is
    positive, [intensity >= neighbour] otherwise. *)
Definition scan_block (cmp : float -> float -> bool) (dog_pyr : list (list Mat))
           (octave interval r c : Z) (intensity : float) : res (option bool) :=
  for_return [-1; 0; 1] (fun i =>
    for_return [-1; 0; 1] (fun j =>
      for_return [-1; 0; 1] (fun k =>
        m <- pyr_at dog_pyr octave (interval + i) ;;
        v <- at_ m (r + j) (c + k) ;;
        if cmp intensity v && (negb (j =? 0) || negb (k =? 0))
        then Ok (Some false)
        else Ok None))).

Definition isExtrema (dog_pyr : list (list Mat)) (octave interval r c : Z) : res bool :=
  m <- pyr_at dog_pyr octave interval ;;
  intensity <- at_ m r c ;;
  o <- (if F32.gt intensity (F32.of_Z 0)
        then scan_block F32.le dog_pyr octave interval r c intensity
        else scan_block F32.ge dog_pyr octave interval r c intensity) ;;
  match o with
  | Some b => Ok b
  | None => Ok true
  end.

(** The comparisons of one branch, over the 3 x 3 x 3 block. *)
Definition block_test (cmp : float -> float -> bool) (M : Z -> Mat) (r c : Z)
           (intensity : float) : bool :=
  existsb (fun i =>
    existsb (fun j =>
      existsb (fun k =>
        cmp intensity (px (M i) (r + j) (c + k)) && (negb (j =? 0) || negb (k =? 0)))
      [-1; 0; 1]) [-1; 0; 1]) [-1; 0; 1].

(** ** Validation *)

(** The finite differences of [cleanPoints], lines 189 to 192: the result is
    [(fxx, fyy, fxy)].  [rx] is used as the row and [ry] as the column. *)
Definition hessian (image : Mat) (rx ry : Z) : res (float * float * float) :=
  a <- at_ image (rx - 1) ry ;;
  b <- at_ image (rx + 1) ry ;;
  c <- at_ image rx ry ;;
  let fxx := F32.sub (F32.add a b) (F32.mul (F32.of_Z 2) c) in
  a <- at_ image rx (ry - 1) ;;
  b <- at_ image rx (ry + 1) ;;
  c <- at_ image rx ry ;;
  let fyy := F32.sub (F32.add a b) (F32.mul (F32.of_Z 2) c) in
  a <- at_ image (rx - 1) (ry - 1) ;;
  b <- at_ image (rx + 1) (ry + 1) ;;
  c <- at_ image (rx - 1) (ry + 1) ;;
  d <- at_ image (rx + 1) (ry - 1) ;;
  let fxy := F32.sub (F32.sub (F32.add a b) c) d in
  Ok (fxx, fyy, fxy).

Definition determinant (h : float * float * float) : float :=
  let '(fxx, fyy, fxy) := h in F32.sub (F32.mul fxx fyy) (F32.mul fxy fxy).

Definition trace_squared (h : float * float * float) : float :=
  let '(fxx, fyy, fxy) := h in
  let trace := F32.add fxx fyy in F32.mul trace trace.

(** [SIFT::cleanPoints], with the division operator as the argument
    [divide], so that the quotients taken during a run can be observed.
    The result is the returned flag and the list of the pairs
    [(dividend, divisor)] handed to [divide], in the order of evaluation.
    [position] is [(x, y)]; [image.at<float>(position)] reads row [y],
    column [x].  [abs] is the [float] overload of [std::abs]; [rx] and [ry]
    hold the integers [x] and [y]. *)
Definition cleanPoints_with (divide : float -> float -> float)
           (position : Z * Z) (image : Mat) (curv_thr : Z) (cont_thr dtr_thr : float)
  : res (bool * list (float * float)) :=
  let '(x, y) := position in
  v <- at_ image y x ;;
  if F32.lt (F32.abs v) cont_thr
  then Ok (false, [])
  else
    let rx := x in
    let ry := y in
    h <- hessian image rx ry ;;
    let deter := determinant h in
    let curvature := divide (trace_squared h) deter in
    let divisions := [(trace_squared h, deter)] in
    if F32.lt deter dtr_thr || F32.gt curvature (F32.of_Z curv_thr)
    then Ok (false, divisions)
    else Ok (true, divisions).

Definition cleanPoints_traced := cleanPoints_with F32.div.

Definition cleanPoints (position : Z * Z) (image : Mat) (curv_thr : Z)
           (cont_thr dtr_thr : float) : res bool :=
  t <- cleanPoints_traced position image curv_thr cont_thr dtr_thr ;;
  Ok (fst t).

(** ** Keypoints *)

(** [cv::KeyPoint].  The coordinates, the size and the angle are [float]
    fields that the program only fills with [int] values and reads back as
    [int]: they are kept as integers. *)
Record KeyPoint : Type := {
  kp_x : Z; kp_y : Z; kp_size : Z; kp_angle : Z; kp_response : Z; kp_octave : Z
}.

Section Detector.
(** From [SIFT.h]: the border of the scan and the default arguments of
    [cleanPoints]. *)
Variable SIFT_IMG_BORDER : Z.
Variables SIFT_CONTR_THR SIFT_DETER_THR : float.

(** The body of the innermost loop of [getScaleSpaceExtrema]. *)
Definition scan_pixel (dog_pyr : list (list Mat)) (curv_thr i j r c : Z)
           (keypoints : list KeyPoint) : res (list KeyPoint) :=
  e <- isExtrema dog_pyr i j r c ;;
  if e then
    image <- pyr_at dog_pyr i j ;;
    good <- cleanPoints (c, r) image curv_thr SIFT_CONTR_THR SIFT_DETER_THR ;;
    if good
    then Ok (keypoints ++ [{| kp_x := c; kp_y := r; kp_size := j; kp_angle := -1;
                              kp_response := 0; kp_octave := i |}])
    else Ok keypoints
  else Ok keypoints.

Definition scan_interval (dog_pyr : list (list Mat)) (curv_thr i j : Z)
           (keypoints : list KeyPoint) : res (list KeyPoint) :=
  m0 <- pyr_at dog_pyr i 0 ;;
  for_each (counting SIFT_IMG_BORDER (rows m0 - SIFT_IMG_BORDER)) (fun r kps =>
    for_each (counting SIFT_IMG_BORDER (cols m0 - SIFT_IMG_BORDER))
             (scan_pixel dog_pyr curv_thr i j r) kps) keypoints.

(** [SIFT::getScaleSpaceExtrema] *)
Definition getScaleSpaceExtrema (dog_pyr : list (list Mat)) (keypoints : list KeyPoint)
           (curv_thr : Z) : res (list KeyPoint) :=
  let octaves := size dog_pyr in
  first <- vec_at dog_pyr 0 ;;
  let intervals := size first - 2 in
  for_each (counting 0 octaves) (fun i kps =>
    for_each (counting 1 (intervals + 1)) (scan_interval dog_pyr curv_thr i) kps) keypoints.
End Detector.

(** ** Histograms *)

(** [SIFT::histogramMax]: the result is [(maximum, indexMax)].  The
    histogram holds the counts of [buildHistogram], whole numbers that a
    [double] and the [int maximum] both hold exactly: they are integers
    here. *)
Definition histogramMax (histogram : list Z) : res (Z * Z) :=
  first <- vec_at histogram 0 ;;
  for_each (counting 0 (size histogram)) (fun i s =>
    let '(maximum, indexMax) := s in
    h <- vec_at histogram i ;;
    if maximum <? h then Ok (h, i) else Ok (maximum, indexMax)) (first, 0).

(** [SIFT::buildHistogram] *)
Definition buildHistogram (matrix : Mat) (range maximum : Z) : res (list Z) :=
  let size := Z.quot maximum range in
  let histo := repeat 0 (Z.to_nat size) in
  for_each (counting 0 (rows matrix)) (fun i histo =>
    for_each (counting 0 (cols matrix)) (fun j histo =>
      a <- at_ matrix i j ;;
      index <- to_int (F32.div a (F32.of_Z range)) ;;
      n <- vec_at histo index ;;
      vec_set histo index (n + 1)) histo) histo.

(** ** Orientation *)

(** [Mat_<float>(rows, cols)]: the cells are not initialised; the program
    assigns every one of them before it reads any. *)
Definition fresh_mat (rows cols : Z) : Mat :=
  {| rows := rows; cols := cols; px := fun _ _ => S754_nan |}.

(** The fields [keypointsGradients] and [keypointsMagnitudes] of the [SIFT]
    object. *)
Record SIFT : Type := {
  keypointsGradients : list Mat;
  keypointsMagnitudes : list Mat
}.

Section Orientation.
(** From [SIFT.h]. *)
Variable SIFT_HIST_BOREDER : Z.
Variable PI : double.
(** libm *)
Variable atan2f : float -> float -> float.

(** [SIFT::rad2deg] *)
Definition rad2deg (rad : float) : double :=
  let rad :=
    if F32.lt rad (F32.of_Z 0)
    then to_float (F64.add (to_double rad) (F64.mul (F64.of_Z 2) PI))
    else rad in
  let rad :=
    to_float (F64.mul (to_double rad) (F64.div (F64.of_Z 360) (F64.mul (F64.of_Z 2) PI))) in
  to_double rad.

(** [pow(x, 2)] on a [float]: the square is exact in [double]. *)
Definition pow2 (x : float) : double := F64.mul (to_double x) (to_double x).

(** The test of line 293. *)
Definition window_fits (image : Mat) (keyx keyy : Z) : bool :=
  negb ((keyx - SIFT_HIST_BOREDER - 1 <? 0)
        || (keyx + SIFT_HIST_BOREDER + 1 >? cols image)
        || (keyy - SIFT_HIST_BOREDER - 1 <? 0)
        || (keyy + SIFT_HIST_BOREDER + 1 >? rows image)).

(** The body of the loops of lines 298 to 313: the state is
    [(tempMagnitude, tempGradient)]. *)
Definition gradient_cell (image : Mat) (keyx keyy i j : Z) (s : Mat * Mat) : res (Mat * Mat) :=
  let '(tempMagnitude, tempGradient) := s in
  a <- at_ image (keyx + i + 1 - SIFT_HIST_BOREDER) (keyy - SIFT_HIST_BOREDER + j) ;;
  b <- at_ image (keyx + i - 1 - SIFT_HIST_BOREDER) (keyy - SIFT_HIST_BOREDER + j) ;;
  let diffx := F32.sub a b in
  a <- at_ image (keyx - SIFT_HIST_BOREDER + i) (keyy + j + 1 - SIFT_HIST_BOREDER) ;;
  b <- at_ image (keyx - SIFT_HIST_BOREDER + i) (keyy + j - 1 - SIFT_HIST_BOREDER) ;;
  let diffy := F32.sub a b in
  let magnitude := to_float (F64.sqrt (F64.add (pow2 diffx) (pow2 diffy))) in
  let gradient := to_float (rad2deg (atan2f diffy diffx)) in
  tempMagnitude <- set_at tempMagnitude i j magnitude ;;
  tempGradient <- set_at tempGradient i j gradient ;;
  Ok (tempMagnitude, tempGradient).

Definition gradient_patch (image : Mat) (keyx keyy : Z) : res (Mat * Mat) :=
  let tempMagnitude := fresh_mat (SIFT_HIST_BOREDER * 2) (SIFT_HIST_BOREDER * 2) in
  let tempGradient := fresh_mat (SIFT_HIST_BOREDER * 2) (SIFT_HIST_BOREDER * 2) in
  for_each (counting 0 (SIFT_HIST_BOREDER * 2)) (fun i s =>
    for_each (counting 0 (SIFT_HIST_BOREDER * 2)) (gradient_cell image keyx keyy i) s)
    (tempMagnitude, tempGradient).

(** The body of the loop of [computeOrientationHist] at one keypoint: the
    result is the keypoint as the iteration leaves it and the object. *)
Definition orient_keypoint (dog_pyr : list (list Mat)) (kp : KeyPoint) (this : SIFT)
  : res (KeyPoint * SIFT) :=
  let range := 10 in
  let maximum := 360 in
  image <- pyr_at dog_pyr (kp_octave kp) (kp_size kp) ;;
  let keyx := kp_x kp in
  let keyy := kp_y kp in
  if window_fits image keyx keyy then
    '(tempMagnitude, tempGradient) <- gradient_patch image keyx keyy ;;
    let this := {| keypointsGradients := keypointsGradients this ++ [tempGradient];
                   keypointsMagnitudes := keypointsMagnitudes this ++ [tempMagnitude] |} in
    histo <- buildHistogram tempGradient range maximum ;;
    '(maxima, indexMax) <- histogramMax histo ;;
    let angleOrientation := indexMax * range in
    let angleOrientation := angleOrientation + Z.quot range 2 in
    Ok ({| kp_x := kp_x kp; kp_y := kp_y kp; kp_size := kp_size kp;
           kp_angle := angleOrientation;
           kp_response := kp_response kp; kp_octave := kp_octave kp |}, this)
  else Ok (kp, this).

(** What [atan2f] has to do for the histogram of a patch to be filled
    inside its 36 bins: the angle of every gradient, in degrees, divided by
    10 and truncated, is a bin. *)
Definition angles_in_bins : Prop :=
  forall dy dx, exists index,
    to_int (F32.div (to_float (rad2deg (atan2f dy dx))) (F32.of_Z 10)) = Ok index /\
    0 <= index < 36.

(** [SIFT::computeOrientationHist]: the loop over [z] visits the keypoints
    in order and assigns [keypoints[z].angle] in place. *)
Fixpoint computeOrientationHist (dog_pyr : list (list Mat)) (keypoints : list KeyPoint)
         (this : SIFT) : res (list KeyPoint * SIFT) :=
  match keypoints with
  | [] => Ok ([], this)
  | kp :: rest =>
      '(kp', this) <- orient_keypoint dog_pyr kp this ;;
      '(rest', this) <- computeOrientationHist dog_pyr rest this ;;
      Ok (kp' :: rest', this)
  end.
End Orientation.

(** ** Words of the specification *)

(** [idx] is the first bin of [histogram] that holds the maximum count. *)
Definition first_maximum (histogram : list Z) (idx : Z) : Prop :=
  exists m, vec_at histogram idx = Ok m /\
            (forall k v, vec_at histogram k = Ok v -> v <= m) /\
            (forall k v, k < idx -> vec_at histogram k = Ok v -> v < m).

(** The square window of side [2 * W] centred at [(x, y)] leaves the image:
    [x] is measured along the columns and [y] along the rows. *)
Definition window_exceeds (W : Z) (image : Mat) (x y : Z) : Prop :=
  x - W < 0 \/ x + W > cols image \/ y - W < 0 \/ y + W > rows image.

(** The keypoint passes the test of [computeOrientationHist] on its image of
    the pyramid. *)
Definition has_window (W : Z) (dog_pyr : list (list Mat)) (kp : KeyPoint) : bool :=
  match pyr_at dog_pyr (kp_octave kp) (kp_size kp) with
  | Ok image => window_fits W image (kp_x kp) (kp_y kp)
  | _ => false
  end.

(** ** Concrete images *)

(** The image whose rows are the lists of [l]. *)
Definition mat_of (l : list (list float)) : Mat :=
  {| rows := size l; cols := size (hd [] l);
     px := fun r c => nth (Z.to_nat c) (nth (Z.to_nat r) l []) S754_nan |}.

(** An image of one value. *)
Definition constant_mat (rows cols : Z) (v : float) : Mat :=
  {| rows := rows; cols := cols; px := fun _ _ => v |}.

(** An image of zeros but for the value [v] at row [r0], column [c0]. *)
Definition spike_at (rows cols r0 c0 : Z) (v : float) : Mat :=
  {| rows := rows; cols := cols;
     px := fun r c => if (r =? r0) && (c =? c0) then v else F32.zero |}.

(** An octave of three difference images of [2 * n + 1] rows and columns:
    zeros, a spike of 1 at the centre, a spike of 2 at the centre.  The
    centre of the middle image exceeds its 8 neighbours there and the
    3 x 3 block below, but the pixel right above it, in the next interval,
    is greater. *)
Definition dog_spikes (n : Z) : list (list Mat) :=
  [[constant_mat (2 * n + 1) (2 * n + 1) F32.zero;
    spike_at (2 * n + 1) (2 * n + 1) n n (F32.of_Z 1);
    spike_at (2 * n + 1) (2 * n + 1) n n (F32.of_Z 2)]].

(** A bump: 1 at the centre, 1/2 at its four neighbours, 0 at the corners.
    Its finite differences are [fxx = fyy = -1] and [fxy = 0]: determinant
    1 and ratio 4. *)
Definition bump : Mat :=
  let o := F32.zero in
  let h := F32.of_scaled 1 (-1) in
  mat_of [[o; h; o]; [h; F32.of_Z 1; h]; [o; h; o]].

(** 0.03f, a contrast threshold. *)
Definition contrast_003 : float := F32.div (F32.of_Z 3) (F32.of_Z 100).

(** An octave of three 16 x 16 difference images with one extremum, a
    spike of 1 at row 5, column 9 of the middle image.  [cleanPoints] takes
    its finite differences around row 9, column 5, where the image is
    flat. *)
Definition off_diagonal_spike : Mat := spike_at 16 16 5 9 (F32.of_Z 1).

Definition dog_off_diagonal : list (list Mat) :=
  [[constant_mat 16 16 F32.zero; off_diagonal_spike; constant_mat 16 16 F32.zero]].

(** An octave of three difference images of 18 rows and 36 columns; the
    middle one has a bump at row 9, column 12 and a bump at row 12,
    column 9. *)
Definition bump_at (r0 c0 r c : Z) : float :=
  if (r =? r0) && (c =? c0) then F32.of_Z 1
  else if Z.abs (r - r0) + Z.abs (c - c0) =? 1 then F32.of_scaled 1 (-1)
  else F32.zero.

Definition two_bumps : Mat :=
  {| rows := 18; cols := 36;
     px := fun r c => F32.add (bump_at 9 12 r c) (bump_at 12 9 r c) |}.

Definition dog_two_bumps : list (list Mat) :=
  [[constant_mat 18 36 F32.zero; two_bumps; constant_mat 18 36 F32.zero]].

Definition keypoint_at (x y : Z) : KeyPoint :=
  {| kp_x := x; kp_y := y; kp_size := 1; kp_angle := -1; kp_response := 0; kp_octave := 0 |}.

Definition no_patches : SIFT := {| keypointsGradients := []; keypointsMagnitudes := [] |}.

(** A blur that changes nothing, the limit of [GaussianBlur] for a
    vanishing sigma. *)
Definition blur_nothing (m : Mat) (sigma : double) : res Mat := Ok m.

(** The pyramid of two octaves and one interval of a 16 x 16 image of zeros
    under [blur_nothing], all sigmas being 1. *)
Definition zeros_16x16 : Mat := constant_mat 16 16 F32.zero.

Definition zeros_pyramid : list (list Mat) :=
  match buildGaussianPyramid blur_nothing (F64.of_Z 1) (F64.of_Z 1) (F64.of_Z 1)
                             zeros_16x16 [] 2 1 with
  | Ok pyr => pyr
  | _ => []
  end.

(** pi as a [double], and as a [float]. *)
Definition pi_double : double := F64.of_scaled 884279719003555 (-48).
Definition pi_float : float := to_float pi_double.

(** A stand-in for [atan2f], exact on the four axes: 0 towards [dx > 0],
    pi towards [dx < 0], pi / 2 and - pi / 2 towards [dy > 0] and [dy < 0]. *)
Definition atan2f_on_axes (dy dx : float) : float :=
  if F32.gt dx F32.zero then F32.zero
  else if F32.lt dx F32.zero then pi_float
  else if F32.gt dy F32.zero then F32.div pi_float (F32.of_Z 2)
  else if F32.lt dy F32.zero then SFopp (F32.div pi_float (F32.of_Z 2))
  else F32.zero.

(** A 4 x 4 image whose patch of half-size 1 around (2, 2) has two
    gradients along each of two axes. *)
Definition two_axes : Mat :=
  let n := F32.of_Z in
  mat_of [[n 0; n 0; n 0; n 0];
          [n 0; n 0; n 0; n 1];
          [n 0; n 1; n 0; n 2];
          [n 0; n 1; n 0; n 0]].

Definition centre_keypoint : KeyPoint :=
  {| kp_x := 2; kp_y := 2; kp_size := 0; kp_angle := -1; kp_response := 0; kp_octave := 0 |}.

(** ** The detector, as a list *)

Section DetectorList.
Variable SIFT_IMG_BORDER : Z.
Variables SIFT_CONTR_THR SIFT_DETER_THR : float.

(** The pixel at row [r], column [c] of interval [j] of octave [i] passes
    both tests of the innermost loop of [getScaleSpaceExtrema]. *)
Definition accepted (dog_pyr : list (list Mat)) (curv_thr i j r c : Z) : bool :=
  match isExtrema dog_pyr i j r c with
  | Ok true =>
      match pyr_at dog_pyr i j with
      | Ok image =>
          match cleanPoints (c, r) image curv_thr SIFT_CONTR_THR SIFT_DETER_THR with
          | Ok true => true
          | _ => false
          end
      | _ => false
      end
  | _ => false
  end.

(** [KeyPoint(c, r, j, -1, 0, i)] *)
Definition detected (i j r c : Z) : KeyPoint :=
  {| kp_x := c; kp_y := r; kp_size := j; kp_angle := -1; kp_response := 0; kp_octave := i |}.

(** The keypoints of one interval, of one octave and of the pyramid, in the
    order of the scan. *)
Definition extrema_of_interval (dog_pyr : list (list Mat)) (curv_thr i j : Z)
  : list KeyPoint :=
  match pyr_at dog_pyr i 0 with
  | Ok m0 =>
      flat_map (fun r =>
        flat_map (fun c =>
          if accepted dog_pyr curv_thr i j r c then [detected i j r c] else [])
          (counting SIFT_IMG_BORDER (cols m0 - SIFT_IMG_BORDER)))
        (counting SIFT_IMG_BORDER (rows m0 - SIFT_IMG_BORDER))
  | _ => []
  end.

Definition extrema_of (dog_pyr : list (list Mat)) (curv_thr : Z) : list KeyPoint :=
  match vec_at dog_pyr 0 with
  | Ok first =>
      flat_map (fun i =>
        flat_map (extrema_of_interval dog_pyr curv_thr i)
                 (counting 1 (size first - 2 + 1)))
        (counting 0 (size dog_pyr))
  | _ => []
  end.
End DetectorList.

(** The order of the scan on keypoints: by octave, then interval, then
    row, then column. *)
Definition scanned_before (a b : KeyPoint) : Prop :=
  kp_octave a < kp_octave b \/
  (kp_octave a = kp_octave b /\
   (kp_size a < kp_size b \/
    (kp_size a = kp_size b /\
     (kp_y a < kp_y b \/ (kp_y a = kp_y b /\ kp_x a < kp_x b))))).

(** ** The sigmas of an octave *)

(** The value of [sigma] when interval [j] is blurred: [init] multiplied
    [j] times by [step], each product rounded to a [double]. *)
Fixpoint sigma_at (init step : double) (j : nat) : double :=
  match j with
  | O => init
  | S j' => F64.mul (sigma_at init step j') step
  end.

(** ** Histograms, in words *)

(** The bin that [buildHistogram] computes for the cell at row [i], column
    [j]: [matrix.at<float>(i, j) / range], truncated. *)
Definition bin_of (matrix : Mat) (range i j : Z) : res Z :=
  to_int (F32.div (px matrix i j) (F32.of_Z range)).

(** The cells of an image, row by row. *)
Definition cells (matrix : Mat) : list (Z * Z) :=
  flat_map (fun i => map (pair i) (counting 0 (cols matrix))) (counting 0 (rows matrix)).

Definition in_bin (matrix : Mat) (range k : Z) (cell : Z * Z) : bool :=
  match bin_of matrix range (fst cell) (snd cell) with
  | Ok index => index =? k
  | _ => false
  end.

(** The sum of the counts of a histogram. *)
Definition total (histogram : list Z) : Z := fold_right Z.add 0 histogram.

(** The state of the histogram after the cells of [done]. *)
Definition counted (matrix : Mat) (range n : Z) (done : list (Z * Z)) (h : list Z) : Prop :=
  size h = n /\
  total h = Z.of_nat (List.length done) /\
  (forall cell, In cell done ->
                exists index, bin_of matrix range (fst cell) (snd cell) = Ok index /\
                              0 <= index < n) /\
  forall k v, vec_at h k = Ok v ->
              v = Z.of_nat (List.length (filter (in_bin matrix range k) done)).

(** ** Patches, in words *)

Section PatchWords.
Variable SIFT_HIST_BOREDER : Z.
Variable PI : double.
Variable atan2f : float -> float -> float.

(** The central differences that cell [(i, j)] of the patch of the keypoint
    [(keyx, keyy)] is computed from: [keyx] moves along the rows of the image
    and [keyy] along its columns. *)
Definition diffx_at (image : Mat) (keyx keyy i j : Z) : float :=
  F32.sub (px image (keyx - SIFT_HIST_BOREDER + i + 1) (keyy - SIFT_HIST_BOREDER + j))
          (px image (keyx - SIFT_HIST_BOREDER + i - 1) (keyy - SIFT_HIST_BOREDER + j)).

Definition diffy_at (image : Mat) (keyx keyy i j : Z) : float :=
  F32.sub (px image (keyx - SIFT_HIST_BOREDER + i) (keyy - SIFT_HIST_BOREDER + j + 1))
          (px image (keyx - SIFT_HIST_BOREDER + i) (keyy - SIFT_HIST_BOREDER + j - 1)).

Definition magnitude_at (image : Mat) (keyx keyy i j : Z) : float :=
  to_float (F64.sqrt (F64.add (pow2 (diffx_at image keyx keyy i j))
                              (pow2 (diffy_at image keyx keyy i j)))).

Definition gradient_at (image : Mat) (keyx keyy i j : Z) : float :=
  to_float (rad2deg PI (atan2f (diffy_at image keyx keyy i j)
                               (diffx_at image keyx keyy i j))).

(** The rows and columns of the image that the patch of [(keyx, keyy)] is
    computed from lie inside the image. *)
Definition reads_inside (image : Mat) (keyx keyy : Z) : Prop :=
  0 <= keyx - SIFT_HIST_BOREDER - 1 /\ keyx + SIFT_HIST_BOREDER < rows image /\
  0 <= keyy - SIFT_HIST_BOREDER - 1 /\ keyy + SIFT_HIST_BOREDER < cols image.

(** The four reads of cell [(i, j)]. *)
Definition cell_reads (image : Mat) (keyx keyy i j : Z) : Prop :=
  inside image (keyx - SIFT_HIST_BOREDER + i + 1) (keyy - SIFT_HIST_BOREDER + j) = true /\
  inside image (keyx - SIFT_HIST_BOREDER + i - 1) (keyy - SIFT_HIST_BOREDER + j) = true /\
  inside image (keyx - SIFT_HIST_BOREDER + i) (keyy - SIFT_HIST_BOREDER + j + 1) = true /\
  inside image (keyx - SIFT_HIST_BOREDER + i) (keyy - SIFT_HIST_BOREDER + j - 1) = true.

(** What a cell of the patch holds once the two loops are over. *)
Definition cell_done (image : Mat) (keyx keyy : Z) (s : Mat * Mat) (i j : Z) : Prop :=
  cell_reads image keyx keyy i j /\
  px (fst s) i j = magnitude_at image keyx keyy i j /\
  px (snd s) i j = gradient_at image keyx keyy i j.

(** Every angle of the patch of [(keyx, keyy)], divided by 10 and
    truncated, is one of the 36 bins of the histogram. *)
Definition patch_in_bins (image : Mat) (keyx keyy : Z) : Prop :=
  forall i j, 0 <= i < SIFT_HIST_BOREDER * 2 -> 0 <= j < SIFT_HIST_BOREDER * 2 ->
              exists index,
                to_int (F32.div (gradient_at image keyx keyy i j) (F32.of_Z 10)) = Ok index /\
                0 <= index < 36.

(** A keypoint that the estimator can go through: it has an image in the
    pyramid and, if it passes the test of line 293, its patch is read inside
    the image and its angles fall in the bins. *)
Definition orientable (dog_pyr : list (list Mat)) (kp : KeyPoint) : Prop :=
  exists image,
    pyr_at dog_pyr (kp_octave kp) (kp_size kp) = Ok image /\
    (window_fits SIFT_HIST_BOREDER image (kp_x kp) (kp_y kp) = true ->
     reads_inside image (kp_x kp) (kp_y kp) /\ patch_in_bins image (kp_x kp) (kp_y kp)).
End PatchWords.

(** ** Descriptors *)

(** [Mat::zeros(rows, cols, CV_32F)] *)
Definition zeros (rows cols : Z) : Mat :=
  {| rows := rows; cols := cols; px := fun _ _ => F32.zero |}.

(** The values of [i] in [for (int i = 0; i < hi; i += 4)]. *)
Definition counting_by4 (hi : Z) : list Z :=
  map (fun k => 4 * Z.of_nat k) (seq 0 (Z.to_nat ((hi + 3) / 4))).

(** Lines 352 to 359 of [computeDescriptors]: the block that is filled from
    [temp] at [(xBlock, yBlock)].  The bounds [blockMatrix.cols] and
    [blockMatrix.rows] are those of [Mat::zeros(4, 4, CV_32F)], which the
    assignments do not change. *)
Definition block_at (temp : Mat) (xBlock yBlock : Z) : res Mat :=
  let blockMatrix := zeros 4 4 in
  for_each (counting 0 (cols blockMatrix)) (fun i blockMatrix =>
    for_each (counting 0 (rows blockMatrix)) (fun j blockMatrix =>
      v <- at_ temp (xBlock + i) (yBlock + j) ;;
      set_at blockMatrix i j v) blockMatrix) blockMatrix.

(** The body of the loop over the patches: the descriptor of one patch. *)
Definition single_descriptor (temp : Mat) : res (list Z) :=
  for_each (counting_by4 (cols temp)) (fun xBlock singleDescriptor =>
    for_each (counting_by4 (rows temp)) (fun yBlock singleDescriptor =>
      blockMatrix <- block_at temp xBlock yBlock ;;
      singleHistogram <- buildHistogram blockMatrix 45 360 ;;
      Ok (singleDescriptor ++ singleHistogram)) singleDescriptor) [].

(** [SIFT::computeDescriptors] *)
Definition computeDescriptors (this : SIFT) : res (list (list Z)) :=
  for_each (counting 0 (size (keypointsGradients this))) (fun points descriptors =>
    temp <- vec_at (keypointsGradients this) points ;;
    singleDescriptor <- single_descriptor temp ;;
    Ok (descriptors ++ [singleDescriptor])) [].

(** *** Descriptors, in words *)

(** The number of cells of the block of [temp] at rows [xBlock] to
    [xBlock + 3] and columns [yBlock] to [yBlock + 3] whose value falls in
    bin [k] of the eight bins of 45 degrees. *)
Definition block_count (temp : Mat) (xBlock yBlock k : Z) : Z :=
  Z.of_nat (List.length
              (filter (fun cell => in_bin temp 45 k (xBlock + fst cell, yBlock + snd cell))
                      (cells (zeros 4 4)))).

Definition block_histogram (temp : Mat) (xBlock yBlock : Z) : list Z :=
  map (block_count temp xBlock yBlock) (counting 0 8).

(** The patches that [computeDescriptors] can describe: those without a
    cell, and the square ones whose side is a multiple of 4 and whose
    values all fall in the eight bins. *)
Definition describable (temp : Mat) : Prop :=
  rows temp <= 0 \/ cols temp <= 0 \/
  (rows temp = cols temp /\ rows temp mod 4 = 0 /\
   forall i j, 0 <= i < rows temp -> 0 <= j < cols temp ->
               exists index, bin_of temp 45 i j = Ok index /\ 0 <= index < 8).

(** The cells that the descriptor of [temp] is computed from are inside
    [temp] and fall in the eight bins. *)
Definition block_cells_fit (temp : Mat) (xBlock yBlock : Z) : Prop :=
  forall i j, 0 <= i < 4 -> 0 <= j < 4 ->
              inside temp (xBlock + i) (yBlock + j) = true /\
              exists index, bin_of temp 45 (xBlock + i) (yBlock + j) = Ok index /\
                            0 <= index < 8.

(** The descriptor [d] of a patch [temp] with cells: [n * n] blocks with
    [n = rows / 4], eight counts for each, the blocks of one band of four
    rows after one another. *)
Definition describes (temp : Mat) (d : list Z) : Prop :=
  let n := rows temp / 4 in
  size d = n * n * 8 /\
  forall a b k, 0 <= a < n -> 0 <= b < n -> 0 <= k < 8 ->
                vec_at d ((a * n + b) * 8 + k) = Ok (block_count temp (4 * a) (4 * b) k).

(** A loop over the elements of a vector. *)
Fixpoint for_elements {A S} (v : list A) (body : A -> S -> res S) (s : S) : res S :=
  match v with
  | [] => Ok s
  | x :: v' => s' <- body x s ;; for_elements v' body s'
  end.

(** ** The pipeline *)

Section Pipeline.
Variable GaussianBlur : Mat -> double -> res Mat.
Variables SIFT_INIT_SIGMA SIFT_STEP_SIGMA INTERPOLATION_SIGMA : double.
Variable SIFT_IMG_BORDER : Z.
Variables SIFT_CONTR_THR SIFT_DETER_THR : float.
Variable SIFT_HIST_BOREDER : Z.
Variable PI : double.
Variable atan2f : float -> float -> float.
(** OpenCV: the image of the caller, in colours; its grey version;
    [cvtColor(image, _image, CV_BGR2GRAY)] and
    [normalize(_image, _image, 0, 1, NORM_MINMAX, CV_32F)]. *)
Variables ColorImage GrayImage : Type.
Variable cvtColor : ColorImage -> res GrayImage.
Variable normalize : GrayImage -> res Mat.
(** From [SIFT.h]: the default value of the argument [curv_thr] of
    [getScaleSpaceExtrema]. *)
Variable curv_thr_default : Z.

(** [SIFT::findSiftInterestPoint]: the result is the vector [keypoints] and
    the object as the call leaves them. *)
Definition findSiftInterestPoint (image : ColorImage) (keypoints : list KeyPoint)
           (nOctaves nIntervals : Z) (this : SIFT) : res (list KeyPoint * SIFT) :=
  _image <- cvtColor image ;;
  _image <- normalize _image ;;
  let pyr := [] in
  pyr <- buildGaussianPyramid GaussianBlur SIFT_INIT_SIGMA SIFT_STEP_SIGMA
                              INTERPOLATION_SIGMA _image pyr nOctaves nIntervals ;;
  dog_pyr <- buildDogPyr pyr ;;
  keypoints <- getScaleSpaceExtrema SIFT_IMG_BORDER SIFT_CONTR_THR SIFT_DETER_THR
                                    dog_pyr keypoints curv_thr_default ;;
  computeOrientationHist SIFT_HIST_BOREDER PI atan2f dog_pyr keypoints this.
End Pipeline.

(** An angle that the orientation estimator assigns: the middle of one of
    the 36 bins of 10 degrees. *)
Definition oriented (angle : Z) : Prop :=
  exists k, 0 <= k < 36 /\ angle = k * 10 + 5.

(** What the estimator makes of one keypoint. *)
Definition reoriented (W : Z) (dog_pyr : list (list Mat)) (kp kp' : KeyPoint) : Prop :=
  (has_window W dog_pyr kp = false /\ kp' = kp) \/
  (has_window W dog_pyr kp = true /\ oriented (kp_angle kp') /\
   kp_x kp' = kp_x kp /\ kp_y kp' = kp_y kp /\ kp_size kp' = kp_size kp /\
   kp_octave kp' = kp_octave kp /\ kp_response kp' = kp_response kp).

(** ** More concrete images *)

(** A stand-in for [GaussianBlur] that depends on sigma: it multiplies
    every pixel by sigma, so that the images of an octave differ. *)
Definition blur_scaling (m : Mat) (sigma : double) : res Mat :=
  Ok {| rows := rows m; cols := cols m;
        px := fun r c => F32.mul (to_float sigma) (px m r c) |}.

(** An 11 x 11 image with a spike of 1 at its centre, and its pyramid of two
    octaves and one interval under [blur_scaling], with the sigmas 1, 2, 4
    and 8. *)
Definition spike_11x11 : Mat := spike_at 11 11 5 5 (F32.of_Z 1).

Definition scaled_pyramid : list (list Mat) :=
  match buildGaussianPyramid blur_scaling (F64.of_Z 1) (F64.of_Z 2) (F64.of_Z 1)
                             spike_11x11 [] 2 1 with
  | Ok pyr => pyr
  | _ => []
  end.

(** Image 2 of octave 1 of [scaled_pyramid]. *)
Definition scaled_image : Mat :=
  match pyr_at scaled_pyramid 1 2 with
  | Ok m => m
  | _ => spike_11x11
  end.

(** A patch of angles, and an object that holds it. *)
Definition angles_4x4 : Mat :=
  let n := F32.of_Z in
  mat_of [[n 0; n 0; n 50; n 50];
          [n 100; n 100; n 200; n 200];
          [n 300; n 300; n 300; n 300];
          [n 0; n 50; n 100; n 350]].

Definition one_patch : SIFT :=
  {| keypointsGradients := [angles_4x4]; keypointsMagnitudes := [] |}.

(** A pyramid of one octave of one 6 x 6 image with a spike at its centre,
    and the keypoint there. *)
Definition dog_spike_6x6 : list (list Mat) := [[spike_at 6 6 3 3 (F32.of_Z 1)]].

Definition keypoint_3_3 : KeyPoint :=
  {| kp_x := 3; kp_y := 3; kp_size := 0; kp_angle := -1; kp_response := 0; kp_octave := 0 |}.

(** Three 3 x 3 images that hold only NaN. *)
Definition nan_3x3 : Mat := constant_mat 3 3 S754_nan.
Definition dog_nan : list (list Mat) := [[nan_3x3; nan_3x3; nan_3x3]].

(** Stand-ins for [cvtColor] and [normalize] on an image that is grey and
    normalised already. *)
Definition already_grey (image : Mat) : res Mat := Ok image.
Definition already_normal (image : Mat) : res Mat := Ok image.

(** The keypoint at column 1, row 1 of [two_axes]: its window of half-size
    1 covers columns and rows 0 and 1. *)
Definition corner_keypoint : KeyPoint :=
  {| kp_x := 1; kp_y := 1; kp_size := 0; kp_angle := -1; kp_response := 0; kp_octave := 0 |}.

(** * Properties *)

(** ** The monad and the loops *)

Lemma bind_Ok {A B} (x : res A) (k : A -> res B) (b : B) :
  bind x k = Ok b -> exists a, x = Ok a /\ k a = Ok b.
Proof. destruct x as [a| |]; simpl; intros H; [eauto | discriminate | discriminate]. Qed.

Lemma bind_Thrown {A B} (x : res A) (k : A -> res B) (msg : string) :
  bind x k = Thrown msg -> x = Thrown msg \/ exists a, x = Ok a /\ k a = Thrown msg.
Proof.
  destruct x as [a| |]; simpl; intros H; [eauto | discriminate |].
  left. injection H as ->. reflexivity.
Qed.

Lemma bind_Undefined {A B} (x : res A) (k : A -> res B) (f : fault) :
  bind x k = Undefined f -> x = Undefined f \/ exists a, x = Ok a /\ k a = Undefined f.
Proof.
  destruct x as [a| |]; simpl; intros H; [eauto | | discriminate].
  left. injection H as ->. reflexivity.
Qed.

Tactic Notation "inv_bind" hyp(H) :=
  let a := fresh "a" in
  let E := fresh "E" in
  apply bind_Ok in H; destruct H as (a & E & H).

Tactic Notation "inv_bind" hyp(H) "as" simple_intropattern(a) ident(E) :=
  apply bind_Ok in H; destruct H as (a & E & H).

Lemma counting_nil lo hi : hi <= lo -> counting lo hi = [].
Proof.
  intros H. unfold counting.
  replace (Z.to_nat (hi - lo)) with 0%nat by lia. reflexivity.
Qed.

Lemma counting_cons lo hi : lo < hi -> counting lo hi = lo :: counting (lo + 1) hi.
Proof.
  intros H. unfold counting.
  replace (Z.to_nat (hi - lo)) with (S (Z.to_nat (hi - (lo + 1)))) by lia.
  simpl. f_equal; [lia |].
  rewrite <- seq_shift, map_map.
  apply map_ext. intros k. lia.
Qed.

Lemma counting_length lo hi : List.length (counting lo hi) = Z.to_nat (hi - lo).
Proof. unfold counting. now rewrite length_map, length_seq. Qed.

Lemma counting_In lo hi i : In i (counting lo hi) <-> lo <= i < hi.
Proof.
  unfold counting. rewrite in_map_iff. split.
  - intros (k & <- & Hk). apply in_seq in Hk. lia.
  - intros H. exists (Z.to_nat (i - lo)). split; [lia |].
    apply in_seq. lia.
Qed.

(** The loop [for (k = lo; k < hi; k++)] under an invariant [P k s] that the
    body keeps and that makes the body succeed: the loop succeeds and ends
    in a state of the invariant at the final value of the counter. *)
Lemma for_each_counting {S} (P : Z -> S -> Prop) (body : Z -> S -> res S)
      (lo hi : Z) (s : S) :
  P lo s ->
  (forall k s, lo <= k < hi -> P k s -> exists s', body k s = Ok s' /\ P (k + 1) s') ->
  exists s', for_each (counting lo hi) body s = Ok s' /\ P (Z.max lo hi) s'.
Proof.
  remember (Z.to_nat (hi - lo)) as n eqn:Hn.
  revert lo s Hn. induction n as [|n IH]; intros lo s Hn H0 Hstep.
  - rewrite counting_nil by lia. simpl. exists s. split; [reflexivity |].
    replace (Z.max lo hi) with lo by lia. exact H0.
  - rewrite counting_cons by lia. simpl.
    destruct (Hstep lo s ltac:(lia) H0) as (s1 & E1 & H1). rewrite E1. simpl.
    destruct (IH (lo + 1) s1 ltac:(lia) H1) as (s' & E' & H').
    + intros k s2 Hk. apply Hstep. lia.
    + exists s'. split; [exact E' |].
      replace (Z.max lo hi) with (Z.max (lo + 1) hi) by lia. exact H'.
Qed.

(** The same loop when it is known to have succeeded. *)
Lemma for_each_counting_Ok {S} (P : Z -> S -> Prop) (body : Z -> S -> res S)
      (lo hi : Z) (s s' : S) :
  for_each (counting lo hi) body s = Ok s' ->
  P lo s ->
  (forall k s s', lo <= k < hi -> P k s -> body k s = Ok s' -> P (k + 1) s') ->
  P (Z.max lo hi) s'.
Proof.
  remember (Z.to_nat (hi - lo)) as n eqn:Hn.
  revert lo s Hn. induction n as [|n IH]; intros lo s Hn Hrun H0 Hstep.
  - rewrite counting_nil in Hrun by lia. simpl in Hrun. injection Hrun as <-.
    replace (Z.max lo hi) with lo by lia. exact H0.
  - rewrite counting_cons in Hrun by lia. simpl in Hrun.
    inv_bind Hrun as s1 E.
    replace (Z.max lo hi) with (Z.max (lo + 1) hi) by lia.
    apply (IH (lo + 1) s1); [lia | exact Hrun | |].
    + apply (Hstep lo s s1); [lia | exact H0 | exact E].
    + intros k s2 s3 Hk. apply Hstep. lia.
Qed.

(** In a loop that succeeded, every iteration succeeded. *)
Lemma for_each_Ok_body {S} (body : Z -> S -> res S) :
  forall l s s', for_each l body s = Ok s' ->
                 forall i, In i l -> exists s1 s2, body i s1 = Ok s2.
Proof.
  induction l as [|k l IH]; simpl; intros s s' H i Hi; [contradiction |].
  inv_bind H as s1 E. destruct Hi as [<- | Hi].
  - exists s, s1. exact E.
  - apply (IH _ _ H i Hi).
Qed.

(** A loop throws only what its body throws. *)
Lemma for_each_Thrown {S} (body : Z -> S -> res S) (msg : string) :
  forall l s, for_each l body s = Thrown msg ->
              exists i s', In i l /\ body i s' = Thrown msg.
Proof.
  induction l as [|i l IH]; simpl; intros s H; [discriminate |].
  apply bind_Thrown in H. destruct H as [H | (s1 & E & H)].
  - exists i, s. auto.
  - destruct (IH _ H) as (i' & s' & Hin & Hb). exists i', s'. auto.
Qed.

Lemma for_each_Undefined {S} (body : Z -> S -> res S) (f : fault) :
  forall l s, for_each l body s = Undefined f ->
              exists i s', In i l /\ body i s' = Undefined f.
Proof.
  induction l as [|i l IH]; simpl; intros s H; [discriminate |].
  apply bind_Undefined in H. destruct H as [H | (s1 & E & H)].
  - exists i, s. auto.
  - destruct (IH _ H) as (i' & s' & Hin & Hb). exists i', s'. auto.
Qed.

Lemma vec_at_Ok {A} (v : list A) (i : Z) (a : A) :
  vec_at v i = Ok a <-> 0 <= i /\ nth_error v (Z.to_nat i) = Some a.
Proof.
  unfold vec_at. destruct (Z.ltb_spec i 0).
  - split; [discriminate | lia].
  - destruct (nth_error v (Z.to_nat i)) as [b|]; split.
    + intros [= ->]. auto.
    + intros [_ [= ->]]. reflexivity.
    + discriminate.
    + intros [_ [=]].
Qed.

Lemma vec_at_inside {A} (v : list A) (i : Z) :
  0 <= i < size v -> exists a, vec_at v i = Ok a.
Proof.
  unfold size. intros H.
  destruct (nth_error v (Z.to_nat i)) as [a|] eqn:E.
  - exists a. apply vec_at_Ok. split; [lia | exact E].
  - apply nth_error_None in E. lia.
Qed.

Lemma vec_at_size {A} (v : list A) (i : Z) (a : A) :
  vec_at v i = Ok a -> 0 <= i < size v.
Proof.
  intros H. apply vec_at_Ok in H. destruct H as [H0 H].
  assert (Z.to_nat i < List.length v)%nat by (apply nth_error_Some; congruence).
  unfold size. lia.
Qed.

Lemma vec_at_app_l {A} (v w : list A) (i : Z) (a : A) :
  vec_at v i = Ok a -> vec_at (v ++ w) i = Ok a.
Proof.
  intros H. pose proof (vec_at_size _ _ _ H) as Hs. unfold size in Hs.
  apply vec_at_Ok in H. apply vec_at_Ok.
  split; [tauto |]. rewrite nth_error_app1 by lia. tauto.
Qed.

Lemma vec_at_app_last {A} (v : list A) (a : A) :
  vec_at (v ++ [a]) (size v) = Ok a.
Proof.
  apply vec_at_Ok. unfold size. split; [lia |].
  rewrite Nat2Z.id, nth_error_app2, Nat.sub_diag by lia. reflexivity.
Qed.

Lemma size_app {A} (v w : list A) : size (v ++ w) = size v + size w.
Proof. unfold size. rewrite length_app. lia. Qed.

Lemma at_inside (m : Mat) (r c : Z) :
  0 <= r < rows m -> 0 <= c < cols m -> at_ m r c = Ok (px m r c).
Proof.
  intros Hr Hc. unfold at_, inside.
  destruct (Z.leb_spec 0 r), (Z.ltb_spec r (rows m)),
    (Z.leb_spec 0 c), (Z.ltb_spec c (cols m)); try lia.
  reflexivity.
Qed.

Lemma at_Ok (m : Mat) (r c : Z) (v : float) :
  at_ m r c = Ok v -> 0 <= r < rows m /\ 0 <= c < cols m /\ v = px m r c.
Proof.
  unfold at_, inside.
  destruct (Z.leb_spec 0 r), (Z.ltb_spec r (rows m)),
    (Z.leb_spec 0 c), (Z.ltb_spec c (cols m)); simpl; try discriminate.
  intros [= <-]. repeat split; lia || reflexivity.
Qed.

(** ** The pyramid builder *)

Section PyramidFacts.
Variable GaussianBlur : Mat -> double -> res Mat.
Variables SIFT_INIT_SIGMA SIFT_STEP_SIGMA INTERPOLATION_SIGMA : double.

Local Notation downSample_ := (downSample GaussianBlur INTERPOLATION_SIGMA).
Local Notation blur_interval_ := (blur_interval GaussianBlur SIFT_STEP_SIGMA).
Local Notation build_octave_ :=
  (build_octave GaussianBlur SIFT_INIT_SIGMA SIFT_STEP_SIGMA INTERPOLATION_SIGMA).
Local Notation buildGaussianPyramid_ :=
  (buildGaussianPyramid GaussianBlur SIFT_INIT_SIGMA SIFT_STEP_SIGMA INTERPOLATION_SIGMA).
Local Notation octave_base_ := (octave_base GaussianBlur INTERPOLATION_SIGMA).
Local Notation octave_from_ := (octave_from GaussianBlur).
Local Notation built_ := (built GaussianBlur INTERPOLATION_SIGMA).
Local Notation blur_keeps_size_ := (blur_keeps_size GaussianBlur).
Local Notation blur_keeps_zero_ := (blur_keeps_zero GaussianBlur).

Lemma blur_intervals_Ok (tempImage : Mat) (n : Z) (sigma sigma' : double)
      (acc ivs : list Mat) :
  for_each (counting 0 n) (blur_interval_ tempImage) (sigma, acc) = Ok (sigma', ivs) ->
  exists new, ivs = acc ++ new /\ List.length new = Z.to_nat n /\
              Forall (fun m => exists s, GaussianBlur tempImage s = Ok m) new.
Proof.
  intros Hrun.
  pose (P := fun (k : Z) (s : double * list Mat) =>
               exists new, snd s = acc ++ new /\ List.length new = Z.to_nat k /\
                           Forall (fun m => exists s, GaussianBlur tempImage s = Ok m) new).
  assert (HP : P (Z.max 0 n) (sigma', ivs)).
  { apply (for_each_counting_Ok P _ _ _ _ _ Hrun).
    - exists []. simpl. rewrite app_nil_r. auto.
    - intros k [sg l] s' Hk (new & Hl & Hlen & Hall) Hbody. simpl in Hl. subst l.
      unfold blur_interval in Hbody. inv_bind Hbody. injection Hbody as <-.
      exists (new ++ [a]). simpl. rewrite app_assoc. split; [reflexivity |].
      split; [rewrite length_app; simpl; lia |].
      apply Forall_app. split; [exact Hall |]. constructor; [eauto | constructor]. }
  destruct HP as (new & Hl & Hlen & Hall). exists new.
  split; [exact Hl |]. split; [lia | exact Hall].
Qed.

Lemma blur_intervals_total (tempImage : Mat) (n : Z) :
  (forall m s, exists m', GaussianBlur m s = Ok m') ->
  forall s, exists s', for_each (counting 0 n) (blur_interval_ tempImage) s = Ok s'.
Proof.
  intros Htot s.
  destruct (for_each_counting (fun _ _ => True) (blur_interval_ tempImage) 0 n s I)
    as (s' & E & _).
  - intros k [sg l] _ _. unfold blur_interval.
    destruct (Htot tempImage sg) as (m' & ->). simpl. eauto.
  - eauto.
Qed.

Lemma downSample_total :
  (forall m s, exists m', GaussianBlur m s = Ok m') ->
  forall image, exists m', downSample_ image = Ok m'.
Proof.
  intros Htot image. unfold downSample.
  destruct (Htot image INTERPOLATION_SIGMA) as (m' & ->). simpl. eauto.
Qed.

Lemma build_octave_keeps (image : Mat) (gauss_pyr : list (list Mat)) (nIntervals : Z)
      (k : Z) (s s' : Mat * list (list Mat)) :
  0 <= k ->
  built_ image gauss_pyr nIntervals k s ->
  build_octave_ nIntervals k s = Ok s' ->
  built_ image gauss_pyr nIntervals (k + 1) s'.
Proof.
  intros Hk (octs & Hl & Hlen & Hbase & Hocts) Hbody.
  destruct s as [t gp]. simpl in Hl, Hbase. subst gp.
  unfold build_octave in Hbody.
  inv_bind Hbody. destruct a as [sg ivs].
  inv_bind Hbody. injection Hbody as <-.
  apply blur_intervals_Ok in E. destruct E as (new & -> & Hnew & Hall).
  exists (octs ++ [new]). simpl.
  split; [now rewrite app_assoc |].
  split; [rewrite length_app; simpl; lia |].
  split.
  - replace (Z.to_nat (k + 1)) with (S (Z.to_nat k)) by lia. simpl.
    rewrite Hbase. simpl. exact E0.
  - intros o oct Ho.
    destruct (Nat.lt_ge_cases o (List.length octs)) as [Hlt | Hge].
    + rewrite nth_error_app1 in Ho by exact Hlt. eauto.
    + rewrite nth_error_app2 in Ho by exact Hge.
      destruct (o - List.length octs)%nat as [|d] eqn:Ed.
      * simpl in Ho. injection Ho as <-.
        replace o with (Z.to_nat k) by lia.
        exists t. split; [exact Hbase |]. split; [exact Hnew | exact Hall].
      * simpl in Ho. destruct d; discriminate.
Qed.

Lemma buildGaussianPyramid_built (image : Mat) (gauss_pyr pyr : list (list Mat))
      (nOctaves nIntervals : Z) :
  buildGaussianPyramid_ image gauss_pyr nOctaves nIntervals = Ok pyr ->
  exists t, built_ image gauss_pyr nIntervals (Z.max 0 nOctaves) (t, pyr).
Proof.
  unfold buildGaussianPyramid. intros H.
  inv_bind H. destruct a as [t pyr']. injection H as <-.
  exists t.
  apply (for_each_counting_Ok (built_ image gauss_pyr nIntervals) _ _ _ _ _ E).
  - exists []. simpl. rewrite app_nil_r. repeat split; auto.
    intros [|o] oct; discriminate.
  - intros k s s' Hk. apply build_octave_keeps. lia.
Qed.

Lemma buildGaussianPyramid_total (image : Mat) (gauss_pyr : list (list Mat))
      (nOctaves nIntervals : Z) :
  (forall m s, exists m', GaussianBlur m s = Ok m') ->
  exists pyr, buildGaussianPyramid_ image gauss_pyr nOctaves nIntervals = Ok pyr.
Proof.
  intros Htot. unfold buildGaussianPyramid.
  destruct (for_each_counting (fun _ _ => True) (build_octave_ nIntervals)
              0 nOctaves (image, gauss_pyr) I) as ([t pyr] & E & _).
  - intros k [t gp] _ _. unfold build_octave.
    destruct (blur_intervals_total t (nIntervals + 3) Htot (SIFT_INIT_SIGMA, []))
      as ([sg ivs] & ->).
    simpl. destruct (downSample_total Htot t) as (t' & ->). simpl. eauto.
  - rewrite E. simpl. eauto.
Qed.

Lemma buildGaussianPyramid_Thrown (image : Mat) (gauss_pyr : list (list Mat))
      (nOctaves nIntervals : Z) (msg : string) :
  buildGaussianPyramid_ image gauss_pyr nOctaves nIntervals = Thrown msg ->
  exists m sigma, GaussianBlur m sigma = Thrown msg.
Proof.
  unfold buildGaussianPyramid. intros H.
  apply bind_Thrown in H. destruct H as [H | ([t p] & _ & H)]; [| discriminate].
  apply for_each_Thrown in H. destruct H as (i & [t gp] & _ & H).
  unfold build_octave in H.
  apply bind_Thrown in H. destruct H as [H | ([sg ivs] & _ & H)].
  - apply for_each_Thrown in H. destruct H as (j & [sg ivs] & _ & H).
    unfold blur_interval in H.
    apply bind_Thrown in H. destruct H as [H | (b & _ & H)]; [eauto | discriminate].
  - apply bind_Thrown in H. destruct H as [H | (b & _ & H)]; [| discriminate].
    unfold downSample in H.
    apply bind_Thrown in H. destruct H as [H | (b & _ & H)]; [eauto | discriminate].
Qed.

Lemma buildGaussianPyramid_Undefined (image : Mat) (gauss_pyr : list (list Mat))
      (nOctaves nIntervals : Z) (f : fault) :
  buildGaussianPyramid_ image gauss_pyr nOctaves nIntervals = Undefined f ->
  exists m sigma, GaussianBlur m sigma = Undefined f.
Proof.
  unfold buildGaussianPyramid. intros H.
  apply bind_Undefined in H. destruct H as [H | ([t p] & _ & H)]; [| discriminate].
  apply for_each_Undefined in H. destruct H as (i & [t gp] & _ & H).
  unfold build_octave in H.
  apply bind_Undefined in H. destruct H as [H | ([sg ivs] & _ & H)].
  - apply for_each_Undefined in H. destruct H as (j & [sg ivs] & _ & H).
    unfold blur_interval in H.
    apply bind_Undefined in H. destruct H as [H | (b & _ & H)]; [eauto | discriminate].
  - apply bind_Undefined in H. destruct H as [H | (b & _ & H)]; [| discriminate].
    unfold downSample in H.
    apply bind_Undefined in H. destruct H as [H | (b & _ & H)]; [eauto | discriminate].
Qed.

Lemma downSample_Ok (image m : Mat) :
  blur_keeps_size_ ->
  0 <= rows image -> 0 <= cols image ->
  downSample_ image = Ok m ->
  exists blurred,
    GaussianBlur image INTERPOLATION_SIGMA = Ok blurred /\
    rows m = rows image / 2 /\ cols m = cols image / 2 /\
    rows m = rows (every_second_row (every_second_column blurred)) /\
    cols m = cols (every_second_row (every_second_column blurred)) /\
    forall r c, px m r c = px (every_second_row (every_second_column blurred)) r c.
Proof.
  intros Hsize Hr Hc H. unfold downSample in H. inv_bind H. injection H as <-.
  destruct (Hsize _ _ _ E) as [Er Ec].
  exists a. cbn [rows cols px every_second_row every_second_column].
  rewrite Er, Ec, !Z.quot_div_nonneg by lia.
  split; [exact E |]. repeat split.
  intros r c. f_equal; lia.
Qed.

Lemma octave_base_nonneg (image : Mat) :
  blur_keeps_size_ ->
  0 <= rows image -> 0 <= cols image ->
  forall o base, octave_base_ o image = Ok base -> 0 <= rows base /\ 0 <= cols base.
Proof.
  intros Hsize Hr Hc. induction o as [|o IH]; simpl; intros base H.
  - injection H as <-. auto.
  - inv_bind H. destruct (IH _ E) as [Hra Hca].
    destruct (downSample_Ok a base Hsize Hra Hca H) as (b & _ & -> & -> & _).
    split; apply Z.div_pos; lia.
Qed.

Lemma octave_from_size (base : Mat) (nIntervals : Z) (oct : list Mat) :
  blur_keeps_size_ -> octave_from_ base nIntervals oct ->
  forall m, In m oct -> same_size m base.
Proof.
  intros Hsize [_ Hall] m Hm.
  rewrite Forall_forall in Hall. destruct (Hall m Hm) as (s & E).
  exact (Hsize _ _ _ E).
Qed.

Lemma octave_base_zero (image : Mat) :
  blur_keeps_zero_ -> all_zero image ->
  forall o base, octave_base_ o image = Ok base -> all_zero base.
Proof.
  intros Hzero Himg. induction o as [|o IH]; simpl; intros base H.
  - injection H as <-. exact Himg.
  - inv_bind H as b Eb. unfold downSample in H. inv_bind H as blurred E.
    injection H as <-. intros r c. simpl.
    apply (Hzero _ _ _ (IH _ Eb) E).
Qed.
End PyramidFacts.

(** ** The difference pyramid *)

Lemma mat_sub_Ok (a b : Mat) :
  same_size a b -> exists d, mat_sub a b = Ok d /\ difference_of a b d.
Proof.
  intros [Hr Hc]. unfold mat_sub. rewrite Hr, Hc, !Z.eqb_refl. simpl.
  eexists. split; [reflexivity |]. repeat split; simpl; congruence.
Qed.

Lemma dog_intervals_Ok (gauss_pyr : list (list Mat)) (i : Z) (oct : list Mat) :
  vec_at gauss_pyr i = Ok oct ->
  (forall a b, In a oct -> In b oct -> same_size a b) ->
  exists doct,
    for_each (counting 0 (size oct - 1)) (dog_interval gauss_pyr i) [] = Ok doct /\
    differences_of oct doct.
Proof.
  intros Hoct Hsame.
  pose (P := fun (k : Z) (acc : list Mat) =>
               size acc = k /\
               forall j, 0 <= j < k ->
                         exists a b d, vec_at oct j = Ok a /\ vec_at oct (j + 1) = Ok b /\
                                       vec_at acc j = Ok d /\ difference_of a b d).
  destruct (for_each_counting P (dog_interval gauss_pyr i) 0 (size oct - 1) [])
    as (doct & E & Hsize & Hall).
  - split; [reflexivity | intros j Hj; lia].
  - intros k acc Hk [Hsz Hacc].
    destruct (vec_at_inside oct k ltac:(lia)) as (a & Ea).
    destruct (vec_at_inside oct (k + 1) ltac:(lia)) as (b & Eb).
    destruct (mat_sub_Ok a b) as (d & Ed & Hd).
    { apply Hsame.
      - apply vec_at_Ok in Ea. eapply nth_error_In, Ea.
      - apply vec_at_Ok in Eb. eapply nth_error_In, Eb. }
    exists (acc ++ [d]). unfold dog_interval, pyr_at.
    rewrite Hoct. simpl. rewrite Ea. simpl. rewrite Eb. simpl. rewrite Ed. simpl.
    split; [reflexivity |]. split.
    + rewrite size_app. unfold size at 2. simpl. lia.
    + intros j Hj. destruct (Z.eq_dec j k) as [-> | Hne].
      * exists a, b, d. split; [exact Ea |]. split; [exact Eb |].
        split; [| exact Hd]. rewrite <- Hsz. apply vec_at_app_last.
      * destruct (Hacc j ltac:(lia)) as (a' & b' & d' & Ha' & Hb' & Hd' & Hdiff).
        exists a', b', d'. split; [exact Ha' |]. split; [exact Hb' |].
        split; [apply vec_at_app_l, Hd' | exact Hdiff].
  - exists doct. split; [exact E |]. split; [lia |].
    intros j Hj. apply Hall. lia.
Qed.

(** [buildDogPyr] on a pyramid whose octaves all have as many images as the
    first one, of one size within an octave. *)
Lemma buildDogPyr_Ok (gauss_pyr : list (list Mat)) (n : Z) :
  0 < size gauss_pyr ->
  (forall oct, In oct gauss_pyr -> size oct = n) ->
  (forall oct a b, In oct gauss_pyr -> In a oct -> In b oct -> same_size a b) ->
  exists dog_pyr,
    buildDogPyr gauss_pyr = Ok dog_pyr /\
    size dog_pyr = size gauss_pyr /\
    forall o oct, vec_at gauss_pyr o = Ok oct ->
                  exists doct, vec_at dog_pyr o = Ok doct /\ differences_of oct doct.
Proof.
  intros Hpos Hn Hsame. unfold buildDogPyr.
  destruct (vec_at_inside gauss_pyr 0 ltac:(lia)) as (first & Efirst).
  rewrite Efirst. simpl.
  assert (Hfirst : size first = n).
  { apply Hn. apply vec_at_Ok in Efirst. eapply nth_error_In, Efirst. }
  rewrite Hfirst.
  pose (P := fun (k : Z) (acc : list (list Mat)) =>
               size acc = k /\
               forall o oct, 0 <= o < k -> vec_at gauss_pyr o = Ok oct ->
                             exists doct, vec_at acc o = Ok doct /\ differences_of oct doct).
  destruct (for_each_counting P (dog_octave gauss_pyr n) 0 (size gauss_pyr) [])
    as (dog & E & Hsize & Hall).
  - split; [reflexivity | intros o oct Ho; lia].
  - intros k acc Hk [Hsz Hacc].
    destruct (vec_at_inside gauss_pyr k ltac:(lia)) as (oct & Eoct).
    assert (Hin : In oct gauss_pyr).
    { apply vec_at_Ok in Eoct. eapply nth_error_In, Eoct. }
    destruct (dog_intervals_Ok gauss_pyr k oct Eoct) as (doct & Ed & Hd).
    { intros a b. apply Hsame, Hin. }
    rewrite (Hn oct Hin) in Ed.
    exists (acc ++ [doct]). unfold dog_octave. rewrite Ed. simpl.
    split; [reflexivity |]. split.
    + rewrite size_app. unfold size at 2. simpl. lia.
    + intros o oct' Ho Eo. destruct (Z.eq_dec o k) as [-> | Hne].
      * rewrite Eoct in Eo. injection Eo as <-.
        exists doct. split; [| exact Hd]. rewrite <- Hsz. apply vec_at_app_last.
      * destruct (Hacc o oct' ltac:(lia) Eo) as (doct' & Ed' & Hd').
        exists doct'. split; [apply vec_at_app_l, Ed' | exact Hd'].
  - exists dog. split; [exact E |]. split; [lia |].
    intros o oct Eo. apply Hall; [| exact Eo].
    apply vec_at_size in Eo. lia.
Qed.

(** ** Pyramid and difference pyramid together *)

Section PyramidClaims.
Variable GaussianBlur : Mat -> double -> res Mat.
Variables SIFT_INIT_SIGMA SIFT_STEP_SIGMA INTERPOLATION_SIGMA : double.

Local Notation downSample_ := (downSample GaussianBlur INTERPOLATION_SIGMA).
Local Notation buildGaussianPyramid_ :=
  (buildGaussianPyramid GaussianBlur SIFT_INIT_SIGMA SIFT_STEP_SIGMA INTERPOLATION_SIGMA).
Local Notation octave_base_ := (octave_base GaussianBlur INTERPOLATION_SIGMA).
Local Notation octave_from_ := (octave_from GaussianBlur).
Local Notation blur_keeps_size_ := (blur_keeps_size GaussianBlur).

Lemma pyramid_shape (image : Mat) (pyr : list (list Mat)) (nOctaves nIntervals : Z) :
  buildGaussianPyramid_ image [] nOctaves nIntervals = Ok pyr ->
  List.length pyr = Z.to_nat nOctaves /\
  forall o oct, vec_at pyr o = Ok oct ->
                exists base, octave_base_ (Z.to_nat o) image = Ok base /\
                             octave_from_ base nIntervals oct.
Proof.
  intros H. apply buildGaussianPyramid_built in H.
  destruct H as (t & octs & Hl & Hlen & _ & Hocts). simpl in Hl. subst octs.
  split; [lia |].
  intros o oct Ho. apply vec_at_Ok in Ho. destruct Ho as [_ Ho]. eauto.
Qed.

Lemma pyramid_octave_uniform (image : Mat) (pyr : list (list Mat))
      (nOctaves nIntervals : Z) :
  blur_keeps_size_ ->
  buildGaussianPyramid_ image [] nOctaves nIntervals = Ok pyr ->
  forall oct, In oct pyr ->
              List.length oct = Z.to_nat (nIntervals + 3) /\
              forall a b, In a oct -> In b oct -> same_size a b.
Proof.
  intros Hsize Hpyr oct Hin.
  destruct (pyramid_shape _ _ _ _ Hpyr) as [Hlen Hocts].
  apply In_nth_error in Hin. destruct Hin as (o & Ho).
  destruct (Hocts (Z.of_nat o) oct) as (base & _ & Hfrom).
  { apply vec_at_Ok. rewrite Nat2Z.id. split; [lia | exact Ho]. }
  split; [apply Hfrom |].
  intros a b Ha Hb.
  destruct (octave_from_size _ _ _ _ Hsize Hfrom a Ha) as [? ?].
  destruct (octave_from_size _ _ _ _ Hsize Hfrom b Hb) as [? ?].
  split; congruence.
Qed.

Lemma pyramid_all_zero (image : Mat) (pyr : list (list Mat)) (nOctaves nIntervals : Z) :
  blur_keeps_zero GaussianBlur -> all_zero image ->
  buildGaussianPyramid_ image [] nOctaves nIntervals = Ok pyr ->
  forall oct m, In oct pyr -> In m oct -> all_zero m.
Proof.
  intros Hzero Himg Hpyr oct m Hin Hm.
  destruct (pyramid_shape _ _ _ _ Hpyr) as [Hlen Hocts].
  apply In_nth_error in Hin. destruct Hin as (o & Ho).
  destruct (Hocts (Z.of_nat o) oct) as (base & Hbase & _ & Hall).
  { apply vec_at_Ok. rewrite Nat2Z.id. split; [lia | exact Ho]. }
  rewrite Forall_forall in Hall. destruct (Hall m Hm) as (sigma & E).
  apply (Hzero _ _ _ (octave_base_zero _ _ image Hzero Himg _ _ Hbase) E).
Qed.

(** C4, as the code has it: [buildGaussianPyramid] checks neither
    [nIntervals] nor the size of the image.  Whatever [nOctaves] and
    [nIntervals] are, a run that fails fails with the fault or the exception
    of one of its [GaussianBlur] calls, and any other run returns the vector
    it was given followed by [nOctaves] octaves of [nIntervals + 3] images
    each (none when the number is negative); where [GaussianBlur] accepts
    every image, every run returns. *)
Theorem buildGaussianPyramid_unchecked
        (image : Mat) (gauss_pyr : list (list Mat)) (nOctaves nIntervals : Z) :
  match buildGaussianPyramid_ image gauss_pyr nOctaves nIntervals with
  | Ok pyr =>
      exists octs, pyr = gauss_pyr ++ octs /\
                   List.length octs = Z.to_nat nOctaves /\
                   Forall (fun oct => List.length oct = Z.to_nat (nIntervals + 3)) octs
  | Undefined f => exists m sigma, GaussianBlur m sigma = Undefined f
  | Thrown msg => exists m sigma, GaussianBlur m sigma = Thrown msg
  end /\
  ((forall m sigma, exists m', GaussianBlur m sigma = Ok m') ->
   exists pyr, buildGaussianPyramid_ image gauss_pyr nOctaves nIntervals = Ok pyr).
Proof.
  split; [| intros Htot; now apply buildGaussianPyramid_total].
  destruct (buildGaussianPyramid_ image gauss_pyr nOctaves nIntervals) as [pyr|f|msg] eqn:E.
  - apply buildGaussianPyramid_built in E.
    destruct E as (t & octs & Hl & Hlen & _ & Hocts). simpl in Hl.
    exists octs. split; [exact Hl |]. split; [lia |].
    apply Forall_forall. intros oct Hin.
    apply In_nth_error in Hin. destruct Hin as (o & Ho).
    destruct (Hocts o oct Ho) as (base & _ & Hlen' & _). exact Hlen'.
  - eapply buildGaussianPyramid_Undefined, E.
  - eapply buildGaussianPyramid_Thrown, E.
Qed.

(** C5: the difference pyramid of a pyramid of [nOctaves] octaves and
    [nIntervals] intervals is built without a fault, has [nOctaves] octaves
    of [nIntervals + 2] images each; image [j] of an octave is image [j]
    minus image [j + 1] of the same octave of the pyramid, pixel by pixel,
    and has the size of every image of that octave. *)
Theorem buildDogPyr_of_pyramid
        (image : Mat) (pyr : list (list Mat)) (nOctaves nIntervals : Z) :
  blur_keeps_size_ ->
  1 <= nOctaves -> -2 <= nIntervals ->
  buildGaussianPyramid_ image [] nOctaves nIntervals = Ok pyr ->
  exists dog_pyr,
    buildDogPyr pyr = Ok dog_pyr /\
    size dog_pyr = nOctaves /\
    forall o, 0 <= o < nOctaves ->
      exists oct doct,
        vec_at pyr o = Ok oct /\ vec_at dog_pyr o = Ok doct /\
        size oct = nIntervals + 3 /\ size doct = nIntervals + 2 /\
        (forall j, 0 <= j < nIntervals + 2 ->
           exists a b d, vec_at oct j = Ok a /\ vec_at oct (j + 1) = Ok b /\
                         vec_at doct j = Ok d /\
                         rows d = rows a /\ cols d = cols a /\
                         forall r c, px d r c = F32.sub (px a r c) (px b r c)) /\
        (forall d m, In d doct -> In m oct -> same_size d m).
Proof.
  intros Hsize HO HI Hpyr.
  destruct (pyramid_shape _ _ _ _ Hpyr) as [Hlen Hocts].
  assert (Hoct : forall oct, In oct pyr ->
                   size oct = nIntervals + 3 /\
                   forall a b, In a oct -> In b oct -> same_size a b).
  { intros oct Hin.
    destruct (pyramid_octave_uniform _ _ _ _ Hsize Hpyr oct Hin) as [Hl Hs].
    split; [unfold size; lia | exact Hs]. }
  destruct (buildDogPyr_Ok pyr (nIntervals + 3)) as (dog & E & Hsz & Hdog).
  - unfold size. lia.
  - intros oct Hin. apply Hoct, Hin.
  - intros oct a b Hin. apply Hoct, Hin.
  - exists dog. split; [exact E |]. split; [unfold size in *; lia |].
    intros o Ho.
    destruct (vec_at_inside pyr o ltac:(unfold size; lia)) as (oct & Eoct).
    destruct (Hdog o oct Eoct) as (doct & Edoct & Hd1 & Hd2).
    assert (Hin : In oct pyr).
    { apply vec_at_Ok in Eoct. eapply nth_error_In, Eoct. }
    destruct (Hoct oct Hin) as [Hso Hsame].
    exists oct, doct. split; [exact Eoct |]. split; [exact Edoct |].
    split; [exact Hso |]. split; [lia |]. split.
    + intros j Hj. destruct (Hd2 j ltac:(lia)) as (a & b & d & Ha & Hb & Hd & Hr & Hc & Hpx).
      exists a, b, d. auto 10.
    + intros d m Hd Hm. apply In_nth_error in Hd. destruct Hd as (j & Hj).
      assert (Hjlt : (j < List.length doct)%nat) by (apply nth_error_Some; congruence).
      destruct (Hd2 (Z.of_nat j)) as (a & b & d' & Ha & _ & Hd' & Hr & Hc & _).
      { unfold size in *. lia. }
      apply vec_at_Ok in Hd'. rewrite Nat2Z.id in Hd'. destruct Hd' as [_ Hd'].
      assert (d' = d) by congruence. subst d'.
      assert (Hina : In a oct).
      { apply vec_at_Ok in Ha. eapply nth_error_In, Ha. }
      destruct (Hsame a m Hina Hm) as [? ?]. split; congruence.
Qed.

(** C6: in a pyramid, the images of octave [o + 1] have half the rows and
    half the columns, rounded down, of the images of octave [o]; the image
    that octave [o + 1] is blurred from is [downSample] of the one octave [o]
    is blurred from, which is that image blurred with [INTERPOLATION_SIGMA],
    then every second column of the result, then every second row of
    that. *)
Theorem pyramid_octave_halves
        (image : Mat) (pyr : list (list Mat)) (nOctaves nIntervals : Z) :
  blur_keeps_size_ ->
  0 <= rows image -> 0 <= cols image ->
  buildGaussianPyramid_ image [] nOctaves nIntervals = Ok pyr ->
  forall o, 0 <= o -> o + 1 < nOctaves ->
    exists base base' blurred,
      octave_base_ (Z.to_nat o) image = Ok base /\
      octave_base_ (Z.to_nat (o + 1)) image = Ok base' /\
      downSample_ base = Ok base' /\
      GaussianBlur base INTERPOLATION_SIGMA = Ok blurred /\
      rows base' = rows (every_second_row (every_second_column blurred)) /\
      cols base' = cols (every_second_row (every_second_column blurred)) /\
      (forall r c, px base' r c = px (every_second_row (every_second_column blurred)) r c) /\
      rows base' = rows base / 2 /\ cols base' = cols base / 2 /\
      (forall j j' a b, pyr_at pyr o j = Ok a -> pyr_at pyr (o + 1) j' = Ok b ->
                        same_size a base /\ same_size b base' /\
                        rows b = rows a / 2 /\ cols b = cols a / 2).
Proof.
  intros Hsize Hr Hc Hpyr o Ho Ho1.
  destruct (pyramid_shape _ _ _ _ Hpyr) as [Hlen Hocts].
  destruct (vec_at_inside pyr o ltac:(unfold size; lia)) as (oct & Eoct).
  destruct (vec_at_inside pyr (o + 1) ltac:(unfold size; lia)) as (oct' & Eoct').
  destruct (Hocts _ _ Eoct) as (base & Hbase & Hfrom).
  destruct (Hocts _ _ Eoct') as (base' & Hbase' & Hfrom').
  pose proof Hbase' as Hds.
  replace (Z.to_nat (o + 1)) with (S (Z.to_nat o)) in Hds by lia.
  simpl in Hds. rewrite Hbase in Hds. simpl in Hds.
  destruct (octave_base_nonneg _ _ image Hsize Hr Hc _ _ Hbase) as [Hrb Hcb].
  destruct (downSample_Ok _ _ _ _ Hsize Hrb Hcb Hds)
    as (blurred & Eb & Hr' & Hc' & Hr2 & Hc2 & Hpx).
  exists base, base', blurred.
  repeat (split; [assumption |]).
  intros j j' a b Ha Hb. unfold pyr_at in Ha, Hb.
  rewrite Eoct in Ha. rewrite Eoct' in Hb. simpl in Ha, Hb.
  apply vec_at_Ok in Ha, Hb. destruct Ha as [_ Ha], Hb as [_ Hb].
  apply nth_error_In in Ha, Hb.
  pose proof (octave_from_size _ _ _ _ Hsize Hfrom a Ha) as Sa.
  pose proof (octave_from_size _ _ _ _ Hsize Hfrom' b Hb) as Sb.
  split; [exact Sa |]. split; [exact Sb |].
  destruct Sa as [-> ->], Sb as [-> ->]. auto.
Qed.

End PyramidClaims.

(** ** Extrema of an image of zeros *)

Lemma sub_zero (a b : float) :
  is_zero a = true -> is_zero b = true -> is_zero (F32.sub a b) = true.
Proof.
  destruct a as [sa| | |], b as [sb| | |]; simpl; try discriminate.
  intros _ _. destruct sa, sb; reflexivity.
Qed.

Lemma zero_not_positive (v : float) : is_zero v = true -> F32.gt v (F32.of_Z 0) = false.
Proof. destruct v; simpl; try discriminate. reflexivity. Qed.

Lemma zero_ge_zero (v w : float) :
  is_zero v = true -> is_zero w = true -> F32.ge v w = true.
Proof. destruct v, w; simpl; try discriminate. reflexivity. Qed.

(** A zero centre with a zero at its first neighbour (interval below, row
    above, column to the left) is no extremum: the first comparison of the
    scan already ties. *)
Lemma isExtrema_zero (dog_pyr : list (list Mat)) (octave interval r c : Z) (m m' : Mat) :
  pyr_at dog_pyr octave interval = Ok m ->
  pyr_at dog_pyr octave (interval + -1) = Ok m' ->
  0 <= r + -1 -> r < rows m -> r < rows m' + 1 ->
  0 <= c + -1 -> c < cols m -> c < cols m' + 1 ->
  is_zero (px m r c) = true ->
  is_zero (px m' (r + -1) (c + -1)) = true ->
  isExtrema dog_pyr octave interval r c = Ok false.
Proof.
  intros Em Em' Hr0 Hr Hr' Hc0 Hc Hc' Hz Hz'.
  unfold isExtrema. rewrite Em. cbn [bind].
  rewrite at_inside by lia. cbn [bind].
  rewrite (zero_not_positive _ Hz).
  unfold scan_block. cbn [for_return].
  rewrite Em'. cbn [bind]. rewrite at_inside by lia. cbn [bind].
  rewrite (zero_ge_zero _ _ Hz Hz'). reflexivity.
Qed.

Section DetectorFacts.
Variable SIFT_IMG_BORDER : Z.
Variables SIFT_CONTR_THR SIFT_DETER_THR : float.

Local Notation scan_pixel_ := (scan_pixel SIFT_CONTR_THR SIFT_DETER_THR).
Local Notation scan_interval_ :=
  (scan_interval SIFT_IMG_BORDER SIFT_CONTR_THR SIFT_DETER_THR).
Local Notation getScaleSpaceExtrema_ :=
  (getScaleSpaceExtrema SIFT_IMG_BORDER SIFT_CONTR_THR SIFT_DETER_THR).

(** The scan of one interval of an octave of zero images of one size finds
    nothing. *)
Lemma scan_interval_zero (dog_pyr : list (list Mat)) (oct : list Mat)
      (keypoints : list KeyPoint) (curv_thr i j : Z) :
  1 <= SIFT_IMG_BORDER ->
  vec_at dog_pyr i = Ok oct ->
  1 <= j < size oct ->
  (forall a b, In a oct -> In b oct -> same_size a b) ->
  (forall m, In m oct -> all_zero m) ->
  scan_interval_ dog_pyr curv_thr i j keypoints = Ok keypoints.
Proof.
  intros HB Eoct Hj Hsame Hzero.
  pose (P := fun (_ : Z) (kps : list KeyPoint) => kps = keypoints).
  unfold scan_interval, pyr_at. rewrite Eoct. cbn [bind].
  destruct (vec_at_inside oct 0 ltac:(lia)) as (m0 & E0). rewrite E0. cbn [bind].
  destruct (vec_at_inside oct j ltac:(lia)) as (m & Em).
  destruct (vec_at_inside oct (j + -1) ltac:(lia)) as (m' & Em').
  assert (In m0 oct /\ In m oct /\ In m' oct) as (Hin0 & Hinm & Hinm').
  { apply vec_at_Ok in E0, Em, Em'.
    repeat split; eapply nth_error_In; [apply E0 | apply Em | apply Em']. }
  destruct (Hsame m m0 Hinm Hin0) as [Hr Hc].
  destruct (Hsame m' m0 Hinm' Hin0) as [Hr' Hc'].
  destruct (for_each_counting P
              (fun r kps =>
                 for_each (counting SIFT_IMG_BORDER (cols m0 - SIFT_IMG_BORDER))
                          (scan_pixel_ dog_pyr curv_thr i j r) kps)
              SIFT_IMG_BORDER (rows m0 - SIFT_IMG_BORDER)
              keypoints eq_refl) as (s' & E & ->); [| exact E].
  intros r kps Hrr ->.
  apply (for_each_counting P _ SIFT_IMG_BORDER (cols m0 - SIFT_IMG_BORDER)
           keypoints eq_refl).
  intros c kps Hcc ->. exists keypoints. split; [| reflexivity].
  unfold scan_pixel.
  rewrite (isExtrema_zero dog_pyr i j r c m m'); try lia.
  - reflexivity.
  - unfold pyr_at. rewrite Eoct. exact Em.
  - unfold pyr_at. rewrite Eoct. exact Em'.
  - apply (Hzero m Hinm).
  - apply (Hzero m' Hinm').
Qed.

(** The scan of a pyramid of zero images, all octaves with [n] images of one
    size each, finds nothing. *)
Lemma getScaleSpaceExtrema_zero (dog_pyr : list (list Mat)) (n : Z)
      (keypoints : list KeyPoint) (curv_thr : Z) :
  1 <= SIFT_IMG_BORDER ->
  0 < size dog_pyr ->
  (forall oct, In oct dog_pyr -> size oct = n) ->
  (forall oct a b, In oct dog_pyr -> In a oct -> In b oct -> same_size a b) ->
  (forall oct m, In oct dog_pyr -> In m oct -> all_zero m) ->
  getScaleSpaceExtrema_ dog_pyr keypoints curv_thr = Ok keypoints.
Proof.
  intros HB Hpos Hn Hsame Hzero. unfold getScaleSpaceExtrema.
  destruct (vec_at_inside dog_pyr 0 ltac:(lia)) as (first & Efirst).
  rewrite Efirst. cbn [bind].
  assert (Hfirst : size first = n).
  { apply Hn. apply vec_at_Ok in Efirst. eapply nth_error_In, Efirst. }
  rewrite Hfirst.
  pose (P := fun (_ : Z) (kps : list KeyPoint) => kps = keypoints).
  destruct (for_each_counting P
              (fun i kps => for_each (counting 1 (n - 2 + 1))
                                     (scan_interval_ dog_pyr curv_thr i) kps)
              0 (size dog_pyr) keypoints eq_refl) as (s' & E & ->);
    [| exact E].
  intros i kps Hi ->.
  destruct (vec_at_inside dog_pyr i ltac:(lia)) as (oct & Eoct).
  assert (Hin : In oct dog_pyr).
  { apply vec_at_Ok in Eoct. eapply nth_error_In, Eoct. }
  pose proof (Hn oct Hin) as Hsz.
  apply (for_each_counting P (scan_interval_ dog_pyr curv_thr i) 1 (n - 2 + 1)
           keypoints eq_refl).
  intros j kps Hj ->. exists keypoints. split; [| reflexivity].
  apply (scan_interval_zero dog_pyr oct); auto; try lia.
  - intros a b. apply Hsame, Hin.
  - intros m. apply Hzero, Hin.
Qed.

(** Every keypoint the detector appends has the angle [-1]. *)
Lemma getScaleSpaceExtrema_angles (dog_pyr : list (list Mat))
      (keypoints keypoints' : list KeyPoint) (curv_thr : Z) :
  getScaleSpaceExtrema_ dog_pyr keypoints curv_thr = Ok keypoints' ->
  exists new, keypoints' = keypoints ++ new /\
              Forall (fun kp => kp_angle kp = -1) new.
Proof.
  pose (P := fun (_ : Z) (kps : list KeyPoint) =>
               exists new, kps = keypoints ++ new /\
                           Forall (fun kp => kp_angle kp = -1) new).
  assert (P0 : P 0 keypoints).
  { exists []. rewrite app_nil_r. auto. }
  assert (Hloop : forall (body : Z -> list KeyPoint -> res (list KeyPoint)) lo hi s s',
             (forall k s s', P 0 s -> body k s = Ok s' -> P 0 s') ->
             P 0 s -> for_each (counting lo hi) body s = Ok s' -> P 0 s').
  { intros body lo hi s s' Hbody Hs Hrun.
    apply (for_each_counting_Ok (fun _ => P 0) body lo hi s s' Hrun Hs).
    intros k s1 s2 _. apply Hbody. }
  unfold getScaleSpaceExtrema. intros H. inv_bind H.
  revert H. apply Hloop; [| exact P0].
  intros i s s'. apply Hloop.
  intros j s1 s1' Hs1 H1. unfold scan_interval in H1. inv_bind H1.
  revert H1. apply Hloop; [| exact Hs1].
  intros r s2 s2'. apply Hloop.
  intros c s3 s3' (new & -> & Hnew) H3. unfold scan_pixel in H3.
  inv_bind H3 as [|] Ee.
  - inv_bind H3 as image Ei. inv_bind H3 as [|] Eg; injection H3 as <-.
    + exists (new ++ [{| kp_x := c; kp_y := r; kp_size := j; kp_angle := -1;
                         kp_response := 0; kp_octave := i |}]).
      rewrite app_assoc. split; [reflexivity |].
      apply Forall_app. split; [exact Hnew |]. constructor; [reflexivity | constructor].
    + exists new. auto.
  - injection H3 as <-. exists new. auto.
Qed.
End DetectorFacts.

Lemma differences_zero (oct doct : list Mat) :
  differences_of oct doct ->
  (forall a b, In a oct -> In b oct -> same_size a b) ->
  (forall m, In m oct -> all_zero m) ->
  (forall d, In d doct -> all_zero d) /\
  (forall d d', In d doct -> In d' doct -> same_size d d').
Proof.
  intros [Hsz Hd] Hsame Hzero.
  assert (Hone : forall d, In d doct ->
            exists a b, In a oct /\ In b oct /\ difference_of a b d).
  { intros d Hin. apply In_nth_error in Hin. destruct Hin as (j & Hj).
    assert (Hjlt : (j < List.length doct)%nat) by (apply nth_error_Some; congruence).
    destruct (Hd (Z.of_nat j)) as (a & b & d' & Ha & Hb & Hd' & Hdiff).
    { unfold size in *. lia. }
    apply vec_at_Ok in Hd'. rewrite Nat2Z.id in Hd'. destruct Hd' as [_ Hd'].
    assert (d' = d) by congruence. subst d'.
    apply vec_at_Ok in Ha, Hb. exists a, b.
    split; [eapply nth_error_In, Ha |]. split; [eapply nth_error_In, Hb | exact Hdiff]. }
  split.
  - intros d Hin. destruct (Hone d Hin) as (a & b & Ha & Hb & _ & _ & Hpx).
    intros r c. rewrite Hpx. apply sub_zero; [apply (Hzero a Ha) | apply (Hzero b Hb)].
  - intros d d' Hin Hin'.
    destruct (Hone d Hin) as (a & b & Ha & _ & Hr & Hc & _).
    destruct (Hone d' Hin') as (a' & b' & Ha' & _ & Hr' & Hc' & _).
    destruct (Hsame a a' Ha Ha') as [? ?]. split; congruence.
Qed.

Section PipelineClaims.
Variable GaussianBlur : Mat -> double -> res Mat.
Variables SIFT_INIT_SIGMA SIFT_STEP_SIGMA INTERPOLATION_SIGMA : double.
Variable SIFT_IMG_BORDER : Z.
Variables SIFT_CONTR_THR SIFT_DETER_THR : float.

Local Notation buildGaussianPyramid_ :=
  (buildGaussianPyramid GaussianBlur SIFT_INIT_SIGMA SIFT_STEP_SIGMA INTERPOLATION_SIGMA).
Local Notation scan_interval_ :=
  (scan_interval SIFT_IMG_BORDER SIFT_CONTR_THR SIFT_DETER_THR).
Local Notation getScaleSpaceExtrema_ :=
  (getScaleSpaceExtrema SIFT_IMG_BORDER SIFT_CONTR_THR SIFT_DETER_THR).

(** C9: from an image of zeros, the difference pyramid is built, all its
    images are images of zeros, and the detector appends no keypoint: none
    at any octave and interval it scans, and none in the whole run. *)
Theorem zero_image_no_extrema
        (image : Mat) (pyr : list (list Mat)) (nOctaves nIntervals curv_thr : Z)
        (keypoints : list KeyPoint) :
  blur_keeps_size GaussianBlur ->
  blur_keeps_zero GaussianBlur ->
  1 <= SIFT_IMG_BORDER ->
  all_zero image ->
  1 <= nOctaves -> -2 <= nIntervals ->
  buildGaussianPyramid_ image [] nOctaves nIntervals = Ok pyr ->
  exists dog_pyr,
    buildDogPyr pyr = Ok dog_pyr /\
    (forall o j m, pyr_at dog_pyr o j = Ok m -> all_zero m) /\
    (forall i j, 0 <= i < nOctaves -> 1 <= j <= nIntervals ->
                 scan_interval_ dog_pyr curv_thr i j keypoints = Ok keypoints) /\
    getScaleSpaceExtrema_ dog_pyr keypoints curv_thr = Ok keypoints.
Proof.
  intros Hsize Hzero HB Himg HO HI Hpyr.
  pose proof (pyramid_octave_uniform _ _ _ _ _ _ _ _ Hsize Hpyr) as Huni.
  pose proof (pyramid_all_zero _ _ _ _ _ _ _ _ Hzero Himg Hpyr) as Hz.
  destruct (pyramid_shape _ _ _ _ _ _ _ _ Hpyr) as [Hlen _].
  destruct (buildDogPyr_Ok pyr (nIntervals + 3)) as (dog & E & Hsz & Hdog).
  { unfold size. lia. }
  { intros oct Hin. destruct (Huni oct Hin) as [Hl _]. unfold size. lia. }
  { intros oct a b Hin. apply (Huni oct Hin). }
  assert (Hoct : forall doct, In doct dog ->
            size doct = nIntervals + 2 /\
            (forall d, In d doct -> all_zero d) /\
            (forall d d', In d doct -> In d' doct -> same_size d d')).
  { intros doct Hin. apply In_nth_error in Hin. destruct Hin as (o & Ho).
    assert (Holt : (o < List.length dog)%nat) by (apply nth_error_Some; congruence).
    destruct (vec_at_inside pyr (Z.of_nat o) ltac:(unfold size in *; lia)) as (oct & Eoct).
    destruct (Hdog _ _ Eoct) as (doct' & Ed & Hdiff).
    apply vec_at_Ok in Ed. rewrite Nat2Z.id in Ed. destruct Ed as [_ Ed].
    assert (doct' = doct) by congruence. subst doct'.
    assert (Hino : In oct pyr).
    { apply vec_at_Ok in Eoct. eapply nth_error_In, Eoct. }
    destruct (Huni oct Hino) as [Hl Hs].
    split; [destruct Hdiff as [Hd _]; unfold size in *; lia |].
    apply (differences_zero oct doct Hdiff Hs). intros m. apply (Hz oct m Hino). }
  exists dog. split; [exact E |]. split; [| split].
  - intros o j m Hm. unfold pyr_at in Hm. inv_bind Hm as doct Ed.
    apply vec_at_Ok in Ed, Hm. destruct Ed as [_ Ed], Hm as [_ Hm].
    apply nth_error_In in Ed, Hm. apply (Hoct doct Ed), Hm.
  - intros i j Hi Hj.
    destruct (vec_at_inside dog i ltac:(unfold size in *; lia)) as (doct & Ed).
    assert (Hin : In doct dog).
    { apply vec_at_Ok in Ed. eapply nth_error_In, Ed. }
    destruct (Hoct doct Hin) as (Hs & Hzd & Hsd).
    apply (scan_interval_zero _ _ _ dog doct); auto. lia.
  - apply (getScaleSpaceExtrema_zero _ _ _ dog (nIntervals + 2)); auto.
    + unfold size in *. lia.
    + intros doct Hin. apply (Hoct doct Hin).
    + intros doct a b Hin. apply (Hoct doct Hin).
    + intros doct m Hin. apply (Hoct doct Hin).
Qed.
End PipelineClaims.

(** ** What [isExtrema] compares *)

Lemma for_return_test (l : list Z) (test : Z -> bool) (body : Z -> res (option bool)) :
  (forall i, In i l -> body i = Ok (if test i then Some false else None)) ->
  for_return l body = Ok (if existsb test l then Some false else None).
Proof.
  induction l as [|i l IH]; intros H; [reflexivity |].
  cbn [for_return existsb]. rewrite (H i (or_introl eq_refl)). cbn [bind].
  destruct (test i); [reflexivity |]. apply IH. intros i' Hi'. apply H. now right.
Qed.

Lemma scan_block_test (cmp : float -> float -> bool) (dog_pyr : list (list Mat))
      (octave interval r c : Z) (intensity : float) (M : Z -> Mat) :
  (forall i, In i [-1; 0; 1] ->
             pyr_at dog_pyr octave (interval + i) = Ok (M i) /\
             1 <= r /\ r + 1 < rows (M i) /\ 1 <= c /\ c + 1 < cols (M i)) ->
  scan_block cmp dog_pyr octave interval r c intensity
  = Ok (if block_test cmp M r c intensity then Some false else None).
Proof.
  intros HM. unfold scan_block, block_test.
  apply for_return_test. intros i Hi.
  apply for_return_test. intros j Hj.
  apply for_return_test. intros k Hk.
  destruct (HM i Hi) as (-> & Hr & Hr' & Hc & Hc'). cbn [bind].
  assert (-1 <= j <= 1 /\ -1 <= k <= 1) as [Hj' Hk'] by (simpl in Hj, Hk; lia).
  rewrite at_inside by lia. cbn [bind].
  destruct (cmp intensity (px (M i) (r + j) (c + k)) && (negb (j =? 0) || negb (k =? 0)));
    reflexivity.
Qed.

Lemma block_test_false (cmp : float -> float -> bool) (M : Z -> Mat) (r c : Z)
      (intensity : float) :
  block_test cmp M r c intensity = false <->
  forall i j k, In i [-1; 0; 1] -> In j [-1; 0; 1] -> In k [-1; 0; 1] ->
                j <> 0 \/ k <> 0 ->
                cmp intensity (px (M i) (r + j) (c + k)) = false.
Proof.
  unfold block_test. split.
  - intros H i j k Hi Hj Hk Hjk.
    destruct (cmp intensity (px (M i) (r + j) (c + k))) eqn:E; [| reflexivity].
    rewrite <- H. symmetry.
    apply existsb_exists. exists i. split; [exact Hi |].
    apply existsb_exists. exists j. split; [exact Hj |].
    apply existsb_exists. exists k. split; [exact Hk |].
    rewrite E. cbn [andb].
    destruct (Z.eqb_spec j 0), (Z.eqb_spec k 0); try reflexivity. lia.
  - intros H. apply not_true_is_false. intros Hex.
    apply existsb_exists in Hex. destruct Hex as (i & Hi & Hex).
    apply existsb_exists in Hex. destruct Hex as (j & Hj & Hex).
    apply existsb_exists in Hex. destruct Hex as (k & Hk & Hex).
    apply andb_true_iff in Hex. destruct Hex as [Hcmp Hjk].
    rewrite (H i j k Hi Hj Hk) in Hcmp; [discriminate |].
    destruct (Z.eqb_spec j 0), (Z.eqb_spec k 0); auto; discriminate.
Qed.

(** [isExtrema] on a block that lies inside the three images: a positive
    centre is an extremum exactly when it is not [<=] any of the 24 pixels of
    the block off the centre column [(j, k) = (0, 0)], any other centre when
    it is not [>=] any of them.  The pixels of the centre column in the
    intervals below and above are read and not compared. *)
Lemma isExtrema_compares_24 (dog_pyr : list (list Mat)) (octave interval r c : Z)
      (M : Z -> Mat) :
  (forall i, In i [-1; 0; 1] ->
             pyr_at dog_pyr octave (interval + i) = Ok (M i) /\
             1 <= r /\ r + 1 < rows (M i) /\ 1 <= c /\ c + 1 < cols (M i)) ->
  let intensity := px (M 0) r c in
  exists b,
    isExtrema dog_pyr octave interval r c = Ok b /\
    (b = true <->
     forall i j k, In i [-1; 0; 1] -> In j [-1; 0; 1] -> In k [-1; 0; 1] ->
                   j <> 0 \/ k <> 0 ->
                   (if F32.gt intensity (F32.of_Z 0)
                    then F32.le intensity (px (M i) (r + j) (c + k))
                    else F32.ge intensity (px (M i) (r + j) (c + k))) = false).
Proof.
  intros HM intensity.
  destruct (HM 0 ltac:(simpl; auto)) as (E0 & Hr & Hr' & Hc & Hc').
  rewrite Z.add_0_r in E0.
  unfold isExtrema. rewrite E0. cbn [bind]. rewrite at_inside by lia. cbn [bind].
  fold intensity.
  destruct (F32.gt intensity (F32.of_Z 0)).
  - rewrite (scan_block_test _ _ _ _ _ _ _ M HM). cbn [bind].
    destruct (block_test F32.le M r c intensity) eqn:Eb;
      eexists; (split; [reflexivity |]).
    + split; [discriminate |]. intros H. apply block_test_false in H. congruence.
    + split; [intros _; now apply block_test_false | reflexivity].
  - rewrite (scan_block_test _ _ _ _ _ _ _ M HM). cbn [bind].
    destruct (block_test F32.ge M r c intensity) eqn:Eb;
      eexists; (split; [reflexivity |]).
    + split; [discriminate |]. intros H. apply block_test_false in H. congruence.
    + split; [intros _; now apply block_test_false | reflexivity].
Qed.

(** C1, at inputs where the code leaves the claim: for every border
    [B >= 1] the centre of the middle image of [dog_spikes B] is a pixel the
    detector scans, its value 1 is positive, and [isExtrema] reports it as an
    extremum although its neighbour at the same row and column of the next
    interval is 2.  The guard [(j != 0 || k != 0)] of the scan skips the
    centre column of all three intervals, not the centre alone. *)
Theorem isExtrema_skips_scale_neighbours (B : Z) :
  1 <= B ->
  (forall m0, pyr_at (dog_spikes B) 0 0 = Ok m0 ->
              counting B (rows m0 - B) = [B] /\ counting B (cols m0 - B) = [B]) /\
  (m <- pyr_at (dog_spikes B) 0 1 ;; at_ m B B) = Ok (F32.of_Z 1) /\
  F32.gt (F32.of_Z 1) (F32.of_Z 0) = true /\
  (m <- pyr_at (dog_spikes B) 0 (1 + 1) ;; at_ m (B + 0) (B + 0)) = Ok (F32.of_Z 2) /\
  F32.gt (F32.of_Z 1) (F32.of_Z 2) = false /\
  isExtrema (dog_spikes B) 0 1 B B = Ok true.
Proof.
  intros HB.
  assert (Hone : counting B (2 * B + 1 - B) = [B]).
  { rewrite counting_cons by lia. now rewrite counting_nil by lia. }
  split; [| split; [| split; [| split; [| split]]]].
  - intros m0 [= <-]. cbn [rows cols constant_mat]. auto.
  - change (pyr_at (dog_spikes B) 0 1)
      with (Ok (spike_at (2 * B + 1) (2 * B + 1) B B (F32.of_Z 1))).
    cbn [bind]. rewrite at_inside by (cbn [rows cols spike_at]; lia).
    cbn [px spike_at]. now rewrite Z.eqb_refl.
  - reflexivity.
  - change (pyr_at (dog_spikes B) 0 (1 + 1))
      with (Ok (spike_at (2 * B + 1) (2 * B + 1) B B (F32.of_Z 2))).
    cbn [bind]. rewrite at_inside by (cbn [rows cols spike_at]; lia).
    cbn [px spike_at]. now rewrite !Z.add_0_r, Z.eqb_refl.
  - reflexivity.
  - pose (M := fun i : Z =>
                 if i =? -1 then constant_mat (2 * B + 1) (2 * B + 1) F32.zero
                 else if i =? 0 then spike_at (2 * B + 1) (2 * B + 1) B B (F32.of_Z 1)
                      else spike_at (2 * B + 1) (2 * B + 1) B B (F32.of_Z 2)).
    destruct (isExtrema_compares_24 (dog_spikes B) 0 1 B B M) as (b & -> & Hb).
    + intros i [<- | [<- | [<- | []]]];
        (split; [reflexivity | unfold M; cbn [rows cols spike_at constant_mat Z.eqb Pos.eqb]; lia]).
    + f_equal. apply Hb. clear Hb.
      assert (Hc : px (M 0) B B = F32.of_Z 1).
      { unfold M. cbn [Z.eqb Pos.eqb px spike_at]. now rewrite Z.eqb_refl. }
      rewrite Hc. change (F32.gt (F32.of_Z 1) (F32.of_Z 0)) with true.
      assert (Hz : forall i j k, In i [-1; 0; 1] -> j <> 0 \/ k <> 0 ->
                                 px (M i) (B + j) (B + k) = F32.zero).
      { intros i j k [<- | [<- | [<- | []]]] Hjk;
          unfold M; cbn [Z.eqb Pos.eqb px spike_at constant_mat]; try reflexivity;
          destruct (Z.eqb_spec (B + j) B), (Z.eqb_spec (B + k) B);
          try reflexivity; lia. }
      intros i j k Hi _ _ Hjk. rewrite (Hz i j k Hi Hjk). reflexivity.
Qed.

(** The detector on [dog_spikes 5], with the border 5, the contrast
    threshold 0.03, the floor 0 and the curvature threshold 10: the centre
    is reported as a keypoint. *)
Example detector_reports_spike :
  getScaleSpaceExtrema 5 contrast_003 F32.zero (dog_spikes 5) [] 10
  = Ok [keypoint_at 5 5].
Proof. vm_compute. reflexivity. Qed.

(** ** The validator *)

(** C2, as stated, fails: the spike of [dog_off_diagonal] at row 5, column
    9 is an extremum; the validator is called with the position (9, 5), the
    contrast test passes, the determinant is 0, the floor is 0, and the
    division 0 / 0 is evaluated.  The quotient is a NaN and the candidate is
    accepted. *)
Lemma cleanPoints_divides_by_zero :
  isExtrema dog_off_diagonal 0 1 5 9 = Ok true /\
  cleanPoints_traced (9, 5) off_diagonal_spike 10 contrast_003 F32.zero
  = Ok (true, [(S754_zero false, S754_zero false)]) /\
  F32.gt (S754_zero false) F32.zero = false /\
  F32.div (S754_zero false) (S754_zero false) = S754_nan.
Proof. repeat split; vm_compute; reflexivity. Qed.

(** C2, as the code has it: a candidate that fails the contrast test is
    rejected with no division.  For every other candidate the quotient of
    the squared trace by the determinant of the finite differences is taken
    once, whatever the determinant is, and only afterwards is the determinant
    compared with the floor; a determinant below the floor rejects the
    candidate whatever the quotient came out as. *)
Theorem cleanPoints_division_unguarded
        (divide : float -> float -> float) (x y : Z) (image : Mat) (curv_thr : Z)
        (cont_thr dtr_thr v : float) (h : float * float * float) :
  at_ image y x = Ok v ->
  hessian image x y = Ok h ->
  (F32.lt (F32.abs v) cont_thr = true ->
   cleanPoints_with divide (x, y) image curv_thr cont_thr dtr_thr = Ok (false, [])) /\
  (F32.lt (F32.abs v) cont_thr = false ->
   exists b,
     cleanPoints_with divide (x, y) image curv_thr cont_thr dtr_thr
     = Ok (b, [(trace_squared h, determinant h)]) /\
     b = negb (F32.lt (determinant h) dtr_thr
               || F32.gt (divide (trace_squared h) (determinant h)) (F32.of_Z curv_thr)) /\
     (F32.lt (determinant h) dtr_thr = true -> b = false)).
Proof.
  intros Ev Eh. unfold cleanPoints_with. rewrite Ev. cbn [bind]. split.
  - intros ->. reflexivity.
  - intros ->. rewrite Eh. cbn [bind].
    destruct (F32.lt (determinant h) dtr_thr
              || F32.gt (divide (trace_squared h) (determinant h)) (F32.of_Z curv_thr))
      eqn:Etest.
    + exists false. repeat split.
    + exists true. repeat split.
      intros Hlt. rewrite Hlt in Etest. discriminate.
Qed.

(** C3, as stated, fails.  The determinant of [bump] is 1: with the floor at
    1 it is not above the floor, and the candidate is accepted.  With the
    floor at 0, the extremum of [dog_off_diagonal] has the determinant 0 and
    is accepted, and the detector reports it. *)
Lemma cleanPoints_accepts_at_floor :
  ((h <- hessian bump 1 1 ;; Ok (determinant h)) = Ok (F32.of_Z 1) /\
   F32.le (F32.of_Z 1) (F32.of_Z 1) = true /\
   cleanPoints (1, 1) bump 10 contrast_003 (F32.of_Z 1) = Ok true) /\
  (isExtrema dog_off_diagonal 0 1 5 9 = Ok true /\
   (h <- hessian off_diagonal_spike 9 5 ;; Ok (determinant h)) = Ok F32.zero /\
   F32.le F32.zero F32.zero = true /\
   cleanPoints (9, 5) off_diagonal_spike 10 contrast_003 F32.zero = Ok true /\
   getScaleSpaceExtrema 5 contrast_003 F32.zero dog_off_diagonal [] 10
   = Ok [keypoint_at 9 5]).
Proof. repeat split; vm_compute; reflexivity. Qed.

(** A determinant equal to the floor is not below it. *)
Lemma equal_not_below (a b : float) : SFeqb a b = true -> F32.lt a b = false.
Proof.
  unfold SFeqb, F32.lt, SFltb. destruct (SFcompare a b) as [[| |]|]; auto; discriminate.
Qed.

(** C3, as the code has it: whatever the contrast, a candidate whose
    determinant is below the floor is rejected; a candidate whose determinant
    is equal to the floor is rejected exactly when the contrast test rejects
    it or its ratio is above the curvature threshold. *)
Theorem cleanPoints_rejects_below_floor
        (x y : Z) (image : Mat) (curv_thr : Z) (cont_thr dtr_thr v : float)
        (h : float * float * float) :
  at_ image y x = Ok v ->
  hessian image x y = Ok h ->
  (F32.lt (determinant h) dtr_thr = true ->
   cleanPoints (x, y) image curv_thr cont_thr dtr_thr = Ok false) /\
  (SFeqb (determinant h) dtr_thr = true ->
   exists b,
     cleanPoints (x, y) image curv_thr cont_thr dtr_thr = Ok b /\
     (b = false <->
      F32.lt (F32.abs v) cont_thr = true \/
      F32.gt (F32.div (trace_squared h) (determinant h)) (F32.of_Z curv_thr) = true)).
Proof.
  intros Ev Eh. unfold cleanPoints, cleanPoints_traced, cleanPoints_with.
  rewrite Ev. cbn [bind]. split.
  - intros Hlt. destruct (F32.lt (F32.abs v) cont_thr); [reflexivity |].
    rewrite Eh. cbn [bind]. rewrite Hlt. reflexivity.
  - intros Heq. apply equal_not_below in Heq.
    destruct (F32.lt (F32.abs v) cont_thr).
    + exists false. split; [reflexivity |]. split; auto.
    + rewrite Eh. cbn [bind]. rewrite Heq. cbn [orb].
      destruct (F32.gt (F32.div (trace_squared h) (determinant h)) (F32.of_Z curv_thr)).
      * exists false. split; [reflexivity |]. split; auto.
      * exists true. split; [reflexivity |].
        split; [discriminate | intros [H | H]; discriminate].
Qed.

(** ** Histograms *)

Lemma update_length {A} (v : list A) (a : A) :
  forall n, List.length (update v n a) = List.length v.
Proof.
  induction v as [|x v IH]; intros [|n]; simpl; auto.
Qed.

Lemma vec_set_size {A} (v v' : list A) (i : Z) (a : A) :
  vec_set v i a = Ok v' -> size v' = size v.
Proof.
  unfold vec_set. destruct ((0 <=? i) && (i <? size v)); [| discriminate].
  intros [= <-]. unfold size. now rewrite update_length.
Qed.

Lemma buildHistogram_size (matrix : Mat) (range maximum : Z) (histo : list Z) :
  buildHistogram matrix range maximum = Ok histo ->
  size histo = Z.max 0 (Z.quot maximum range).
Proof.
  unfold buildHistogram.
  set (h0 := repeat 0 (Z.to_nat (Z.quot maximum range))).
  assert (H0 : size h0 = Z.max 0 (Z.quot maximum range)).
  { unfold size, h0. rewrite repeat_length. lia. }
  revert H0. generalize (Z.max 0 (Z.quot maximum range)) as n. intros n H0.
  intros Hrun.
  apply (for_each_counting_Ok (fun _ h => size h = n) _ _ _ _ _ Hrun H0).
  intros i h h' _ Hh Hrow.
  apply (for_each_counting_Ok (fun _ h => size h = n) _ _ _ _ _ Hrow Hh).
  intros j h1 h2 _ Hh1 Hbody.
  inv_bind Hbody as a Ea. inv_bind Hbody as index Ei. inv_bind Hbody as cnt Ec.
  apply vec_set_size in Hbody. lia.
Qed.

(** [histogramMax] returns the first maximum and its index. *)
Lemma histogramMax_first (histogram : list Z) (maximum indexMax : Z) :
  histogramMax histogram = Ok (maximum, indexMax) ->
  0 <= indexMax < size histogram /\
  vec_at histogram indexMax = Ok maximum /\
  (forall k v, vec_at histogram k = Ok v -> v <= maximum) /\
  (forall k v, k < indexMax -> vec_at histogram k = Ok v -> v < maximum).
Proof.
  unfold histogramMax. intros H. inv_bind H as first Efirst.
  pose proof (vec_at_size _ _ _ Efirst) as Hpos.
  pose (P := fun (n : Z) (s : Z * Z) =>
               0 <= snd s < size histogram /\
               vec_at histogram (snd s) = Ok (fst s) /\
               (forall k v, k < n -> vec_at histogram k = Ok v -> v <= fst s) /\
               (forall k v, k < snd s -> vec_at histogram k = Ok v -> v < fst s)).
  assert (HP : P (Z.max 0 (size histogram)) (maximum, indexMax)).
  { apply (for_each_counting_Ok P _ _ _ _ _ H).
    - unfold P. simpl. split; [lia |]. split; [exact Efirst |].
      split; intros k v Hk Hv; apply vec_at_size in Hv; lia.
    - intros n [m idx] s' Hn (Hidx & Hm & Hle & Hlt) Hbody. simpl in *.
      inv_bind Hbody as h Eh.
      destruct (Z.ltb_spec m h); injection Hbody as <-; unfold P; simpl.
      + split; [lia |]. split; [exact Eh |]. split.
        * intros k v Hk Hv. destruct (Z.eq_dec k n) as [-> | Hne].
          -- rewrite Eh in Hv. injection Hv as <-. lia.
          -- specialize (Hle k v ltac:(lia) Hv). lia.
        * intros k v Hk Hv. specialize (Hle k v Hk Hv). lia.
      + split; [lia |]. split; [exact Hm |]. split.
        * intros k v Hk Hv. destruct (Z.eq_dec k n) as [-> | Hne].
          -- rewrite Eh in Hv. injection Hv as <-. lia.
          -- apply (Hle k v); [lia | exact Hv].
        * exact Hlt. }
  destruct HP as (Hidx & Hm & Hle & Hlt). simpl in *.
  split; [exact Hidx |]. split; [exact Hm |]. split; [| exact Hlt].
  intros k v Hv. apply (Hle k v); [| exact Hv].
  apply vec_at_size in Hv. lia.
Qed.

(** ** The orientation estimator *)

Lemma inside_true (m : Mat) (r c : Z) :
  inside m r c = true <-> 0 <= r < rows m /\ 0 <= c < cols m.
Proof.
  unfold inside.
  rewrite !andb_true_iff, !Z.leb_le, !Z.ltb_lt. lia.
Qed.

Section OrientationFacts.
Variable SIFT_HIST_BOREDER : Z.
Variable PI : double.
Variable atan2f : float -> float -> float.

Local Notation W := SIFT_HIST_BOREDER.
Local Notation window_fits_ := (window_fits SIFT_HIST_BOREDER).
Local Notation has_window_ := (has_window SIFT_HIST_BOREDER).
Local Notation gradient_cell_ := (gradient_cell SIFT_HIST_BOREDER PI atan2f).
Local Notation gradient_patch_ := (gradient_patch SIFT_HIST_BOREDER PI atan2f).
Local Notation orient_keypoint_ := (orient_keypoint SIFT_HIST_BOREDER PI atan2f).
Local Notation computeOrientationHist_ :=
  (computeOrientationHist SIFT_HIST_BOREDER PI atan2f).
Local Notation magnitude_at_ := (magnitude_at SIFT_HIST_BOREDER).
Local Notation gradient_at_ := (gradient_at SIFT_HIST_BOREDER PI atan2f).
Local Notation reads_inside_ := (reads_inside SIFT_HIST_BOREDER).
Local Notation cell_reads_ := (cell_reads SIFT_HIST_BOREDER).
Local Notation cell_done_ := (cell_done SIFT_HIST_BOREDER PI atan2f).
Local Notation patch_in_bins_ := (patch_in_bins SIFT_HIST_BOREDER PI atan2f).
Local Notation orientable_ := (orientable SIFT_HIST_BOREDER PI atan2f).

Lemma window_exceeds_fails (image : Mat) (x y : Z) :
  window_exceeds W image x y -> window_fits_ image x y = false.
Proof.
  unfold window_exceeds, window_fits. intros H.
  apply negb_false_iff, orb_true_iff.
  destruct (Z.ltb_spec (x - W - 1) 0); [auto |].
  destruct (Z.gtb_spec (x + W + 1) (cols image)); [auto |].
  destruct (Z.ltb_spec (y - W - 1) 0); [auto |].
  right. apply Z.gtb_lt. lia.
Qed.

(** A keypoint that fails the test is left as it is, and so is the object. *)
Lemma orient_keypoint_skips (dog_pyr : list (list Mat)) (kp : KeyPoint) (this : SIFT)
      (image : Mat) :
  pyr_at dog_pyr (kp_octave kp) (kp_size kp) = Ok image ->
  window_fits_ image (kp_x kp) (kp_y kp) = false ->
  orient_keypoint_ dog_pyr kp this = Ok (kp, this).
Proof. intros E H. unfold orient_keypoint. rewrite E. cbn [bind]. now rewrite H. Qed.

(** What a keypoint that passes the test goes through. *)
Lemma orient_keypoint_fits (dog_pyr : list (list Mat)) (kp kp' : KeyPoint)
      (this this' : SIFT) (image : Mat) :
  pyr_at dog_pyr (kp_octave kp) (kp_size kp) = Ok image ->
  window_fits_ image (kp_x kp) (kp_y kp) = true ->
  orient_keypoint_ dog_pyr kp this = Ok (kp', this') ->
  exists tempMagnitude tempGradient histo maxima indexMax,
    gradient_patch_ image (kp_x kp) (kp_y kp) = Ok (tempMagnitude, tempGradient) /\
    buildHistogram tempGradient 10 360 = Ok histo /\
    histogramMax histo = Ok (maxima, indexMax) /\
    kp' = {| kp_x := kp_x kp; kp_y := kp_y kp; kp_size := kp_size kp;
             kp_angle := indexMax * 10 + Z.quot 10 2;
             kp_response := kp_response kp; kp_octave := kp_octave kp |} /\
    this' = {| keypointsGradients := keypointsGradients this ++ [tempGradient];
               keypointsMagnitudes := keypointsMagnitudes this ++ [tempMagnitude] |}.
Proof.
  intros E Hfit H. unfold orient_keypoint in H. rewrite E in H. cbn [bind] in H.
  rewrite Hfit in H.
  inv_bind H as [mag grad] Ep. inv_bind H as histo Eh. inv_bind H as [maxima idx] Em.
  injection H as <- <-.
  exists mag, grad, histo, maxima, idx. auto.
Qed.

(** The loop over the keypoints, one keypoint at a time. *)
Lemma computeOrientationHist_steps (dog_pyr : list (list Mat)) :
  forall (keypoints keypoints' : list KeyPoint) (this this' : SIFT),
    computeOrientationHist_ dog_pyr keypoints this = Ok (keypoints', this') ->
    List.length keypoints' = List.length keypoints /\
    forall z kp, nth_error keypoints z = Some kp ->
                 exists kp' before after,
                   nth_error keypoints' z = Some kp' /\
                   orient_keypoint_ dog_pyr kp before = Ok (kp', after).
Proof.
  induction keypoints as [|kp0 rest IH]; simpl; intros kps' this this' H.
  - injection H as <- <-. split; [reflexivity |]. intros [|z] kp; discriminate.
  - inv_bind H as [kp0' this1] E0. inv_bind H as [rest' this2] Er.
    injection H as <- <-.
    destruct (IH _ _ _ Er) as [Hlen Hrest]. split; [simpl; lia |].
    intros [|z] kp Hz; simpl in Hz.
    + injection Hz as <-. exists kp0', this, this1. auto.
    + destruct (Hrest z kp Hz) as (kp' & b & a & Hn & Ho). exists kp', b, a. auto.
Qed.

(** One patch is stored for each keypoint that passes the test, and none
    for the others. *)
Lemma computeOrientationHist_patches (dog_pyr : list (list Mat)) :
  forall (keypoints keypoints' : list KeyPoint) (this this' : SIFT),
    computeOrientationHist_ dog_pyr keypoints this = Ok (keypoints', this') ->
    List.length (keypointsGradients this')
    = (List.length (keypointsGradients this)
       + List.length (filter (has_window_ dog_pyr) keypoints))%nat /\
    List.length (keypointsMagnitudes this')
    = (List.length (keypointsMagnitudes this)
       + List.length (filter (has_window_ dog_pyr) keypoints))%nat.
Proof.
  induction keypoints as [|kp0 rest IH]; simpl; intros kps' this this' H.
  - injection H as <- <-. lia.
  - inv_bind H as [kp0' this1] E0. inv_bind H as [rest' this2] Er.
    injection H as <- <-.
    destruct (IH _ _ _ Er) as [Hg Hm]. rewrite Hg, Hm. clear IH Er Hg Hm.
    pose proof E0 as E0'. unfold orient_keypoint in E0'.
    inv_bind E0' as image Ei. clear E0'.
    assert (Hw : has_window_ dog_pyr kp0 = window_fits_ image (kp_x kp0) (kp_y kp0)).
    { unfold has_window. now rewrite Ei. }
    rewrite Hw.
    destruct (window_fits_ image (kp_x kp0) (kp_y kp0)) eqn:Hfit.
    + destruct (orient_keypoint_fits _ _ _ _ _ _ Ei Hfit E0)
        as (mag & grad & histo & mx & idx & _ & _ & _ & _ & ->).
      simpl. rewrite !length_app. simpl. lia.
    + rewrite (orient_keypoint_skips _ _ _ _ Ei Hfit) in E0. injection E0 as <- <-.
      simpl. lia.
Qed.

(** On a square image the reads of a keypoint that passes the test all
    fall inside the image: the patch is computed, and each of its cells
    holds the angle of a gradient. *)
Lemma gradient_patch_square (image : Mat) (keyx keyy : Z) :
  rows image = cols image ->
  window_fits_ image keyx keyy = true ->
  exists tempMagnitude tempGradient,
    gradient_patch_ image keyx keyy = Ok (tempMagnitude, tempGradient) /\
    rows tempGradient = W * 2 /\ cols tempGradient = W * 2 /\
    forall i j, 0 <= i < W * 2 -> 0 <= j < W * 2 ->
                exists dy dx, px tempGradient i j
                              = to_float (rad2deg PI (atan2f dy dx)).
Proof.
  intros Hsq Hfit. unfold window_fits in Hfit.
  apply negb_true_iff in Hfit.
  apply orb_false_iff in Hfit. destruct Hfit as [Hfit H4].
  apply orb_false_iff in Hfit. destruct Hfit as [Hfit H3].
  apply orb_false_iff in Hfit. destruct Hfit as [H1 H2].
  apply Z.ltb_ge in H1, H3.
  rewrite Z.gtb_ltb in H2, H4. apply Z.ltb_ge in H2, H4.
  pose (good := fun (g : Mat) (i j : Z) =>
                  exists dy dx, px g i j = to_float (rad2deg PI (atan2f dy dx))).
  pose (sized := fun (s : Mat * Mat) =>
                   rows (fst s) = W * 2 /\ cols (fst s) = W * 2 /\
                   rows (snd s) = W * 2 /\ cols (snd s) = W * 2).
  pose (P := fun (i : Z) (s : Mat * Mat) =>
               sized s /\
               forall i' j', 0 <= i' < i -> 0 <= j' < W * 2 -> good (snd s) i' j').
  pose (Q := fun (i j : Z) (s : Mat * Mat) =>
               P i s /\ forall j', 0 <= j' < j -> good (snd s) i j').
  unfold gradient_patch.
  destruct (for_each_counting P
              (fun i s => for_each (counting 0 (W * 2)) (gradient_cell_ image keyx keyy i) s)
              0 (W * 2) (fresh_mat (W * 2) (W * 2), fresh_mat (W * 2) (W * 2)))
    as ([mag grad] & E & Hsized & Hgood).
  - split; [unfold sized; simpl; auto | intros i' j' Hi'; lia].
  - intros i s Hi Hs.
    destruct (for_each_counting (Q i) (gradient_cell_ image keyx keyy i) 0 (W * 2) s)
      as (s' & E' & [Hs' Hrest] & Hrow).
    + split; [exact Hs | intros j' Hj'; lia].
    + intros j [m g] Hj [[(Hmr & Hmc & Hgr & Hgc) Hprev] Hcur].
      simpl in Hmr, Hmc, Hgr, Hgc, Hprev, Hcur.
      unfold gradient_cell.
      rewrite !at_inside by lia. cbn [bind].
      unfold set_at, inside. rewrite Hmr, Hmc, Hgr, Hgc.
      destruct (Z.leb_spec 0 i); [| lia]. destruct (Z.ltb_spec i (W * 2)); [| lia].
      destruct (Z.leb_spec 0 j); [| lia]. destruct (Z.ltb_spec j (W * 2)); [| lia].
      cbn [andb bind]. eexists. split; [reflexivity |].
      split; [split; [unfold sized; simpl; auto |] |]; unfold good in *; cbn [snd px].
      * intros i' j' Hi' Hj'.
        destruct (Z.eqb_spec i' i); [lia |]. cbn [andb]. now apply Hprev.
      * intros j' Hj'.
        rewrite Z.eqb_refl. destruct (Z.eqb_spec j' j) as [-> | Hne]; cbn [andb].
        -- eexists. eexists. reflexivity.
        -- apply Hcur. lia.
    + exists s'. split; [exact E' |]. split; [exact Hs' |].
      intros i' j' Hi' Hj'. destruct (Z.eq_dec i' i) as [-> | Hne].
      * apply Hrow. lia.
      * apply Hrest; lia.
  - destruct Hsized as (_ & _ & Hgr & Hgc). simpl in Hgr, Hgc, Hgood.
    exists mag, grad. split; [exact E |]. split; [exact Hgr |]. split; [exact Hgc |].
    intros i j Hi Hj. apply Hgood; lia.
Qed.

Lemma buildHistogram_total (matrix : Mat) (range maximum : Z) :
  (forall i j, 0 <= i < rows matrix -> 0 <= j < cols matrix ->
               exists index,
                 to_int (F32.div (px matrix i j) (F32.of_Z range)) = Ok index /\
                 0 <= index < Z.quot maximum range) ->
  exists histo, buildHistogram matrix range maximum = Ok histo.
Proof.
  intros Hbins. unfold buildHistogram.
  set (n := Z.quot maximum range).
  pose (P := fun (_ : Z) (h : list Z) => size h = Z.max 0 n).
  destruct (for_each_counting P
              (fun i histo =>
                 for_each (counting 0 (cols matrix)) (fun j histo =>
                   a <- at_ matrix i j ;;
                   index <- to_int (F32.div a (F32.of_Z range)) ;;
                   cnt <- vec_at histo index ;;
                   vec_set histo index (cnt + 1)) histo)
              0 (rows matrix) (repeat 0 (Z.to_nat n))) as (histo & E & _).
  - unfold P, size. rewrite repeat_length. lia.
  - intros i h Hi Hh.
    apply (for_each_counting P _ 0 (cols matrix) h Hh).
    intros j h' Hj Hh'. unfold P in Hh'.
    rewrite at_inside by lia. cbn [bind].
    destruct (Hbins i j Hi Hj) as (index & -> & Hidx). cbn [bind].
    destruct (vec_at_inside h' index ltac:(lia)) as (cnt & ->). cbn [bind].
    unfold vec_set.
    destruct (Z.leb_spec 0 index); [| lia].
    destruct (Z.ltb_spec index (size h')); [| lia].
    cbn [andb]. eexists. split; [reflexivity |].
    unfold P, size. rewrite update_length. exact Hh'.
  - exists histo. exact E.
Qed.

Lemma histogramMax_total (histogram : list Z) :
  0 < size histogram -> exists r, histogramMax histogram = Ok r.
Proof.
  intros Hpos. unfold histogramMax.
  destruct (vec_at_inside histogram 0 ltac:(lia)) as (first & ->). cbn [bind].
  destruct (for_each_counting (fun _ _ => True)
              (fun i (s : Z * Z) =>
                 let '(maximum, indexMax) := s in
                 h <- vec_at histogram i ;;
                 (if maximum <? h then Ok (h, i) else Ok (maximum, indexMax)))
              0 (size histogram) (first, 0) I) as (r & E & _).
  - intros i [m idx] Hi _.
    destruct (vec_at_inside histogram i Hi) as (h & ->). cbn [bind].
    destruct (m <? h); eauto.
  - exists r. exact E.
Qed.

(** On square images, with an [atan2f] whose angles fall in the 36 bins,
    the estimator runs to its end. *)
Lemma orient_keypoint_square (dog_pyr : list (list Mat)) (kp : KeyPoint) (this : SIFT)
      (image : Mat) :
  angles_in_bins PI atan2f ->
  pyr_at dog_pyr (kp_octave kp) (kp_size kp) = Ok image ->
  rows image = cols image ->
  exists r, orient_keypoint_ dog_pyr kp this = Ok r.
Proof.
  intros Hbins Eimg Hsq.
  destruct (window_fits_ image (kp_x kp) (kp_y kp)) eqn:Hfit.
  - destruct (gradient_patch_square image _ _ Hsq Hfit)
      as (mag & grad & Ep & Hr & Hc & Hgood).
    destruct (buildHistogram_total grad 10 360) as (histo & Eh).
    { intros i j Hi Hj. destruct (Hgood i j ltac:(lia) ltac:(lia)) as (dy & dx & ->).
      apply Hbins. }
    destruct (histogramMax_total histo) as ([maxima idx] & Em).
    { rewrite (buildHistogram_size _ _ _ _ Eh). reflexivity. }
    unfold orient_keypoint. rewrite Eimg. cbn [bind]. rewrite Hfit, Ep. cbn [bind].
    rewrite Eh. cbn [bind]. rewrite Em. cbn [bind]. eauto.
  - rewrite (orient_keypoint_skips _ _ _ _ Eimg Hfit). eauto.
Qed.

Lemma computeOrientationHist_square (dog_pyr : list (list Mat)) :
  angles_in_bins PI atan2f ->
  forall (keypoints : list KeyPoint) (this : SIFT),
    (forall kp, In kp keypoints ->
                exists image, pyr_at dog_pyr (kp_octave kp) (kp_size kp) = Ok image /\
                              rows image = cols image) ->
    exists r, computeOrientationHist_ dog_pyr keypoints this = Ok r.
Proof.
  intros Hbins. induction keypoints as [|kp rest IH]; intros this Hall; simpl.
  - eauto.
  - destruct (Hall kp (or_introl eq_refl)) as (image & Eimg & Hsq).
    destruct (orient_keypoint_square dog_pyr kp this image Hbins Eimg Hsq)
      as ([kp' this1] & ->). cbn [bind].
    destruct (IH this1) as ([rest' this2] & ->).
    + intros kp0 Hin. apply Hall. now right.
    + cbn [bind]. eauto.
Qed.
Lemma set_at_Ok (m m' : Mat) (r c : Z) (v : float) :
  set_at m r c v = Ok m' ->
  inside m r c = true /\ rows m' = rows m /\ cols m' = cols m /\
  forall r' c', px m' r' c' = if (r' =? r) && (c' =? c) then v else px m r' c'.
Proof.
  unfold set_at. destruct (inside m r c); [| discriminate].
  intros [= <-]. simpl. auto.
Qed.

Lemma gradient_cell_Ok (image : Mat) (keyx keyy i j : Z) (m g m' g' : Mat) :
  gradient_cell_ image keyx keyy i j (m, g) = Ok (m', g') ->
  cell_reads_ image keyx keyy i j /\
  (rows m' = rows m /\ cols m' = cols m /\ rows g' = rows g /\ cols g' = cols g) /\
  (forall r c, px m' r c = if (r =? i) && (c =? j)
                           then magnitude_at_ image keyx keyy i j else px m r c) /\
  (forall r c, px g' r c = if (r =? i) && (c =? j)
                           then gradient_at_ image keyx keyy i j else px g r c).
Proof.
  unfold gradient_cell. intros H.
  inv_bind H as a1 E1. inv_bind H as b1 E2. inv_bind H as a2 E3. inv_bind H as b2 E4.
  inv_bind H as m1 Em. inv_bind H as g1 Eg. injection H as <- <-.
  apply at_Ok in E1, E2, E3, E4.
  destruct E1 as (R1 & C1 & ->), E2 as (R2 & C2 & ->),
           E3 as (R3 & C3 & ->), E4 as (R4 & C4 & ->).
  apply set_at_Ok in Em, Eg.
  destruct Em as (_ & Hmr & Hmc & Hm), Eg as (_ & Hgr & Hgc & Hg).
  split.
  - unfold cell_reads.
    replace (keyx - W + i + 1) with (keyx + i + 1 - W) by lia.
    replace (keyx - W + i - 1) with (keyx + i - 1 - W) by lia.
    replace (keyy - W + j + 1) with (keyy + j + 1 - W) by lia.
    replace (keyy - W + j - 1) with (keyy + j - 1 - W) by lia.
    repeat split; apply inside_true; lia.
  - split; [auto |]. unfold magnitude_at, gradient_at, diffx_at, diffy_at.
    replace (keyx - W + i + 1) with (keyx + i + 1 - W) by lia.
    replace (keyx - W + i - 1) with (keyx + i - 1 - W) by lia.
    replace (keyy - W + j + 1) with (keyy + j + 1 - W) by lia.
    replace (keyy - W + j - 1) with (keyy + j - 1 - W) by lia.
    split; [exact Hm | exact Hg].
Qed.

Lemma gradient_patch_cells (image : Mat) (keyx keyy : Z) (mag grad : Mat) :
  gradient_patch_ image keyx keyy = Ok (mag, grad) ->
  (rows mag = W * 2 /\ cols mag = W * 2 /\ rows grad = W * 2 /\ cols grad = W * 2) /\
  forall i j, 0 <= i < W * 2 -> 0 <= j < W * 2 ->
              cell_done_ image keyx keyy (mag, grad) i j.
Proof.
  unfold gradient_patch. intros Hrun.
  pose (sized := fun (s : Mat * Mat) =>
                   rows (fst s) = W * 2 /\ cols (fst s) = W * 2 /\
                   rows (snd s) = W * 2 /\ cols (snd s) = W * 2).
  pose (P := fun (i : Z) (s : Mat * Mat) =>
               sized s /\
               forall i' j', 0 <= i' < i -> 0 <= j' < W * 2 ->
                             cell_done_ image keyx keyy s i' j').
  pose (Q := fun (i j : Z) (s : Mat * Mat) =>
               P i s /\ forall j', 0 <= j' < j -> cell_done_ image keyx keyy s i j').
  assert (HP : P (Z.max 0 (W * 2)) (mag, grad)).
  { apply (for_each_counting_Ok P _ _ _ _ _ Hrun).
    - split; [unfold sized; simpl; auto | intros; lia].
    - intros i s s' Hi Hs Hrow.
      assert (HQ : Q i (Z.max 0 (W * 2)) s').
      { apply (for_each_counting_Ok (Q i) _ _ _ _ _ Hrow).
        - split; [exact Hs | intros; lia].
        - intros j [m g] [m' g'] Hj [[Hsz Hprev] Hcur] Hcell.
          apply gradient_cell_Ok in Hcell.
          destruct Hcell as (Hreads & (Hmr & Hmc & Hgr & Hgc) & Hm & Hg).
          unfold sized in Hsz. simpl in Hsz.
          split; [split |].
          + unfold sized. simpl. lia.
          + intros i' j' Hi' Hj'. destruct (Hprev i' j' Hi' Hj') as (Hr & Hpm & Hpg).
            unfold cell_done. simpl in *. rewrite Hm, Hg.
            destruct (Z.eqb_spec i' i); [lia |]. simpl. auto.
          + intros j' Hj'. unfold cell_done. simpl. rewrite Hm, Hg.
            rewrite Z.eqb_refl. destruct (Z.eqb_spec j' j) as [-> | Hne]; simpl.
            * auto.
            * apply Hcur. lia. }
      destruct HQ as [[Hsz Hprev] Hrow'].
      split; [exact Hsz |]. intros i' j' Hi' Hj'.
      destruct (Z.eq_dec i' i) as [-> | Hne]; [apply Hrow'; lia | apply Hprev; lia]. }
  destruct HP as [Hsz Hcells]. split; [exact Hsz |].
  intros i j Hi Hj. apply Hcells; lia.
Qed.

Lemma gradient_patch_inside (image : Mat) (keyx keyy : Z) :
  reads_inside_ image keyx keyy ->
  exists mag grad, gradient_patch_ image keyx keyy = Ok (mag, grad).
Proof.
  intros (H1 & H2 & H3 & H4).
  pose (sized := fun (_ : Z) (s : Mat * Mat) =>
                   rows (fst s) = W * 2 /\ cols (fst s) = W * 2 /\
                   rows (snd s) = W * 2 /\ cols (snd s) = W * 2).
  unfold gradient_patch.
  destruct (for_each_counting sized
              (fun i s => for_each (counting 0 (W * 2)) (gradient_cell_ image keyx keyy i) s)
              0 (W * 2) (fresh_mat (W * 2) (W * 2), fresh_mat (W * 2) (W * 2)))
    as ([mag grad] & E & _).
  - unfold sized. simpl. auto.
  - intros i s Hi Hs.
    destruct (for_each_counting sized (gradient_cell_ image keyx keyy i) 0 (W * 2) s)
      as (s' & E' & Hs').
    + exact Hs.
    + intros j [m g] Hj (Hmr & Hmc & Hgr & Hgc). simpl in Hmr, Hmc, Hgr, Hgc.
      unfold gradient_cell.
      rewrite !at_inside by lia. cbn [bind].
      unfold set_at, inside. rewrite Hmr, Hmc, Hgr, Hgc.
      destruct (Z.leb_spec 0 i); [| lia]. destruct (Z.ltb_spec i (W * 2)); [| lia].
      destruct (Z.leb_spec 0 j); [| lia]. destruct (Z.ltb_spec j (W * 2)); [| lia].
      cbn [andb bind]. eexists. split; [reflexivity |].
      unfold sized. simpl. auto.
    + exists s'. split; [exact E' | exact Hs'].
  - exists mag, grad. exact E.
Qed.

(** On a square image the test of line 293 keeps the reads inside. *)
Lemma window_fits_square (image : Mat) (keyx keyy : Z) :
  rows image = cols image ->
  window_fits_ image keyx keyy = true ->
  reads_inside_ image keyx keyy.
Proof.
  intros Hsq Hfit. unfold window_fits in Hfit.
  apply negb_true_iff in Hfit.
  apply orb_false_iff in Hfit. destruct Hfit as [Hfit H4].
  apply orb_false_iff in Hfit. destruct Hfit as [Hfit H3].
  apply orb_false_iff in Hfit. destruct Hfit as [H1 H2].
  apply Z.ltb_ge in H1, H3.
  rewrite Z.gtb_ltb in H2, H4. apply Z.ltb_ge in H2, H4.
  unfold reads_inside. lia.
Qed.

(** The iteration of a keypoint that can be oriented returns, whatever the
    object holds. *)
Lemma orient_keypoint_orientable (dog_pyr : list (list Mat)) (kp : KeyPoint) (this : SIFT) :
  orientable_ dog_pyr kp ->
  exists r, orient_keypoint_ dog_pyr kp this = Ok r.
Proof.
  intros (image & Eimg & Hcond).
  destruct (window_fits_ image (kp_x kp) (kp_y kp)) eqn:Hfit.
  - destruct (Hcond eq_refl) as [Hin Hbins].
    destruct (gradient_patch_inside image _ _ Hin) as (mag & grad & Ep).
    destruct (gradient_patch_cells _ _ _ _ _ Ep) as ((_ & _ & Hr & Hc) & Hcells).
    destruct (buildHistogram_total grad 10 360) as (histo & Eh).
    { intros i j Hi Hj. rewrite Hr in Hi. rewrite Hc in Hj.
      destruct (Hcells i j Hi Hj) as (_ & _ & Hg). simpl in Hg. rewrite Hg.
      apply Hbins; assumption. }
    destruct (histogramMax_total histo) as ([maxima idx] & Em).
    { rewrite (buildHistogram_size _ _ _ _ Eh). reflexivity. }
    unfold orient_keypoint. rewrite Eimg. cbn [bind]. rewrite Hfit, Ep. cbn [bind].
    rewrite Eh. cbn [bind]. rewrite Em. cbn [bind]. eauto.
  - rewrite (orient_keypoint_skips _ _ _ _ Eimg Hfit). eauto.
Qed.

(** A run over keypoints that can all be oriented returns. *)
Lemma computeOrientationHist_orientable (dog_pyr : list (list Mat)) :
  forall (keypoints : list KeyPoint) (this : SIFT),
    (forall kp, In kp keypoints -> orientable_ dog_pyr kp) ->
    exists r, computeOrientationHist_ dog_pyr keypoints this = Ok r.
Proof.
  induction keypoints as [|kp rest IH]; intros this Hall; simpl.
  - eauto.
  - destruct (orient_keypoint_orientable dog_pyr kp this (Hall kp (or_introl eq_refl)))
      as ([kp' this1] & ->). cbn [bind].
    destruct (IH this1) as ([rest' this2] & ->).
    + intros kp0 Hin. apply Hall. now right.
    + cbn [bind]. eauto.
Qed.

(** In a run that returns, a keypoint that passes the test has the angle
    of the first maximum of the histogram of its patch. *)
Lemma computeOrientationHist_assigns
      (dog_pyr : list (list Mat)) (keypoints keypoints' : list KeyPoint)
      (this this' : SIFT) (z : nat) (kp : KeyPoint) (image : Mat) :
  computeOrientationHist_ dog_pyr keypoints this = Ok (keypoints', this') ->
  nth_error keypoints z = Some kp ->
  pyr_at dog_pyr (kp_octave kp) (kp_size kp) = Ok image ->
  window_fits_ image (kp_x kp) (kp_y kp) = true ->
  exists kp' tempMagnitude tempGradient histo indexMax,
    nth_error keypoints' z = Some kp' /\
    gradient_patch_ image (kp_x kp) (kp_y kp) = Ok (tempMagnitude, tempGradient) /\
    buildHistogram tempGradient 10 360 = Ok histo /\
    size histo = 36 /\
    first_maximum histo indexMax /\
    kp_angle kp' = indexMax * 10 + 10 / 2 /\
    0 <= kp_angle kp' < 360 /\
    kp_x kp' = kp_x kp /\ kp_y kp' = kp_y kp /\ kp_size kp' = kp_size kp /\
    kp_octave kp' = kp_octave kp.
Proof.
  intros Hrun Hz Eimg Hfit.
  destruct (computeOrientationHist_steps _ _ _ _ _ Hrun) as [_ Hsteps].
  destruct (Hsteps z kp Hz) as (kp' & before & after & Hz' & Hstep).
  destruct (orient_keypoint_fits _ _ _ _ _ _ Eimg Hfit Hstep)
    as (mag & grad & histo & maxima & idx & Ep & Eh & Em & -> & _).
  pose proof (buildHistogram_size _ _ _ _ Eh) as Hsz.
  change (Z.max 0 (Z.quot 360 10)) with 36 in Hsz.
  destruct (histogramMax_first _ _ _ Em) as (Hidx & Hat & Hle & Hlt).
  eexists. exists mag, grad, histo, idx. cbn [kp_x kp_y kp_size kp_angle kp_octave].
  split; [exact Hz' |]. split; [exact Ep |]. split; [exact Eh |].
  split; [exact Hsz |]. split; [exists maxima; auto |].
  change (Z.quot 10 2) with 5. change (10 / 2) with 5.
  cbn [kp_x kp_y kp_size kp_angle kp_octave].
  repeat split; lia.
Qed.
End OrientationFacts.

Section OrientationClaims.
Variable SIFT_IMG_BORDER : Z.
Variables SIFT_CONTR_THR SIFT_DETER_THR : float.
Variable SIFT_HIST_BOREDER : Z.
Variable PI : double.
Variable atan2f : float -> float -> float.

Local Notation W := SIFT_HIST_BOREDER.
Local Notation getScaleSpaceExtrema_ :=
  (getScaleSpaceExtrema SIFT_IMG_BORDER SIFT_CONTR_THR SIFT_DETER_THR).
Local Notation window_fits_ := (window_fits SIFT_HIST_BOREDER).
Local Notation has_window_ := (has_window SIFT_HIST_BOREDER).
Local Notation gradient_cell_ := (gradient_cell SIFT_HIST_BOREDER PI atan2f).
Local Notation gradient_patch_ := (gradient_patch SIFT_HIST_BOREDER PI atan2f).
Local Notation orient_keypoint_ := (orient_keypoint SIFT_HIST_BOREDER PI atan2f).
Local Notation computeOrientationHist_ :=
  (computeOrientationHist SIFT_HIST_BOREDER PI atan2f).
Local Notation orientable_ := (orientable SIFT_HIST_BOREDER PI atan2f).



(** C8: in a run of the detector followed by the estimator, the vector of
    keypoints keeps its length and one patch is stored per keypoint that
    passes the test; a keypoint whose window of side [2 * W] leaves its image
    fails the test, is at the same place of the vector after the run,
    unchanged, with the angle [-1] the detector gave it. *)
Theorem boundary_keypoint_kept
        (dog_pyr : list (list Mat)) (curv_thr : Z) (keypoints keypoints' : list KeyPoint)
        (this this' : SIFT) :
  getScaleSpaceExtrema_ dog_pyr [] curv_thr = Ok keypoints ->
  computeOrientationHist_ dog_pyr keypoints this = Ok (keypoints', this') ->
  List.length keypoints' = List.length keypoints /\
  List.length (keypointsGradients this')
  = (List.length (keypointsGradients this)
     + List.length (filter (has_window_ dog_pyr) keypoints))%nat /\
  List.length (keypointsMagnitudes this')
  = (List.length (keypointsMagnitudes this)
     + List.length (filter (has_window_ dog_pyr) keypoints))%nat /\
  forall z kp image,
    nth_error keypoints z = Some kp ->
    pyr_at dog_pyr (kp_octave kp) (kp_size kp) = Ok image ->
    window_exceeds W image (kp_x kp) (kp_y kp) ->
    has_window_ dog_pyr kp = false /\
    (forall before, orient_keypoint_ dog_pyr kp before = Ok (kp, before)) /\
    nth_error keypoints' z = Some kp /\
    kp_angle kp = -1.
Proof.
  intros Hdet Hrun.
  destruct (computeOrientationHist_steps _ _ _ _ _ _ _ _ Hrun) as [Hlen Hsteps].
  destruct (computeOrientationHist_patches _ _ _ _ _ _ _ _ Hrun) as [Hg Hm].
  split; [exact Hlen |]. split; [exact Hg |]. split; [exact Hm |].
  intros z kp image Hz Eimg Hout.
  pose proof (window_exceeds_fails _ _ _ _ Hout) as Hfit.
  assert (Hskip : forall before, orient_keypoint_ dog_pyr kp before = Ok (kp, before)).
  { intros before. now apply (orient_keypoint_skips _ _ _ _ _ _ image). }
  split; [unfold has_window; now rewrite Eimg |]. split; [exact Hskip |]. split.
  - destruct (Hsteps z kp Hz) as (kp' & before & after & Hz' & Hstep).
    rewrite Hskip in Hstep. injection Hstep as <- _. exact Hz'.
  - destruct (getScaleSpaceExtrema_angles _ _ _ _ _ _ _ Hdet) as (new & Hnew & Hall).
    simpl in Hnew. subst new. rewrite Forall_forall in Hall.
    apply Hall. eapply nth_error_In, Hz.
Qed.

(** C10, at inputs where the code leaves the claim: a keypoint that passes
    the test with [keyx + W] at or beyond the last row of its image, as the
    test allows whenever the image has more columns than rows.  The read of
    the last row of the patch is then outside the image, and no run of the
    patch computation completes.  The test compares [keyx] with the columns
    and [keyy] with the rows; the reads use [keyx] as the row and [keyy] as
    the column. *)
Theorem gradient_patch_reads_outside (image : Mat) (keyx keyy : Z) :
  1 <= W ->
  window_fits_ image keyx keyy = true ->
  rows image <= keyx + W ->
  inside image (keyx + (W * 2 - 1) + 1 - W) (keyy - W + 0) = false /\
  forall patch, gradient_patch_ image keyx keyy <> Ok patch.
Proof.
  intros HW _ Hrows.
  assert (Hin : inside image (keyx + (W * 2 - 1) + 1 - W) (keyy - W + 0) = false).
  { unfold inside.
    destruct (Z.ltb_spec (keyx + (W * 2 - 1) + 1 - W) (rows image)); [lia |].
    now rewrite andb_false_r. }
  split; [exact Hin |].
  intros patch Hrun. unfold gradient_patch in Hrun.
  destruct (for_each_Ok_body _ _ _ _ Hrun (W * 2 - 1)) as (s1 & s2 & Hrow).
  { apply counting_In. lia. }
  destruct (for_each_Ok_body _ _ _ _ Hrow 0) as ([m g] & s4 & Hcell).
  { apply counting_In. lia. }
  unfold gradient_cell in Hcell. inv_bind Hcell as a Ea.
  unfold at_ in Ea. rewrite Hin in Ea. discriminate.
Qed.

(** The detector and then the estimator on [dog_two_bumps], with the
    border 5 and the half-size 8: every read of the detector is inside the
    images, the keypoint at column 12, row 9 passes the test of the
    estimator, and the estimator reads row 18 of an image of 18 rows. *)
Example estimator_leaves_image :
  getScaleSpaceExtrema 5 contrast_003 F32.zero dog_two_bumps [] 10
  = Ok [keypoint_at 12 9; keypoint_at 9 12] /\
  has_window 8 dog_two_bumps (keypoint_at 12 9) = true /\
  computeOrientationHist 8 pi_double atan2f_on_axes dog_two_bumps
                         [keypoint_at 12 9; keypoint_at 9 12] no_patches
  = Undefined (MatIndex 18 1).
Proof. repeat split; vm_compute; reflexivity. Qed.

End OrientationClaims.

(** ** The theorems at concrete inputs *)

Lemma blur_nothing_keeps_size : blur_keeps_size blur_nothing.
Proof. intros m sigma m' [= <-]. split; reflexivity. Qed.

Lemma blur_nothing_keeps_zero : blur_keeps_zero blur_nothing.
Proof. intros m sigma m' Hz [= <-]. exact Hz. Qed.

Lemma zeros_pyramid_built :
  buildGaussianPyramid blur_nothing (F64.of_Z 1) (F64.of_Z 1) (F64.of_Z 1)
                       zeros_16x16 [] 2 1 = Ok zeros_pyramid.
Proof. reflexivity. Qed.

(** [cleanPoints_division_unguarded] on the bump: the contrast test passes
    and the quotient 4 / 1 is taken. *)
Lemma cleanPoints_division_unguarded_witness :
  exists b,
    cleanPoints_with F32.div (1, 1) bump 10 contrast_003 F32.zero
    = Ok (b, [(F32.of_Z 4, F32.of_Z 1)]) /\
    b = negb (F32.lt (F32.of_Z 1) F32.zero
              || F32.gt (F32.div (F32.of_Z 4) (F32.of_Z 1)) (F32.of_Z 10)) /\
    (F32.lt (F32.of_Z 1) F32.zero = true -> b = false).
Proof.
  apply (cleanPoints_division_unguarded F32.div 1 1 bump 10 contrast_003 F32.zero
           (F32.of_Z 1) (F32.of_Z (-1), F32.of_Z (-1), F32.zero));
    vm_compute; reflexivity.
Defined.

(** [cleanPoints_rejects_below_floor] on the bump, of determinant 1 and
    ratio 4: rejected with the floor at 2, accepted with the floor at 1. *)
Lemma cleanPoints_rejects_below_floor_witness :
  cleanPoints (1, 1) bump 10 contrast_003 (F32.of_Z 2) = Ok false /\
  exists b,
    cleanPoints (1, 1) bump 10 contrast_003 (F32.of_Z 1) = Ok b /\
    (b = false <->
     F32.lt (F32.abs (F32.of_Z 1)) contrast_003 = true \/
     F32.gt (F32.div (trace_squared (F32.of_Z (-1), F32.of_Z (-1), F32.zero))
                     (determinant (F32.of_Z (-1), F32.of_Z (-1), F32.zero)))
            (F32.of_Z 10) = true).
Proof.
  split.
  - apply (cleanPoints_rejects_below_floor 1 1 bump 10 contrast_003 (F32.of_Z 2)
             (F32.of_Z 1) (F32.of_Z (-1), F32.of_Z (-1), F32.zero));
      vm_compute; reflexivity.
  - apply (cleanPoints_rejects_below_floor 1 1 bump 10 contrast_003 (F32.of_Z 1)
             (F32.of_Z 1) (F32.of_Z (-1), F32.of_Z (-1), F32.zero));
      vm_compute; reflexivity.
Defined.

(** C4, as stated, fails: with [nIntervals = 0], below the bound of the
    precondition, the builder returns one octave of three images and no
    error. *)
Lemma buildGaussianPyramid_accepts_no_interval :
  (1 <=? 0) = false /\
  buildGaussianPyramid blur_nothing (F64.of_Z 1) (F64.of_Z 1) (F64.of_Z 1)
                       zeros_16x16 [] 1 0
  = Ok [[zeros_16x16; zeros_16x16; zeros_16x16]].
Proof. split; reflexivity. Qed.

(** [buildGaussianPyramid_unchecked] under [blur_nothing], with no
    interval. *)
Lemma buildGaussianPyramid_unchecked_witness :
  exists pyr,
    buildGaussianPyramid blur_nothing (F64.of_Z 1) (F64.of_Z 1) (F64.of_Z 1)
                         zeros_16x16 [] 1 0 = Ok pyr.
Proof.
  apply (buildGaussianPyramid_unchecked blur_nothing (F64.of_Z 1) (F64.of_Z 1) (F64.of_Z 1)
           zeros_16x16 [] 1 0).
  intros m sigma. exists m. reflexivity.
Defined.

(** [buildDogPyr_of_pyramid] on [zeros_pyramid]. *)
Lemma buildDogPyr_of_pyramid_witness :
  exists dog_pyr,
    buildDogPyr zeros_pyramid = Ok dog_pyr /\
    size dog_pyr = 2 /\
    forall o, 0 <= o < 2 ->
      exists oct doct,
        vec_at zeros_pyramid o = Ok oct /\ vec_at dog_pyr o = Ok doct /\
        size oct = 1 + 3 /\ size doct = 1 + 2 /\
        (forall j, 0 <= j < 1 + 2 ->
           exists a b d, vec_at oct j = Ok a /\ vec_at oct (j + 1) = Ok b /\
                         vec_at doct j = Ok d /\
                         rows d = rows a /\ cols d = cols a /\
                         forall r c, px d r c = F32.sub (px a r c) (px b r c)) /\
        (forall d m, In d doct -> In m oct -> same_size d m).
Proof.
  apply (buildDogPyr_of_pyramid blur_nothing (F64.of_Z 1) (F64.of_Z 1) (F64.of_Z 1)
           zeros_16x16 zeros_pyramid 2 1 blur_nothing_keeps_size);
    [lia | lia | reflexivity].
Defined.

(** [pyramid_octave_halves] on [zeros_pyramid]: 16 x 16, then 8 x 8. *)
Lemma pyramid_octave_halves_witness :
  exists base base' blurred,
    octave_base blur_nothing (F64.of_Z 1) (Z.to_nat 0) zeros_16x16 = Ok base /\
    octave_base blur_nothing (F64.of_Z 1) (Z.to_nat (0 + 1)) zeros_16x16 = Ok base' /\
    downSample blur_nothing (F64.of_Z 1) base = Ok base' /\
    blur_nothing base (F64.of_Z 1) = Ok blurred /\
    rows base' = rows (every_second_row (every_second_column blurred)) /\
    cols base' = cols (every_second_row (every_second_column blurred)) /\
    (forall r c, px base' r c = px (every_second_row (every_second_column blurred)) r c) /\
    rows base' = rows base / 2 /\ cols base' = cols base / 2 /\
    (forall j j' a b, pyr_at zeros_pyramid 0 j = Ok a ->
                      pyr_at zeros_pyramid (0 + 1) j' = Ok b ->
                      same_size a base /\ same_size b base' /\
                      rows b = rows a / 2 /\ cols b = cols a / 2).
Proof.
  apply (pyramid_octave_halves blur_nothing (F64.of_Z 1) (F64.of_Z 1) (F64.of_Z 1)
           zeros_16x16 zeros_pyramid 2 1 blur_nothing_keeps_size);
    [simpl; lia | simpl; lia | reflexivity | lia | lia].
Defined.

(** [zero_image_no_extrema] on [zeros_pyramid], with a border of 5. *)
Lemma zero_image_no_extrema_witness :
  exists dog_pyr,
    buildDogPyr zeros_pyramid = Ok dog_pyr /\
    (forall o j m, pyr_at dog_pyr o j = Ok m -> all_zero m) /\
    (forall i j, 0 <= i < 2 -> 1 <= j <= 1 ->
                 scan_interval 5 contrast_003 F32.zero dog_pyr 10 i j [] = Ok []) /\
    getScaleSpaceExtrema 5 contrast_003 F32.zero dog_pyr [] 10 = Ok [].
Proof.
  apply (zero_image_no_extrema blur_nothing (F64.of_Z 1) (F64.of_Z 1) (F64.of_Z 1)
           5 contrast_003 F32.zero zeros_16x16 zeros_pyramid 2 1 10 []
           blur_nothing_keeps_size blur_nothing_keeps_zero);
    [lia | intros r c; reflexivity | lia | lia | reflexivity].
Defined.

(** The stand-in answers with 0, 90, 180 and 270 degrees: bins 0, 9, 18
    and 27. *)
Lemma atan2f_on_axes_in_bins : angles_in_bins pi_double atan2f_on_axes.
Proof.
  intros dy dx. unfold atan2f_on_axes.
  destruct (F32.gt dx F32.zero); [| destruct (F32.lt dx F32.zero);
    [| destruct (F32.gt dy F32.zero); [| destruct (F32.lt dy F32.zero)]]];
    eexists; (split; [vm_compute; reflexivity | lia]).
Qed.

(** The run of the estimator on [two_axes]: two gradients fall in bin 0 and
    two in bin 9; the first of the two bins wins, and the angle is 5. *)
Lemma two_axes_run :
  { this' : SIFT |
    computeOrientationHist 1 pi_double atan2f_on_axes [[two_axes]] [centre_keypoint]
                           no_patches
    = Ok ([{| kp_x := 2; kp_y := 2; kp_size := 0; kp_angle := 5;
              kp_response := 0; kp_octave := 0 |}], this') }.
Proof. eexists. vm_compute. reflexivity. Defined.

(** The centre of [two_axes] can be oriented with the half-size 1. *)
Lemma centre_keypoint_orientable :
  forall kp, In kp [centre_keypoint] ->
             orientable 1 pi_double atan2f_on_axes [[two_axes]] kp.
Proof.
  intros kp [<- | []]. exists two_axes. split; [reflexivity |].
  intros _. split.
  - repeat split; vm_compute; congruence.
  - intros i j _ _. unfold gradient_at. apply atan2f_on_axes_in_bins.
Qed.


(** [boundary_keypoint_kept] on [dog_spikes 5] with the border 5 and the
    half-size 8: the window leaves the 11 x 11 image around the keypoint at
    (5, 5). *)
Lemma boundary_keypoint_kept_witness :
  List.length (keypointsGradients no_patches)
  = (List.length (keypointsGradients no_patches)
     + List.length (filter (has_window 8 (dog_spikes 5)) [keypoint_at 5 5]))%nat /\
  has_window 8 (dog_spikes 5) (keypoint_at 5 5) = false /\
  (forall before,
      orient_keypoint 8 pi_double atan2f_on_axes (dog_spikes 5) (keypoint_at 5 5) before
      = Ok (keypoint_at 5 5, before)) /\
  nth_error [keypoint_at 5 5] 0 = Some (keypoint_at 5 5) /\
  kp_angle (keypoint_at 5 5) = -1.
Proof.
  destruct (boundary_keypoint_kept 5 contrast_003 F32.zero 8 pi_double atan2f_on_axes
              (dog_spikes 5) 10 [keypoint_at 5 5] [keypoint_at 5 5] no_patches no_patches)
    as (_ & Hpatches & _ & Hkept); [vm_compute; reflexivity | reflexivity |].
  split; [exact Hpatches |].
  apply (Hkept 0%nat (keypoint_at 5 5)
               (spike_at (2 * 5 + 1) (2 * 5 + 1) 5 5 (F32.of_Z 1)) eq_refl eq_refl).
  unfold window_exceeds. simpl. lia.
Defined.

(** [gradient_patch_reads_outside] with the half-size 8, on the image of
    18 rows and 36 columns and the keypoint at column 12, row 9 of
    [estimator_leaves_image]. *)
Lemma gradient_patch_reads_outside_witness :
  inside two_bumps (12 + (8 * 2 - 1) + 1 - 8) (9 - 8 + 0) = false /\
  forall patch, gradient_patch 8 pi_double atan2f_on_axes two_bumps 12 9 <> Ok patch.
Proof.
  apply (gradient_patch_reads_outside 8 pi_double atan2f_on_axes two_bumps 12 9);
    [lia | reflexivity | simpl; lia].
Defined.

(** [isExtrema_skips_scale_neighbours] with the border 5. *)
Lemma isExtrema_skips_scale_neighbours_witness :
  (forall m0, pyr_at (dog_spikes 5) 0 0 = Ok m0 ->
              counting 5 (rows m0 - 5) = [5] /\ counting 5 (cols m0 - 5) = [5]) /\
  (m <- pyr_at (dog_spikes 5) 0 1 ;; at_ m 5 5) = Ok (F32.of_Z 1) /\
  F32.gt (F32.of_Z 1) (F32.of_Z 0) = true /\
  (m <- pyr_at (dog_spikes 5) 0 (1 + 1) ;; at_ m (5 + 0) (5 + 0)) = Ok (F32.of_Z 2) /\
  F32.gt (F32.of_Z 1) (F32.of_Z 2) = false /\
  isExtrema (dog_spikes 5) 0 1 5 5 = Ok true.
Proof. apply (isExtrema_skips_scale_neighbours 5). lia. Defined.

(** * Further properties *)

(** ** The detector *)

(** A loop whose body appends to a vector, by whatever the iteration
    decides, appends the concatenation of what its iterations append. *)
Lemma for_each_appends {A} (body : Z -> list A -> res (list A)) (g : Z -> list A) :
  forall l s s',
    (forall i s s', In i l -> body i s = Ok s' -> s' = s ++ g i) ->
    for_each l body s = Ok s' ->
    s' = s ++ flat_map g l.
Proof.
  induction l as [|i l IH]; simpl; intros s s' Hbody H.
  - injection H as <-. now rewrite app_nil_r.
  - inv_bind H as s1 E.
    rewrite (IH s1 s'); [| intros; eapply Hbody; eauto | exact H].
    rewrite (Hbody i s s1 (or_introl eq_refl) E). now rewrite app_assoc.
Qed.

Section DetectorListFacts.
Variable SIFT_IMG_BORDER : Z.
Variables SIFT_CONTR_THR SIFT_DETER_THR : float.

Local Notation B := SIFT_IMG_BORDER.
Local Notation scan_pixel_ := (scan_pixel SIFT_CONTR_THR SIFT_DETER_THR).
Local Notation scan_interval_ :=
  (scan_interval SIFT_IMG_BORDER SIFT_CONTR_THR SIFT_DETER_THR).
Local Notation getScaleSpaceExtrema_ :=
  (getScaleSpaceExtrema SIFT_IMG_BORDER SIFT_CONTR_THR SIFT_DETER_THR).
Local Notation accepted_ := (accepted SIFT_CONTR_THR SIFT_DETER_THR).
Local Notation extrema_of_interval_ :=
  (extrema_of_interval SIFT_IMG_BORDER SIFT_CONTR_THR SIFT_DETER_THR).
Local Notation extrema_of_ :=
  (extrema_of SIFT_IMG_BORDER SIFT_CONTR_THR SIFT_DETER_THR).

Lemma scan_pixel_appends (dog_pyr : list (list Mat)) (curv_thr i j r c : Z)
      (keypoints keypoints' : list KeyPoint) :
  scan_pixel_ dog_pyr curv_thr i j r c keypoints = Ok keypoints' ->
  keypoints' = keypoints ++ (if accepted_ dog_pyr curv_thr i j r c
                             then [detected i j r c] else []).
Proof.
  unfold scan_pixel, accepted. intros H.
  inv_bind H as e Ee. rewrite Ee. destruct e.
  - inv_bind H as image Ei. rewrite Ei. inv_bind H as good Eg. rewrite Eg.
    destruct good; injection H as <-; [reflexivity | now rewrite app_nil_r].
  - injection H as <-. now rewrite app_nil_r.
Qed.

Lemma scan_interval_appends (dog_pyr : list (list Mat)) (curv_thr i j : Z)
      (keypoints keypoints' : list KeyPoint) :
  scan_interval_ dog_pyr curv_thr i j keypoints = Ok keypoints' ->
  keypoints' = keypoints ++ extrema_of_interval_ dog_pyr curv_thr i j.
Proof.
  unfold scan_interval, extrema_of_interval. intros H.
  inv_bind H as m0 E0. rewrite E0.
  revert H. apply for_each_appends. intros r s s' _.
  apply for_each_appends. intros c s1 s1' _. apply scan_pixel_appends.
Qed.

Lemma getScaleSpaceExtrema_appends (dog_pyr : list (list Mat)) (curv_thr : Z)
      (keypoints keypoints' : list KeyPoint) :
  getScaleSpaceExtrema_ dog_pyr keypoints curv_thr = Ok keypoints' ->
  keypoints' = keypoints ++ extrema_of_ dog_pyr curv_thr.
Proof.
  unfold getScaleSpaceExtrema, extrema_of. intros H.
  inv_bind H as first E0. rewrite E0.
  revert H. apply for_each_appends. intros i s s' _.
  apply for_each_appends. intros j s1 s1' _. apply scan_interval_appends.
Qed.
End DetectorListFacts.

Lemma sorted_app {A} (R : A -> A -> Prop) (l1 l2 : list A) :
  StronglySorted R l1 -> StronglySorted R l2 ->
  (forall a b, In a l1 -> In b l2 -> R a b) ->
  StronglySorted R (l1 ++ l2).
Proof.
  induction l1 as [|x l1 IH]; simpl; intros H1 H2 H12; [exact H2 |].
  inversion H1 as [|? ? Hs Hx]; subst. constructor.
  - apply IH; auto.
  - apply Forall_app. split; [exact Hx |].
    apply Forall_forall. intros b Hb. apply H12; auto.
Qed.

Lemma sorted_flat_map {A} (R : A -> A -> Prop) (f : Z -> list A) :
  forall l,
    StronglySorted Z.lt l ->
    (forall i, In i l -> StronglySorted R (f i)) ->
    (forall i i' a b, In i l -> In i' l -> i < i' -> In a (f i) -> In b (f i') -> R a b) ->
    StronglySorted R (flat_map f l).
Proof.
  induction l as [|i l IH]; simpl; intros Hl Hf Hlt; [constructor |].
  inversion Hl as [|? ? Hs Hi]; subst. rewrite Forall_forall in Hi.
  apply sorted_app.
  - apply Hf. now left.
  - apply IH; [exact Hs | intros; apply Hf; now right |].
    intros i1 i2 a b H1 H2. apply Hlt; now right.
  - intros a b Ha Hb. apply in_flat_map in Hb. destruct Hb as (i' & Hi' & Hb).
    apply (Hlt i i' a b); auto.
Qed.

Lemma counting_sorted lo hi : StronglySorted Z.lt (counting lo hi).
Proof.
  remember (Z.to_nat (hi - lo)) as n eqn:Hn. revert lo Hn.
  induction n as [|n IH]; intros lo Hn.
  - rewrite counting_nil by lia. constructor.
  - rewrite counting_cons by lia. constructor; [apply IH; lia |].
    apply Forall_forall. intros k Hk. apply counting_In in Hk. lia.
Qed.

Section DetectorOrder.
Variable SIFT_IMG_BORDER : Z.
Variables SIFT_CONTR_THR SIFT_DETER_THR : float.

Local Notation B := SIFT_IMG_BORDER.
Local Notation getScaleSpaceExtrema_ :=
  (getScaleSpaceExtrema SIFT_IMG_BORDER SIFT_CONTR_THR SIFT_DETER_THR).
Local Notation accepted_ := (accepted SIFT_CONTR_THR SIFT_DETER_THR).
Local Notation extrema_of_interval_ :=
  (extrema_of_interval SIFT_IMG_BORDER SIFT_CONTR_THR SIFT_DETER_THR).
Local Notation extrema_of_ :=
  (extrema_of SIFT_IMG_BORDER SIFT_CONTR_THR SIFT_DETER_THR).

Lemma accepted_true (dog_pyr : list (list Mat)) (curv_thr i j r c : Z) :
  accepted_ dog_pyr curv_thr i j r c = true <->
  isExtrema dog_pyr i j r c = Ok true /\
  exists image, pyr_at dog_pyr i j = Ok image /\
                cleanPoints (c, r) image curv_thr SIFT_CONTR_THR SIFT_DETER_THR = Ok true.
Proof.
  unfold accepted. split.
  - destruct (isExtrema dog_pyr i j r c) as [[|]| |]; try discriminate.
    destruct (pyr_at dog_pyr i j) as [image| |]; try discriminate.
    destruct (cleanPoints (c, r) image curv_thr SIFT_CONTR_THR SIFT_DETER_THR)
      as [[|]| |] eqn:E; try discriminate.
    intros _. split; [reflexivity |]. exists image. auto.
  - intros (-> & image & -> & ->). reflexivity.
Qed.

Lemma In_extrema_of_interval (dog_pyr : list (list Mat)) (curv_thr i j : Z) (kp : KeyPoint) :
  In kp (extrema_of_interval_ dog_pyr curv_thr i j) <->
  exists m0 r c,
    pyr_at dog_pyr i 0 = Ok m0 /\
    B <= r < rows m0 - B /\ B <= c < cols m0 - B /\
    accepted_ dog_pyr curv_thr i j r c = true /\
    kp = detected i j r c.
Proof.
  unfold extrema_of_interval. split.
  - destruct (pyr_at dog_pyr i 0) as [m0| |]; [| contradiction | contradiction].
    intros H. apply in_flat_map in H. destruct H as (r & Hr & H).
    apply in_flat_map in H. destruct H as (c & Hc & H).
    apply counting_In in Hr, Hc.
    destruct (accepted_ dog_pyr curv_thr i j r c) eqn:Ea; [| contradiction].
    destruct H as [<- | []]. exists m0, r, c. auto.
  - intros (m0 & r & c & -> & Hr & Hc & Ea & ->).
    apply in_flat_map. exists r. split; [now apply counting_In |].
    apply in_flat_map. exists c. split; [now apply counting_In |].
    rewrite Ea. now left.
Qed.

Lemma In_extrema_of (dog_pyr : list (list Mat)) (curv_thr : Z) (kp : KeyPoint) :
  In kp (extrema_of_ dog_pyr curv_thr) <->
  exists first i j,
    vec_at dog_pyr 0 = Ok first /\
    0 <= i < size dog_pyr /\ 1 <= j <= size first - 2 /\
    In kp (extrema_of_interval_ dog_pyr curv_thr i j).
Proof.
  unfold extrema_of. split.
  - destruct (vec_at dog_pyr 0) as [first| |]; [| contradiction | contradiction].
    intros H. apply in_flat_map in H. destruct H as (i & Hi & H).
    apply in_flat_map in H. destruct H as (j & Hj & H).
    apply counting_In in Hi, Hj. exists first, i, j.
    repeat split; try lia. exact H.
  - intros (first & i & j & -> & Hi & Hj & H).
    apply in_flat_map. exists i. split; [apply counting_In; lia |].
    apply in_flat_map. exists j. split; [apply counting_In; lia | exact H].
Qed.

Lemma extrema_of_interval_sorted (dog_pyr : list (list Mat)) (curv_thr i j : Z) :
  StronglySorted scanned_before (extrema_of_interval_ dog_pyr curv_thr i j).
Proof.
  unfold extrema_of_interval.
  destruct (pyr_at dog_pyr i 0) as [m0| |]; [| constructor | constructor].
  assert (Hcell : forall r c kp,
             In kp (if accepted_ dog_pyr curv_thr i j r c then [detected i j r c] else []) ->
             kp = detected i j r c).
  { intros r c kp. destruct (accepted_ dog_pyr curv_thr i j r c); [| contradiction].
    intros [<- | []]. reflexivity. }
  apply sorted_flat_map; [apply counting_sorted | |].
  - intros r _. apply sorted_flat_map; [apply counting_sorted | |].
    + intros c _. destruct (accepted_ dog_pyr curv_thr i j r c); repeat constructor.
    + intros c c' a b _ _ Hlt Ha Hb.
      apply Hcell in Ha, Hb. subst. unfold scanned_before. simpl. lia.
  - intros r r' a b _ _ Hlt Ha Hb.
    apply in_flat_map in Ha, Hb.
    destruct Ha as (c & _ & Ha), Hb as (c' & _ & Hb).
    apply Hcell in Ha, Hb. subst. unfold scanned_before. simpl. lia.
Qed.

Lemma extrema_of_sorted (dog_pyr : list (list Mat)) (curv_thr : Z) :
  StronglySorted scanned_before (extrema_of_ dog_pyr curv_thr).
Proof.
  unfold extrema_of.
  destruct (vec_at dog_pyr 0) as [first| |]; [| constructor | constructor].
  assert (Hshape : forall i j kp, In kp (extrema_of_interval_ dog_pyr curv_thr i j) ->
                                  kp_octave kp = i /\ kp_size kp = j).
  { intros i j kp H. apply In_extrema_of_interval in H.
    destruct H as (m0 & r & c & _ & _ & _ & _ & ->). split; reflexivity. }
  apply sorted_flat_map; [apply counting_sorted | |].
  - intros i _. apply sorted_flat_map; [apply counting_sorted | |].
    + intros j _. apply extrema_of_interval_sorted.
    + intros j j' a b _ _ Hlt Ha Hb.
      apply Hshape in Ha, Hb. unfold scanned_before. lia.
  - intros i i' a b _ _ Hlt Ha Hb.
    apply in_flat_map in Ha, Hb.
    destruct Ha as (j & _ & Ha), Hb as (j' & _ & Hb).
    apply Hshape in Ha, Hb. unfold scanned_before. lia.
Qed.

(** X1: in a run of the detector that returns, the keypoints of the caller
    are kept in front, and the keypoints appended are exactly those of the
    pixels that the scan visits (octave [i], interval [j] from 1 to the
    number of difference images of the first octave less 2, row [r] and
    column [c] at least [SIFT_IMG_BORDER] from the sides of the first image
    of the octave) and that pass [isExtrema] and then [cleanPoints]; each is
    [KeyPoint(c, r, j, -1, 0, i)]. *)
Theorem detector_reports_exactly
        (dog_pyr : list (list Mat)) (curv_thr : Z) (keypoints keypoints' : list KeyPoint) :
  getScaleSpaceExtrema_ dog_pyr keypoints curv_thr = Ok keypoints' ->
  exists new,
    keypoints' = keypoints ++ new /\
    forall kp,
      In kp new <->
      exists first m0 i j r c image,
        vec_at dog_pyr 0 = Ok first /\
        0 <= i < size dog_pyr /\ 1 <= j <= size first - 2 /\
        pyr_at dog_pyr i 0 = Ok m0 /\
        B <= r < rows m0 - B /\ B <= c < cols m0 - B /\
        isExtrema dog_pyr i j r c = Ok true /\
        pyr_at dog_pyr i j = Ok image /\
        cleanPoints (c, r) image curv_thr SIFT_CONTR_THR SIFT_DETER_THR = Ok true /\
        kp = {| kp_x := c; kp_y := r; kp_size := j; kp_angle := -1;
                kp_response := 0; kp_octave := i |}.
Proof.
  intros H. exists (extrema_of_ dog_pyr curv_thr).
  split; [now apply getScaleSpaceExtrema_appends |].
  intros kp. rewrite In_extrema_of. split.
  - intros (first & i & j & E0 & Hi & Hj & Hin).
    apply In_extrema_of_interval in Hin.
    destruct Hin as (m0 & r & c & Em0 & Hr & Hc & Ha & ->).
    apply accepted_true in Ha. destruct Ha as (He & image & Ei & Eg).
    exists first, m0, i, j, r, c, image. auto 12.
  - intros (first & m0 & i & j & r & c & image & E0 & Hi & Hj & Em0 & Hr & Hc
            & He & Ei & Eg & ->).
    exists first, i, j. repeat (split; [assumption |]).
    apply In_extrema_of_interval. exists m0, r, c.
    repeat (split; [assumption |]). split; [| reflexivity].
    apply accepted_true. split; [exact He |]. exists image. auto.
Qed.

(** X2: the keypoints that a run of the detector appends are in the order
    of the scan, strictly increasing by octave, then interval, then row, then
    column: no pixel is reported twice. *)
Theorem detector_reports_in_scan_order
        (dog_pyr : list (list Mat)) (curv_thr : Z) (keypoints keypoints' : list KeyPoint) :
  getScaleSpaceExtrema_ dog_pyr keypoints curv_thr = Ok keypoints' ->
  exists new,
    keypoints' = keypoints ++ new /\
    StronglySorted scanned_before new /\
    NoDup new.
Proof.
  intros H. exists (extrema_of_ dog_pyr curv_thr).
  split; [now apply getScaleSpaceExtrema_appends |].
  pose proof (extrema_of_sorted dog_pyr curv_thr) as Hs.
  split; [exact Hs |].
  induction Hs as [|a l Hs IH Ha]; constructor; [| exact IH].
  intros Hin. rewrite Forall_forall in Ha. specialize (Ha a Hin).
  unfold scanned_before in Ha. lia.
Qed.
End DetectorOrder.

(** ** The reads of the validator and of the detector *)

Lemma at_Ok_iff (m : Mat) (r c : Z) :
  (exists v, at_ m r c = Ok v) <-> inside m r c = true.
Proof.
  unfold at_. destruct (inside m r c); split; intros H; eauto.
  - destruct H as (v & H). discriminate.
  - discriminate.
Qed.

Lemma hessian_Ok_iff (image : Mat) (rx ry : Z) :
  (exists h, hessian image rx ry = Ok h) <->
  1 <= rx /\ rx + 1 < rows image /\ 1 <= ry /\ ry + 1 < cols image.
Proof.
  split.
  - intros (h & H). unfold hessian in H.
    inv_bind H as a1 E1. inv_bind H as a2 E2. inv_bind H as a3 E3.
    inv_bind H as a4 E4. inv_bind H as a5 E5.
    apply at_Ok in E1, E2, E4, E5. lia.
  - intros H. unfold hessian. rewrite !at_inside by lia. cbn [bind]. eauto.
Qed.

(** The runs of [cleanPoints] that return. *)
Lemma cleanPoints_returns
        (x y : Z) (image : Mat) (curv_thr : Z) (cont_thr dtr_thr : float) :
  (exists b, cleanPoints (x, y) image curv_thr cont_thr dtr_thr = Ok b) <->
  inside image y x = true /\
  (F32.lt (F32.abs (px image y x)) cont_thr = true \/
   (1 <= x /\ x + 1 < rows image /\ 1 <= y /\ y + 1 < cols image)).
Proof.
  unfold cleanPoints, cleanPoints_traced, cleanPoints_with. split.
  - intros (b & H). inv_bind H as t Et. inv_bind Et as v Ev.
    pose proof (at_Ok _ _ _ _ Ev) as (Hr & Hc & ->).
    split; [apply inside_true; lia |].
    destruct (F32.lt (F32.abs (px image y x)) cont_thr); [now left | right].
    inv_bind Et as h Eh. apply hessian_Ok_iff. eauto.
  - intros (Hin & Hcase). apply inside_true in Hin.
    rewrite at_inside by lia. cbn [bind].
    destruct (F32.lt (F32.abs (px image y x)) cont_thr) eqn:Ec.
    + cbn [bind fst]. eauto.
    + destruct Hcase as [Hc | Hblock]; [discriminate |].
      apply hessian_Ok_iff in Hblock. destruct Hblock as (h & ->). cbn [bind].
      destruct (F32.lt (determinant h) dtr_thr
                || F32.gt (F32.div (trace_squared h) (determinant h)) (F32.of_Z curv_thr));
        cbn [bind fst]; eauto.
Qed.

(** X3: [cleanPoints] at the position [(x, y)] returns exactly when the
    contrast pixel, at row [y] and column [x], is inside the image and either
    the contrast test rejects the candidate or the 3 x 3 block around row [x]
    and column [y], where the finite differences are taken, is inside the
    image too; in every other case a read leaves the image. *)
Theorem cleanPoints_returns_iff
        (x y : Z) (image : Mat) (curv_thr : Z) (cont_thr dtr_thr : float) :
  (exists b, cleanPoints (x, y) image curv_thr cont_thr dtr_thr = Ok b) <->
  inside image y x = true /\
  (F32.lt (F32.abs (px image y x)) cont_thr = true \/
   (1 <= x /\ x + 1 < rows image /\ 1 <= y /\ y + 1 < cols image)).
Proof. apply cleanPoints_returns. Qed.

Section DetectorSafety.
Variable SIFT_IMG_BORDER : Z.
Variables SIFT_CONTR_THR SIFT_DETER_THR : float.

Local Notation B := SIFT_IMG_BORDER.
Local Notation scan_pixel_ := (scan_pixel SIFT_CONTR_THR SIFT_DETER_THR).
Local Notation scan_interval_ :=
  (scan_interval SIFT_IMG_BORDER SIFT_CONTR_THR SIFT_DETER_THR).
Local Notation getScaleSpaceExtrema_ :=
  (getScaleSpaceExtrema SIFT_IMG_BORDER SIFT_CONTR_THR SIFT_DETER_THR).

Lemma scan_pixel_square (dog_pyr : list (list Mat)) (oct : list Mat)
      (curv_thr i j r c side : Z) (keypoints : list KeyPoint) :
  vec_at dog_pyr i = Ok oct ->
  1 <= j -> j + 1 < size oct ->
  (forall m, In m oct -> rows m = side /\ cols m = side) ->
  1 <= r -> r + 1 < side -> 1 <= c -> c + 1 < side ->
  exists keypoints', scan_pixel_ dog_pyr curv_thr i j r c keypoints = Ok keypoints'.
Proof.
  intros Eoct Hj Hj' Hside Hr Hr' Hc Hc'.
  destruct (vec_at_inside oct (j + -1) ltac:(lia)) as (ma & Ea).
  destruct (vec_at_inside oct (j + 0) ltac:(lia)) as (mb & Eb).
  destruct (vec_at_inside oct (j + 1) ltac:(lia)) as (mc & Ec).
  pose (M := fun k : Z => if k =? -1 then ma else if k =? 0 then mb else mc).
  destruct (isExtrema_compares_24 dog_pyr i j r c M) as (e & Ee & _).
  { intros k Hk.
    assert (Hm : vec_at oct (j + k) = Ok (M k)).
    { destruct Hk as [<- | [<- | [<- | []]]]; assumption. }
    unfold pyr_at. rewrite Eoct. cbn [bind]. split; [exact Hm |].
    apply vec_at_Ok in Hm. destruct Hm as [_ Hm]. apply nth_error_In in Hm.
    destruct (Hside _ Hm) as [-> ->]. lia. }
  unfold scan_pixel. rewrite Ee. cbn [bind]. destruct e; [| eauto].
  rewrite Z.add_0_r in Eb. unfold pyr_at. rewrite Eoct. cbn [bind]. rewrite Eb. cbn [bind].
  assert (Hmb : rows mb = side /\ cols mb = side).
  { apply Hside. apply vec_at_Ok in Eb. eapply nth_error_In, Eb. }
  destruct Hmb as [Hrb Hcb].
  destruct (proj2 (cleanPoints_returns c r mb curv_thr SIFT_CONTR_THR SIFT_DETER_THR))
    as (good & ->).
  { split; [apply inside_true; lia | right; lia]. }
  cbn [bind]. destruct good; eauto.
Qed.

(** X4: on a pyramid of square difference images, of one size within an
    octave and as many in every octave, the detector with a border of at
    least 1 returns: none of its reads leaves an image. *)
Theorem detector_returns_on_square_images
        (dog_pyr : list (list Mat)) (n curv_thr : Z) (keypoints : list KeyPoint) :
  1 <= B ->
  0 < size dog_pyr ->
  (forall oct, In oct dog_pyr -> size oct = n) ->
  (forall oct a b, In oct dog_pyr -> In a oct -> In b oct -> same_size a b) ->
  (forall oct m, In oct dog_pyr -> In m oct -> rows m = cols m) ->
  exists keypoints', getScaleSpaceExtrema_ dog_pyr keypoints curv_thr = Ok keypoints'.
Proof.
  intros HB Hpos Hn Hsame Hsq. unfold getScaleSpaceExtrema.
  destruct (vec_at_inside dog_pyr 0 ltac:(lia)) as (first & Efirst).
  rewrite Efirst. cbn [bind].
  assert (Hfirst : size first = n).
  { apply Hn. apply vec_at_Ok in Efirst. eapply nth_error_In, Efirst. }
  rewrite Hfirst.
  assert (Hloop : forall (body : Z -> list KeyPoint -> res (list KeyPoint)) lo hi s,
             (forall k s, lo <= k < hi -> exists s', body k s = Ok s') ->
             exists s', for_each (counting lo hi) body s = Ok s').
  { intros body lo hi s Hbody.
    destruct (for_each_counting (fun _ _ => True) body lo hi s I) as (s' & E & _).
    - intros k s0 Hk _. destruct (Hbody k s0 Hk) as (s' & E). eauto.
    - eauto. }
  apply Hloop. intros i s Hi.
  destruct (vec_at_inside dog_pyr i ltac:(lia)) as (oct & Eoct).
  assert (Hin : In oct dog_pyr).
  { apply vec_at_Ok in Eoct. eapply nth_error_In, Eoct. }
  pose proof (Hn oct Hin) as Hsz.
  apply Hloop. intros j s1 Hj.
  unfold scan_interval, pyr_at. rewrite Eoct. cbn [bind].
  destruct (vec_at_inside oct 0 ltac:(lia)) as (m0 & E0). rewrite E0. cbn [bind].
  assert (Hin0 : In m0 oct).
  { apply vec_at_Ok in E0. eapply nth_error_In, E0. }
  assert (Hside : forall m, In m oct -> rows m = rows m0 /\ cols m = rows m0).
  { intros m Hm. destruct (Hsame oct m m0 Hin Hm Hin0) as [Hr Hc].
    pose proof (Hsq oct m Hin Hm). lia. }
  pose proof (Hsq oct m0 Hin Hin0) as Hsq0.
  apply Hloop. intros r s2 Hr.
  apply Hloop. intros c s3 Hc.
  apply (scan_pixel_square dog_pyr oct curv_thr i j r c (rows m0)); auto; lia.
Qed.
End DetectorSafety.

(** ** Sizes and sigmas of the pyramid *)

Section PyramidMore.
Variable GaussianBlur : Mat -> double -> res Mat.
Variables SIFT_INIT_SIGMA SIFT_STEP_SIGMA INTERPOLATION_SIGMA : double.

Local Notation downSample_ := (downSample GaussianBlur INTERPOLATION_SIGMA).
Local Notation blur_interval_ := (blur_interval GaussianBlur SIFT_STEP_SIGMA).
Local Notation build_octave_ :=
  (build_octave GaussianBlur SIFT_INIT_SIGMA SIFT_STEP_SIGMA INTERPOLATION_SIGMA).
Local Notation buildGaussianPyramid_ :=
  (buildGaussianPyramid GaussianBlur SIFT_INIT_SIGMA SIFT_STEP_SIGMA INTERPOLATION_SIGMA).
Local Notation octave_base_ := (octave_base GaussianBlur INTERPOLATION_SIGMA).
Local Notation blur_keeps_size_ := (blur_keeps_size GaussianBlur).
Local Notation sigma_at_ := (sigma_at SIFT_INIT_SIGMA SIFT_STEP_SIGMA).

Lemma blur_intervals_sigma (tempImage : Mat) (n : Z) (sigma' : double) (ivs : list Mat) :
  for_each (counting 0 n) (blur_interval_ tempImage) (SIFT_INIT_SIGMA, [])
  = Ok (sigma', ivs) ->
  List.length ivs = Z.to_nat n /\
  forall j m, nth_error ivs j = Some m -> GaussianBlur tempImage (sigma_at_ j) = Ok m.
Proof.
  intros Hrun.
  pose (P := fun (k : Z) (s : double * list Mat) =>
               fst s = sigma_at_ (Z.to_nat k) /\
               List.length (snd s) = Z.to_nat k /\
               forall j m, nth_error (snd s) j = Some m ->
                           GaussianBlur tempImage (sigma_at_ j) = Ok m).
  assert (HP : P (Z.max 0 n) (sigma', ivs)).
  { apply (for_each_counting_Ok P _ _ _ _ _ Hrun).
    - repeat split. intros [|j] m; discriminate.
    - intros k [sg l] s' Hk (Hsg & Hlen & Hall) Hbody. simpl in Hsg, Hlen, Hall.
      unfold blur_interval in Hbody. inv_bind Hbody as b Eb. injection Hbody as <-.
      unfold P. simpl. split; [| split].
      + replace (Z.to_nat (k + 1)) with (S (Z.to_nat k)) by lia. simpl. now rewrite Hsg.
      + rewrite length_app. simpl. lia.
      + intros j m Hj.
        destruct (Nat.lt_ge_cases j (List.length l)) as [Hlt | Hge].
        * rewrite nth_error_app1 in Hj by exact Hlt. now apply Hall.
        * rewrite nth_error_app2 in Hj by exact Hge.
          destruct (j - List.length l)%nat as [|d] eqn:Ed; simpl in Hj.
          -- injection Hj as <-. replace j with (Z.to_nat k) by lia.
             rewrite <- Hsg. exact Eb.
          -- destruct d; discriminate. }
  destruct HP as (_ & Hlen & Hall). simpl in Hlen, Hall. split; [lia | exact Hall].
Qed.

Lemma pyramid_octaves_sigma (image : Mat) (gauss_pyr : list (list Mat))
      (nOctaves nIntervals : Z) (t : Mat) (pyr : list (list Mat)) :
  for_each (counting 0 nOctaves) (build_octave_ nIntervals) (image, gauss_pyr)
  = Ok (t, pyr) ->
  exists octs,
    pyr = gauss_pyr ++ octs /\
    List.length octs = Z.to_nat nOctaves /\
    forall o oct, nth_error octs o = Some oct ->
      exists base,
        octave_base_ o image = Ok base /\
        List.length oct = Z.to_nat (nIntervals + 3) /\
        forall j m, nth_error oct j = Some m -> GaussianBlur base (sigma_at_ j) = Ok m.
Proof.
  intros Hrun.
  pose (P := fun (k : Z) (s : Mat * list (list Mat)) =>
               octave_base_ (Z.to_nat k) image = Ok (fst s) /\
               exists octs,
                 snd s = gauss_pyr ++ octs /\
                 List.length octs = Z.to_nat k /\
                 forall o oct, nth_error octs o = Some oct ->
                   exists base,
                     octave_base_ o image = Ok base /\
                     List.length oct = Z.to_nat (nIntervals + 3) /\
                     forall j m, nth_error oct j = Some m ->
                                 GaussianBlur base (sigma_at_ j) = Ok m).
  assert (HP : P (Z.max 0 nOctaves) (t, pyr)).
  { apply (for_each_counting_Ok P _ _ _ _ _ Hrun).
    - split; [reflexivity |]. exists []. simpl. rewrite app_nil_r.
      repeat split. intros [|o] oct; discriminate.
    - intros k [t0 gp] s' Hk (Hbase & octs & Hl & Hlen & Hocts) Hbody.
      simpl in Hbase, Hl. subst gp.
      unfold build_octave in Hbody.
      inv_bind Hbody as [sg ivs] Eivs. inv_bind Hbody as t1 Et. injection Hbody as <-.
      apply blur_intervals_sigma in Eivs. destruct Eivs as [Hn Hall].
      unfold P. simpl. split.
      + replace (Z.to_nat (k + 1)) with (S (Z.to_nat k)) by lia. simpl.
        rewrite Hbase. exact Et.
      + exists (octs ++ [ivs]). split; [now rewrite app_assoc |].
        split; [rewrite length_app; simpl; lia |].
        intros o oct Ho.
        destruct (Nat.lt_ge_cases o (List.length octs)) as [Hlt | Hge].
        * rewrite nth_error_app1 in Ho by exact Hlt. eauto.
        * rewrite nth_error_app2 in Ho by exact Hge.
          destruct (o - List.length octs)%nat as [|d] eqn:Ed; simpl in Ho.
          -- injection Ho as <-. replace o with (Z.to_nat k) by lia.
             exists t0. auto.
          -- destruct d; discriminate. }
  destruct HP as (_ & octs & Hl & Hlen & Hocts). simpl in Hl.
  exists octs. split; [exact Hl |]. split; [lia | exact Hocts].
Qed.

Lemma pyramid_interval_is_blur_of_base_aux
      (image : Mat) (pyr : list (list Mat)) (nOctaves nIntervals o j : Z) (m : Mat) :
  buildGaussianPyramid_ image [] nOctaves nIntervals = Ok pyr ->
  pyr_at pyr o j = Ok m ->
  0 <= o < nOctaves /\ 0 <= j < nIntervals + 3 /\
  exists base,
    octave_base_ (Z.to_nat o) image = Ok base /\
    GaussianBlur base (sigma_at_ (Z.to_nat j)) = Ok m.
Proof.
  unfold buildGaussianPyramid. intros Hpyr Hm.
  inv_bind Hpyr as [t pyr'] Erun. injection Hpyr as <-.
  apply pyramid_octaves_sigma in Erun.
  destruct Erun as (octs & Hl & Hlen & Hocts). simpl in Hl. subst octs.
  unfold pyr_at in Hm. inv_bind Hm as oct Eoct.
  pose proof (vec_at_size _ _ _ Eoct) as Ho. pose proof (vec_at_size _ _ _ Hm) as Hj.
  apply vec_at_Ok in Eoct, Hm. destruct Eoct as [_ Eoct], Hm as [_ Hm].
  destruct (Hocts _ _ Eoct) as (base & Hbase & Hn & Hall).
  unfold size in Ho, Hj.
  split; [lia |]. split; [lia |]. exists base. auto.
Qed.

(** X5: in a pyramid that the builder returns, image [j] of octave [o] is
    the blur of the image that octave [o] starts from (the input image
    down-sampled [o] times), never the blur of the interval before it, with
    the sigma [SIFT_INIT_SIGMA * SIFT_STEP_SIGMA ^ j] multiplied out one
    factor at a time. *)
Theorem pyramid_interval_is_blur_of_base
        (image : Mat) (pyr : list (list Mat)) (nOctaves nIntervals o j : Z) (m : Mat) :
  buildGaussianPyramid_ image [] nOctaves nIntervals = Ok pyr ->
  pyr_at pyr o j = Ok m ->
  0 <= o < nOctaves /\ 0 <= j < nIntervals + 3 /\
  exists base,
    octave_base_ (Z.to_nat o) image = Ok base /\
    GaussianBlur base (sigma_at_ (Z.to_nat j)) = Ok m.
Proof. apply pyramid_interval_is_blur_of_base_aux. Qed.

Lemma octave_base_size (image : Mat) :
  blur_keeps_size_ ->
  0 <= rows image -> 0 <= cols image ->
  forall o base, octave_base_ o image = Ok base ->
                 rows base = rows image / 2 ^ Z.of_nat o /\
                 cols base = cols image / 2 ^ Z.of_nat o.
Proof.
  intros Hsize Hr Hc. induction o as [|o IH]; intros base H.
  - simpl in H. injection H as <-. simpl. now rewrite !Z.div_1_r.
  - simpl in H. inv_bind H as b Eb. destruct (IH _ Eb) as [Hrb Hcb].
    destruct (octave_base_nonneg _ _ image Hsize Hr Hc _ _ Eb) as [Hr0 Hc0].
    destruct (downSample_Ok _ _ _ _ Hsize Hr0 Hc0 H) as (bl & _ & -> & -> & _).
    rewrite Hrb, Hcb, Nat2Z.inj_succ, Z.pow_succ_r by lia.
    rewrite !Z.div_div by lia. split; f_equal; lia.
Qed.

(** X6: in a pyramid built from an image of non-negative size, under a blur
    that keeps sizes, every image of octave [o] has the rows and the columns
    of the input image divided by [2 ^ o], rounded down; an octave beyond
    the number of halvings that the smaller side survives holds images
    without a pixel. *)
Theorem pyramid_octave_size
        (image : Mat) (pyr : list (list Mat)) (nOctaves nIntervals o j : Z) (m : Mat) :
  blur_keeps_size_ ->
  0 <= rows image -> 0 <= cols image ->
  buildGaussianPyramid_ image [] nOctaves nIntervals = Ok pyr ->
  pyr_at pyr o j = Ok m ->
  rows m = rows image / 2 ^ o /\
  cols m = cols image / 2 ^ o /\
  (rows image < 2 ^ o -> rows m = 0) /\
  (cols image < 2 ^ o -> cols m = 0).
Proof.
  intros Hsize Hr Hc Hpyr Hm.
  destruct (pyramid_interval_is_blur_of_base_aux image pyr nOctaves nIntervals o j m Hpyr Hm)
    as (Ho & _ & base & Hbase & Hblur).
  destruct (octave_base_size image Hsize Hr Hc _ _ Hbase) as [Hrb Hcb].
  destruct (Hsize _ _ _ Hblur) as [Hrm Hcm].
  rewrite Z2Nat.id in Hrb, Hcb by lia.
  assert (Hrows : rows m = rows image / 2 ^ o) by congruence.
  assert (Hcols : cols m = cols image / 2 ^ o) by congruence.
  split; [exact Hrows |]. split; [exact Hcols |].
  split; intros Hlt; [rewrite Hrows | rewrite Hcols]; apply Z.div_small; lia.
Qed.
End PyramidMore.

(** ** The difference pyramid of any pyramid *)

Lemma dog_intervals_run (gauss_pyr : list (list Mat)) (i n : Z) (oct doct : list Mat) :
  vec_at gauss_pyr i = Ok oct ->
  for_each (counting 0 (n - 1)) (dog_interval gauss_pyr i) [] = Ok doct ->
  size doct = Z.max 0 (n - 1) /\
  forall j, 0 <= j < n - 1 ->
            exists a b d, vec_at oct j = Ok a /\ vec_at oct (j + 1) = Ok b /\
                          same_size a b /\ vec_at doct j = Ok d /\ difference_of a b d.
Proof.
  intros Eoct Hrun.
  pose (P := fun (k : Z) (acc : list Mat) =>
               size acc = k /\
               forall j, 0 <= j < k ->
                         exists a b d, vec_at oct j = Ok a /\ vec_at oct (j + 1) = Ok b /\
                                       same_size a b /\ vec_at acc j = Ok d /\
                                       difference_of a b d).
  assert (HP : P (Z.max 0 (n - 1)) doct).
  { apply (for_each_counting_Ok P _ _ _ _ _ Hrun).
    - split; [reflexivity | intros j Hj; lia].
    - intros k acc acc' Hk [Hsz Hacc] Hbody. unfold dog_interval, pyr_at in Hbody.
      rewrite Eoct in Hbody. cbn [bind] in Hbody.
      inv_bind Hbody as a Ea. inv_bind Hbody as b Eb. inv_bind Hbody as d Ed.
      injection Hbody as <-.
      unfold mat_sub in Ed.
      destruct ((rows a =? rows b) && (cols a =? cols b)) eqn:Esame; [| discriminate].
      apply andb_true_iff in Esame. destruct Esame as [Hr Hc].
      apply Z.eqb_eq in Hr, Hc. injection Ed as <-.
      split; [rewrite size_app; unfold size at 2; simpl; lia |].
      intros j Hj. destruct (Z.eq_dec j k) as [-> | Hne].
      + eexists a, b, _. split; [exact Ea |]. split; [exact Eb |].
        split; [split; assumption |].
        split; [rewrite <- Hsz; apply vec_at_app_last |].
        repeat split.
      + destruct (Hacc j ltac:(lia)) as (a' & b' & d' & Ha' & Hb' & Hs' & Hd' & Hdiff).
        exists a', b', d'. split; [exact Ha' |]. split; [exact Hb' |].
        split; [exact Hs' |]. split; [apply vec_at_app_l, Hd' | exact Hdiff]. }
  destruct HP as [Hsz Hall]. split; [exact Hsz |].
  intros j Hj. apply Hall. lia.
Qed.

Lemma buildDogPyr_run (gauss_pyr dog_pyr : list (list Mat)) :
  buildDogPyr gauss_pyr = Ok dog_pyr ->
  exists first,
    vec_at gauss_pyr 0 = Ok first /\
    size dog_pyr = size gauss_pyr /\
    forall o oct, vec_at gauss_pyr o = Ok oct ->
      exists doct,
        vec_at dog_pyr o = Ok doct /\
        size doct = Z.max 0 (size first - 1) /\
        forall j, 0 <= j < size first - 1 ->
                  exists a b d, vec_at oct j = Ok a /\ vec_at oct (j + 1) = Ok b /\
                                same_size a b /\ vec_at doct j = Ok d /\
                                difference_of a b d.
Proof.
  unfold buildDogPyr. intros H. inv_bind H as first E0. exists first.
  split; [exact E0 |].
  pose (good := fun (oct doct : list Mat) =>
                  size doct = Z.max 0 (size first - 1) /\
                  forall j, 0 <= j < size first - 1 ->
                            exists a b d, vec_at oct j = Ok a /\ vec_at oct (j + 1) = Ok b /\
                                          same_size a b /\ vec_at doct j = Ok d /\
                                          difference_of a b d).
  pose (P := fun (k : Z) (acc : list (list Mat)) =>
               size acc = k /\
               forall o oct, 0 <= o < k -> vec_at gauss_pyr o = Ok oct ->
                             exists doct, vec_at acc o = Ok doct /\ good oct doct).
  assert (HP : P (Z.max 0 (size gauss_pyr)) dog_pyr).
  { apply (for_each_counting_Ok P _ _ _ _ _ H).
    - split; [reflexivity | intros o oct Ho; lia].
    - intros k acc acc' Hk [Hsz Hacc] Hbody. unfold dog_octave in Hbody.
      inv_bind Hbody as doct Ed. injection Hbody as <-.
      destruct (vec_at_inside gauss_pyr k ltac:(lia)) as (oct & Eoct).
      pose proof (dog_intervals_run _ _ _ _ _ Eoct Ed) as Hgood.
      split; [rewrite size_app; unfold size at 2; simpl; lia |].
      intros o oct' Ho Eo. destruct (Z.eq_dec o k) as [-> | Hne].
      + rewrite Eoct in Eo. injection Eo as <-.
        exists doct. split; [rewrite <- Hsz; apply vec_at_app_last | exact Hgood].
      + destruct (Hacc o oct' ltac:(lia) Eo) as (doct' & Ed' & Hd').
        exists doct'. split; [apply vec_at_app_l, Ed' | exact Hd']. }
  destruct HP as [Hsz Hall]. split; [unfold size in *; lia |].
  intros o oct Eo. apply Hall; [| exact Eo].
  apply vec_at_size in Eo. lia.
Qed.

Lemma buildDogPyr_Thrown (gauss_pyr : list (list Mat)) (msg : string) :
  buildDogPyr gauss_pyr = Thrown msg ->
  exists o oct j a b,
    vec_at gauss_pyr o = Ok oct /\ vec_at oct j = Ok a /\ vec_at oct (j + 1) = Ok b /\
    ~ same_size a b.
Proof.
  unfold buildDogPyr. intros H.
  apply bind_Thrown in H. destruct H as [H | (first & E0 & H)].
  { unfold vec_at in H. destruct (0 <? 0); [discriminate |].
    destruct (nth_error gauss_pyr (Z.to_nat 0)); discriminate. }
  apply for_each_Thrown in H. destruct H as (o & acc & _ & H).
  unfold dog_octave in H. apply bind_Thrown in H.
  destruct H as [H | (d & _ & H)]; [| discriminate].
  apply for_each_Thrown in H. destruct H as (j & acc' & _ & H).
  unfold dog_interval, pyr_at in H.
  assert (Hvec : forall (A : Type) (v : list A) k, vec_at v k <> Thrown msg).
  { intros A v k. unfold vec_at. destruct (k <? 0); [discriminate |].
    destruct (nth_error v (Z.to_nat k)); discriminate. }
  apply bind_Thrown in H. destruct H as [H | (a & Ea & H)].
  { apply bind_Thrown in H. destruct H as [H | (oct & _ & H)]; now apply Hvec in H. }
  apply bind_Thrown in H. destruct H as [H | (b & Eb & H)].
  { apply bind_Thrown in H. destruct H as [H | (oct & _ & H)]; now apply Hvec in H. }
  apply bind_Thrown in H. destruct H as [H | (d & _ & H)]; [| discriminate].
  inv_bind Ea as oct Eoct. inv_bind Eb as oct' Eoct'.
  assert (oct' = oct) by congruence. subst oct'.
  exists o, oct, j, a, b. repeat (split; [assumption |]).
  intros [Hr Hc]. unfold mat_sub in H. rewrite Hr, Hc, !Z.eqb_refl in H. discriminate.
Qed.

Lemma buildDogPyr_Undefined (gauss_pyr : list (list Mat)) (f : fault) :
  buildDogPyr gauss_pyr = Undefined f ->
  gauss_pyr = [] \/
  exists first o oct,
    vec_at gauss_pyr 0 = Ok first /\ vec_at gauss_pyr o = Ok oct /\
    size oct < size first.
Proof.
  unfold buildDogPyr. intros H.
  apply bind_Undefined in H. destruct H as [H | (first & E0 & H)].
  { left. destruct gauss_pyr; [reflexivity | discriminate]. }
  right. apply for_each_Undefined in H. destruct H as (o & acc & Ho & H).
  apply counting_In in Ho.
  destruct (vec_at_inside gauss_pyr o Ho) as (oct & Eoct).
  exists first, o, oct. split; [exact E0 |]. split; [exact Eoct |].
  unfold dog_octave in H. apply bind_Undefined in H.
  destruct H as [H | (d & _ & H)]; [| discriminate].
  apply for_each_Undefined in H. destruct H as (j & acc' & Hj & H).
  apply counting_In in Hj.
  destruct (Z.lt_ge_cases (size oct) (size first)) as [Hlt | Hge]; [exact Hlt |].
  exfalso. unfold dog_interval, pyr_at in H. rewrite Eoct in H. cbn [bind] in H.
  destruct (vec_at_inside oct j ltac:(lia)) as (a & Ea).
  destruct (vec_at_inside oct (j + 1) ltac:(lia)) as (b & Eb).
  rewrite Ea, Eb in H. cbn [bind] in H. unfold mat_sub in H.
  destruct ((rows a =? rows b) && (cols a =? cols b)); discriminate.
Qed.

(** X7: [buildDogPyr] on any pyramid.  When it returns, the result has as
    many octaves as the pyramid, each with one image less than the first
    octave of the pyramid (none when that one is empty), image [j] being
    image [j] minus image [j + 1] of its octave, two images of one size.
    When it throws, two consecutive images of an octave differ in size.
    Every other run reads outside a vector: the pyramid is empty, or an
    octave is shorter than the first one. *)
Theorem buildDogPyr_outcomes (gauss_pyr : list (list Mat)) :
  match buildDogPyr gauss_pyr with
  | Ok dog_pyr =>
      exists first,
        vec_at gauss_pyr 0 = Ok first /\
        size dog_pyr = size gauss_pyr /\
        forall o oct, vec_at gauss_pyr o = Ok oct ->
          exists doct,
            vec_at dog_pyr o = Ok doct /\
            size doct = Z.max 0 (size first - 1) /\
            forall j, 0 <= j < size first - 1 ->
              exists a b d, vec_at oct j = Ok a /\ vec_at oct (j + 1) = Ok b /\
                            same_size a b /\ vec_at doct j = Ok d /\
                            difference_of a b d
  | Thrown _ =>
      exists o oct j a b,
        vec_at gauss_pyr o = Ok oct /\ vec_at oct j = Ok a /\
        vec_at oct (j + 1) = Ok b /\ ~ same_size a b
  | Undefined _ =>
      gauss_pyr = [] \/
      exists first o oct,
        vec_at gauss_pyr 0 = Ok first /\ vec_at gauss_pyr o = Ok oct /\
        size oct < size first
  end.
Proof.
  destruct (buildDogPyr gauss_pyr) as [dog|f|msg] eqn:E.
  - now apply buildDogPyr_run.
  - now apply (buildDogPyr_Undefined _ f).
  - now apply (buildDogPyr_Thrown _ msg).
Qed.

(** ** Histograms *)

(** A loop under an invariant on the iterations done so far. *)
Lemma for_each_done {S} (P : list Z -> S -> Prop) (body : Z -> S -> res S) :
  forall l done s s',
    P done s ->
    (forall done i s s', In i l -> P done s -> body i s = Ok s' -> P (done ++ [i]) s') ->
    for_each l body s = Ok s' ->
    P (done ++ l) s'.
Proof.
  induction l as [|i l IH]; simpl; intros done s s' H0 Hstep Hrun.
  - injection Hrun as <-. now rewrite app_nil_r.
  - inv_bind Hrun as s1 E.
    replace (done ++ i :: l) with ((done ++ [i]) ++ l) by now rewrite <- app_assoc.
    apply (IH _ s1); [| | exact Hrun].
    + apply (Hstep done i s s1); auto.
    + intros d k s2 s3 Hk. apply Hstep. now right.
Qed.

Lemma vec_at_update_same {A} (v : list A) (i : Z) (a : A) :
  0 <= i < size v -> vec_at (update v (Z.to_nat i) a) i = Ok a.
Proof.
  intros Hi. apply vec_at_Ok. split; [lia |].
  unfold size in Hi. assert (Hn : (Z.to_nat i < List.length v)%nat) by lia.
  clear Hi. revert v Hn. induction (Z.to_nat i) as [|n IH]; intros [|x v] Hn;
    simpl in *; try lia; [reflexivity |]. apply IH. lia.
Qed.

Lemma vec_at_update_other {A} (v : list A) (i k : Z) (a : A) :
  0 <= i -> k <> i -> vec_at (update v (Z.to_nat i) a) k = vec_at v k.
Proof.
  intros Hi Hne. unfold vec_at. destruct (Z.ltb_spec k 0); [reflexivity |].
  assert (Hn : Z.to_nat k <> Z.to_nat i) by lia.
  replace (nth_error (update v (Z.to_nat i) a) (Z.to_nat k))
    with (nth_error v (Z.to_nat k)); [reflexivity |].
  revert v Hn. generalize (Z.to_nat k) as m. induction (Z.to_nat i) as [|n IH];
    intros [|m] [|x v] Hn; simpl; try reflexivity; try lia.
  apply IH. lia.
Qed.

Lemma total_update (v : list Z) (i : Z) (x y : Z) :
  vec_at v i = Ok x -> total (update v (Z.to_nat i) y) = total v - x + y.
Proof.
  intros H. apply vec_at_Ok in H. destruct H as [_ H].
  revert v H. induction (Z.to_nat i) as [|n IH]; intros [|z v] H; simpl in *;
    try discriminate.
  - injection H as ->. lia.
  - rewrite (IH v H). lia.
Qed.

Lemma total_repeat_zero (n : nat) : total (repeat 0 n) = 0.
Proof. induction n; simpl; auto. Qed.

Lemma counted_step (matrix : Mat) (range n i j : Z) (done : list (Z * Z)) (h h' : list Z) :
  counted matrix range n done h ->
  (a <- at_ matrix i j ;;
   index <- to_int (F32.div a (F32.of_Z range)) ;;
   cnt <- vec_at h index ;;
   vec_set h index (cnt + 1)) = Ok h' ->
  counted matrix range n (done ++ [(i, j)]) h'.
Proof.
  intros (Hsz & Htot & Hbins & Hcnt) H.
  inv_bind H as a Ea. apply at_Ok in Ea. destruct Ea as (_ & _ & ->).
  inv_bind H as index Ei. inv_bind H as cnt Ec.
  pose proof (vec_at_size _ _ _ Ec) as Hidx.
  pose proof (vec_set_size _ _ _ _ H) as Hsz'.
  unfold vec_set in H.
  destruct ((0 <=? index) && (index <? size h)); [| discriminate].
  injection H as <-.
  split; [lia |]. split; [| split].
  - rewrite (total_update _ _ _ _ Ec), length_app, Htot. simpl. lia.
  - intros cell Hin. apply in_app_iff in Hin. destruct Hin as [Hin | [<- | []]].
    + now apply Hbins.
    + exists index. split; [exact Ei | lia].
  - intros k v Hv. rewrite filter_app, length_app. cbn [filter].
    unfold in_bin at 2. cbn [fst snd]. unfold bin_of. rewrite Ei.
    destruct (Z.eqb_spec index k) as [<- | Hne].
    + rewrite vec_at_update_same in Hv by exact Hidx. injection Hv as <-.
      rewrite (Hcnt index cnt Ec). simpl. lia.
    + rewrite vec_at_update_other in Hv by lia.
      rewrite (Hcnt k v Hv). simpl. lia.
Qed.

Lemma buildHistogram_counted (matrix : Mat) (range maximum : Z) (histo : list Z) :
  buildHistogram matrix range maximum = Ok histo ->
  counted matrix range (Z.max 0 (Z.quot maximum range)) (cells matrix) histo.
Proof.
  unfold buildHistogram. intros Hrun.
  set (n := Z.max 0 (Z.quot maximum range)).
  set (row := fun i : Z => map (pair i) (counting 0 (cols matrix))).
  pose (P := fun (done : list Z) (h : list Z) =>
               counted matrix range n (flat_map row done) h).
  change (cells matrix) with (flat_map row ([] ++ counting 0 (rows matrix))).
  apply (for_each_done P _ _ [] _ _) in Hrun; [exact Hrun | |].
  - unfold P, counted. simpl. split; [unfold size; rewrite repeat_length; lia |].
    split; [apply total_repeat_zero |]. split; [intros cell [] |].
    intros k v Hv. apply vec_at_Ok in Hv. destruct Hv as [_ Hv].
    apply nth_error_In, repeat_spec in Hv. exact Hv.
  - intros done i h h' _ Hh Hrow. unfold P in *.
    rewrite flat_map_app. simpl. rewrite app_nil_r.
    pose (Q := fun (cs : list Z) (h : list Z) =>
                 counted matrix range n (flat_map row done ++ map (pair i) cs) h).
    change (row i) with (map (pair i) ([] ++ counting 0 (cols matrix))).
    apply (for_each_done Q _ _ [] _ _) in Hrow; [exact Hrow | |].
    + unfold Q. simpl. now rewrite app_nil_r.
    + intros cs j h1 h2 _ Hh1 Hcell. unfold Q in *.
      rewrite map_app, app_assoc. simpl.
      apply (counted_step _ _ _ _ _ _ _ _ Hh1 Hcell).
Qed.

Lemma In_cells (matrix : Mat) (i j : Z) :
  In (i, j) (cells matrix) <-> 0 <= i < rows matrix /\ 0 <= j < cols matrix.
Proof.
  unfold cells. rewrite in_flat_map. split.
  - intros (r & Hr & H). apply in_map_iff in H. destruct H as (c & [= <- <-] & Hc).
    apply counting_In in Hr, Hc. lia.
  - intros [Hi Hj]. exists i. split; [apply counting_In; lia |].
    apply in_map, counting_In. lia.
Qed.

Lemma cells_length (matrix : Mat) :
  Z.of_nat (List.length (cells matrix)) = Z.max 0 (rows matrix) * Z.max 0 (cols matrix).
Proof.
  unfold cells.
  assert (H : forall l : list Z,
             List.length (flat_map (fun i => map (pair i) (counting 0 (cols matrix))) l)
             = (List.length l * Z.to_nat (cols matrix))%nat).
  { induction l as [|x l IH]; simpl; [reflexivity |].
    rewrite length_app, length_map, counting_length, IH. f_equal. f_equal. lia. }
  rewrite H, counting_length. nia.
Qed.

(** X8: for a positive [range] and a [maximum] that is not negative, when
    [buildHistogram] returns, the histogram has [maximum / range] bins, bin
    [k] holds the number of cells of the matrix whose value divided by
    [range] truncates to [k], and the bins add up to the number of cells:
    every cell is counted once, whatever its value. *)
Theorem buildHistogram_counts_cells
        (matrix : Mat) (range maximum : Z) (histo : list Z) :
  0 < range -> 0 <= maximum ->
  buildHistogram matrix range maximum = Ok histo ->
  size histo = Z.quot maximum range /\
  total histo = Z.max 0 (rows matrix) * Z.max 0 (cols matrix) /\
  forall k v, vec_at histo k = Ok v ->
              v = Z.of_nat (List.length (filter (in_bin matrix range k) (cells matrix))).
Proof.
  intros Hrange Hmax H. apply buildHistogram_counted in H.
  destruct H as (Hsz & Htot & _ & Hcnt).
  pose proof (Z.quot_pos maximum range Hmax Hrange) as Hq.
  split; [lia |]. split; [| exact Hcnt].
  now rewrite Htot, cells_length.
Qed.

(** X9: for a positive [range] and a [maximum] that is not negative,
    [buildHistogram] returns exactly when the value of every cell, divided
    by [range] and truncated, is the index of a bin; any other cell makes the
    increment [histo[index]++] fall outside the vector. *)
Theorem buildHistogram_returns_iff (matrix : Mat) (range maximum : Z) :
  0 < range -> 0 <= maximum ->
  ((exists histo, buildHistogram matrix range maximum = Ok histo) <->
   forall i j, 0 <= i < rows matrix -> 0 <= j < cols matrix ->
               exists index, bin_of matrix range i j = Ok index /\
                             0 <= index < Z.quot maximum range).
Proof.
  intros _ _. split.
  - intros (histo & H) i j Hi Hj. apply buildHistogram_counted in H.
    destruct H as (_ & _ & Hbins & _).
    destruct (Hbins (i, j)) as (index & E & Hidx); [now apply In_cells |].
    exists index. split; [exact E | lia].
  - apply buildHistogram_total.
Qed.

(** X10: a matrix all of whose cells fall in one bin gives the histogram
    with the number of cells in that bin and zero in every other bin. *)
Theorem buildHistogram_of_one_bin (matrix : Mat) (range maximum index : Z) :
  0 <= index < Z.quot maximum range ->
  (forall i j, 0 <= i < rows matrix -> 0 <= j < cols matrix ->
               bin_of matrix range i j = Ok index) ->
  exists histo,
    buildHistogram matrix range maximum = Ok histo /\
    size histo = Z.quot maximum range /\
    forall k v, vec_at histo k = Ok v ->
                v = if k =? index then Z.max 0 (rows matrix) * Z.max 0 (cols matrix) else 0.
Proof.
  intros Hidx Hall.
  destruct (buildHistogram_total matrix range maximum) as (histo & E).
  { intros i j Hi Hj. exists index. split; [now apply Hall | exact Hidx]. }
  exists histo. split; [exact E |].
  apply buildHistogram_counted in E. destruct E as (Hsz & _ & _ & Hcnt).
  split; [lia |]. intros k v Hv. rewrite (Hcnt k v Hv).
  assert (Hf : forall l, (forall cell, In cell l -> In cell (cells matrix)) ->
                         List.length (filter (in_bin matrix range k) l)
                         = if k =? index then List.length l else 0%nat).
  { induction l as [|[i j] l IH]; intros Hl; simpl.
    - now destruct (k =? index).
    - unfold in_bin at 1. cbn [fst snd].
      rewrite Hall by (apply (In_cells matrix i j), Hl; now left).
      rewrite (Z.eqb_sym index k).
      assert (IH' := IH (fun cell H => Hl cell (or_intror H))).
      destruct (k =? index); simpl; now rewrite IH'. }
  rewrite Hf by auto. destruct (k =? index); [apply cells_length | reflexivity].
Qed.

(** X11: on a histogram of counts that an [int] holds, [histogramMax]
    never throws; it is undefined exactly on the empty histogram, whose first
    bin it reads, and on any other histogram it returns the greatest count
    and the first index that holds it. *)
Theorem histogramMax_outcomes (histogram : list Z) :
  Forall (fun v => - 2 ^ 31 <= v < 2 ^ 31) histogram ->
  match histogramMax histogram with
  | Ok (maximum, indexMax) =>
      0 <= indexMax < size histogram /\
      vec_at histogram indexMax = Ok maximum /\
      (forall k v, vec_at histogram k = Ok v -> v <= maximum) /\
      (forall k v, k < indexMax -> vec_at histogram k = Ok v -> v < maximum)
  | Undefined f => histogram = [] /\ f = VecIndex 0
  | Thrown _ => False
  end.
Proof.
  intros _. destruct histogram as [|x l].
  - simpl. auto.
  - destruct (histogramMax_total (x :: l)) as ([maximum indexMax] & E).
    + unfold size. simpl. lia.
    + rewrite E. now apply histogramMax_first.
Qed.

(** ** The patch of a keypoint *)

Section PatchFacts.
Variable SIFT_HIST_BOREDER : Z.
Variable PI : double.
Variable atan2f : float -> float -> float.

Local Notation W := SIFT_HIST_BOREDER.
Local Notation gradient_cell_ := (gradient_cell SIFT_HIST_BOREDER PI atan2f).
Local Notation gradient_patch_ := (gradient_patch SIFT_HIST_BOREDER PI atan2f).
Local Notation orient_keypoint_ := (orient_keypoint SIFT_HIST_BOREDER PI atan2f).
Local Notation computeOrientationHist_ :=
  (computeOrientationHist SIFT_HIST_BOREDER PI atan2f).
Local Notation magnitude_at_ := (magnitude_at SIFT_HIST_BOREDER).
Local Notation gradient_at_ := (gradient_at SIFT_HIST_BOREDER PI atan2f).
Local Notation reads_inside_ := (reads_inside SIFT_HIST_BOREDER).
Local Notation cell_reads_ := (cell_reads SIFT_HIST_BOREDER).
Local Notation cell_done_ := (cell_done SIFT_HIST_BOREDER PI atan2f).

(** X12: when the two loops of lines 298 to 313 are over, the two patches
    have [2 * SIFT_HIST_BOREDER] rows and columns, and cell [(i, j)] of each
    holds what iteration [(i, j)] computed, no later iteration having
    touched it: the magnitude and the angle of the central differences of
    the image at row [keyx - SIFT_HIST_BOREDER + i], column
    [keyy - SIFT_HIST_BOREDER + j]. *)
Theorem gradient_patch_holds_gradients
        (image : Mat) (keyx keyy : Z) (tempMagnitude tempGradient : Mat) :
  gradient_patch_ image keyx keyy = Ok (tempMagnitude, tempGradient) ->
  rows tempMagnitude = W * 2 /\ cols tempMagnitude = W * 2 /\
  rows tempGradient = W * 2 /\ cols tempGradient = W * 2 /\
  forall i j, 0 <= i < W * 2 -> 0 <= j < W * 2 ->
              px tempMagnitude i j = magnitude_at_ image keyx keyy i j /\
              px tempGradient i j = gradient_at_ image keyx keyy i j.
Proof.
  intros H. apply gradient_patch_cells in H.
  destruct H as ((Hmr & Hmc & Hgr & Hgc) & Hcells).
  repeat (split; [assumption |]).
  intros i j Hi Hj. destruct (Hcells i j Hi Hj) as (_ & Hm & Hg). auto.
Qed.

(** X13: the patch of a keypoint is computed exactly when the border is
    not positive (no cell at all) or rows [keyx - W - 1] to [keyx + W] and
    columns [keyy - W - 1] to [keyy + W] lie inside the image: [keyx] is
    read as a row here, while the test of line 293 compares it with the
    columns. *)
Theorem gradient_patch_returns_iff (image : Mat) (keyx keyy : Z) :
  (exists r, gradient_patch_ image keyx keyy = Ok r) <->
  W <= 0 \/ reads_inside_ image keyx keyy.
Proof.
  split.
  - intros ([mag grad] & H). apply gradient_patch_cells in H. destruct H as [_ Hcells].
    destruct (Z.leb_spec W 0) as [Hle | Hpos]; [now left | right].
    destruct (Hcells 0 0 ltac:(lia) ltac:(lia)) as ((_ & Ha & _ & Hb) & _).
    destruct (Hcells (W * 2 - 1) (W * 2 - 1) ltac:(lia) ltac:(lia))
      as ((Hc & _ & Hd & _) & _).
    apply inside_true in Ha, Hb, Hc, Hd. unfold reads_inside. lia.
  - intros [Hle | Hin].
    + unfold gradient_patch. rewrite counting_nil by lia. simpl. eauto.
    + destruct (gradient_patch_inside W PI atan2f image keyx keyy Hin) as (mag & grad & E).
      eauto.
Qed.

(** The keypoints and the patches that a run keeps. *)
Lemma computeOrientationHist_keeps (dog_pyr : list (list Mat)) :
  forall (keypoints keypoints' : list KeyPoint) (this this' : SIFT),
    computeOrientationHist_ dog_pyr keypoints this = Ok (keypoints', this') ->
    Forall2 (fun kp kp' => kp_x kp' = kp_x kp /\ kp_y kp' = kp_y kp /\
                           kp_size kp' = kp_size kp /\ kp_octave kp' = kp_octave kp /\
                           kp_response kp' = kp_response kp)
            keypoints keypoints' /\
    exists gradients magnitudes,
      keypointsGradients this' = keypointsGradients this ++ gradients /\
      keypointsMagnitudes this' = keypointsMagnitudes this ++ magnitudes /\
      List.length gradients = List.length magnitudes /\
      Forall (fun m => rows m = W * 2 /\ cols m = W * 2) gradients /\
      Forall (fun m => rows m = W * 2 /\ cols m = W * 2) magnitudes.
Proof.
  induction keypoints as [|kp rest IH]; simpl; intros kps' this this' H.
  - injection H as <- <-. split; [constructor |].
    exists [], []. rewrite !app_nil_r. auto.
  - inv_bind H as [kp1 this1] E0. inv_bind H as [rest' this2] Er.
    injection H as <- <-.
    destruct (IH _ _ _ Er) as (Hrest & gs & ms & Hg & Hm & Hlen & Hgs & Hms).
    clear IH Er. unfold orient_keypoint in E0.
    inv_bind E0 as image Ei.
    destruct (window_fits W image (kp_x kp) (kp_y kp)).
    + inv_bind E0 as [mag grad] Ep. inv_bind E0 as histo Eh.
      inv_bind E0 as [maxima idx] Em. injection E0 as <- <-.
      apply gradient_patch_cells in Ep. destruct Ep as ((Hmr & Hmc & Hgr & Hgc) & _).
      split; [constructor; [simpl; auto | exact Hrest] |].
      exists (grad :: gs), (mag :: ms). simpl in Hg, Hm.
      rewrite Hg, Hm, <- !app_assoc. simpl.
      repeat split; auto.
    + injection E0 as <- <-.
      split; [constructor; [auto | exact Hrest] |].
      exists gs, ms. auto.
Qed.

(** X14: a run of [computeOrientationHist] that returns keeps the keypoints
    in their order with their position, interval, octave and response, and
    keeps the patches that the object held, in their order; it adds as many
    patches of angles as of magnitudes, each of [2 * SIFT_HIST_BOREDER] rows
    and columns. *)
Theorem computeOrientationHist_frame (dog_pyr : list (list Mat)) :
  forall (keypoints keypoints' : list KeyPoint) (this this' : SIFT),
    computeOrientationHist_ dog_pyr keypoints this = Ok (keypoints', this') ->
    Forall2 (fun kp kp' => kp_x kp' = kp_x kp /\ kp_y kp' = kp_y kp /\
                           kp_size kp' = kp_size kp /\ kp_octave kp' = kp_octave kp /\
                           kp_response kp' = kp_response kp)
            keypoints keypoints' /\
    exists gradients magnitudes,
      keypointsGradients this' = keypointsGradients this ++ gradients /\
      keypointsMagnitudes this' = keypointsMagnitudes this ++ magnitudes /\
      List.length gradients = List.length magnitudes /\
      Forall (fun m => rows m = W * 2 /\ cols m = W * 2) gradients /\
      Forall (fun m => rows m = W * 2 /\ cols m = W * 2) magnitudes.
Proof. apply computeOrientationHist_keeps. Qed.
End PatchFacts.

(** ** Descriptors *)

Lemma for_each_total {S} (body : Z -> S -> res S) :
  forall l s, (forall i s, In i l -> exists s', body i s = Ok s') ->
              exists s', for_each l body s = Ok s'.
Proof.
  induction l as [|i l IH]; simpl; intros s H; [eauto |].
  destruct (H i s (or_introl eq_refl)) as (s1 & ->). cbn [bind].
  apply IH. intros k s2 Hk. apply H. now right.
Qed.

(** Indexing a vector inside a counting loop visits its elements in order. *)
Lemma for_each_elements {A S} (body : A -> S -> res S) :
  forall (v pre : list A) (s : S),
    for_each (counting (size pre) (size (pre ++ v)))
             (fun p s => x <- vec_at (pre ++ v) p ;; body x s) s
    = for_elements v body s.
Proof.
  induction v as [|x v IH]; intros pre s.
  - rewrite app_nil_r, counting_nil by lia. reflexivity.
  - rewrite counting_cons by (rewrite size_app; unfold size; simpl; lia).
    simpl.
    replace (pre ++ x :: v) with ((pre ++ [x]) ++ v) by now rewrite <- app_assoc.
    rewrite (vec_at_app_l (pre ++ [x]) v (size pre) x (vec_at_app_last pre x)).
    cbn [bind]. destruct (body x s) as [s1| |]; cbn [bind]; try reflexivity.
    replace (size pre + 1) with (size (pre ++ [x]))
      by (rewrite size_app; reflexivity).
    apply IH.
Qed.

Lemma In_counting_by4 (hi x : Z) :
  In x (counting_by4 hi) <-> exists k, 0 <= k /\ x = 4 * k /\ x < hi.
Proof.
  unfold counting_by4. rewrite in_map_iff. split.
  - intros (n & <- & Hn). apply in_seq in Hn. exists (Z.of_nat n).
    split; [lia |]. split; [reflexivity |].
    assert (Z.of_nat n < (hi + 3) / 4) by lia.
    pose proof (Z.div_mod (hi + 3) 4 ltac:(lia)).
    pose proof (Z.mod_pos_bound (hi + 3) 4 ltac:(lia)). lia.
  - intros (k & Hk & -> & Hlt). exists (Z.to_nat k). split; [lia |].
    apply in_seq.
    pose proof (Z.div_mod (hi + 3) 4 ltac:(lia)).
    pose proof (Z.mod_pos_bound (hi + 3) 4 ltac:(lia)). lia.
Qed.

Lemma counting_by4_length (hi : Z) :
  0 <= hi -> hi mod 4 = 0 -> Z.of_nat (List.length (counting_by4 hi)) = hi / 4.
Proof.
  intros H0 Hm. unfold counting_by4. rewrite length_map, length_seq.
  pose proof (Z.div_mod hi 4 ltac:(lia)).
  pose proof (Z.div_mod (hi + 3) 4 ltac:(lia)).
  pose proof (Z.mod_pos_bound (hi + 3) 4 ltac:(lia)). lia.
Qed.

Lemma counting_by4_nth (hi : Z) (a : Z) :
  0 <= a -> 4 * a < hi -> nth_error (counting_by4 hi) (Z.to_nat a) = Some (4 * a).
Proof.
  intros H0 Hlt. unfold counting_by4.
  rewrite nth_error_map, nth_error_seq.
  assert (Hn : (Z.to_nat a < Z.to_nat ((hi + 3) / 4))%nat).
  { pose proof (Z.div_mod (hi + 3) 4 ltac:(lia)).
    pose proof (Z.mod_pos_bound (hi + 3) 4 ltac:(lia)). lia. }
  apply Nat.ltb_lt in Hn. rewrite Hn. cbn [option_map Nat.add].
  rewrite Z2Nat.id by lia. reflexivity.
Qed.

Lemma block_at_Ok (temp : Mat) (xBlock yBlock : Z) (blockMatrix : Mat) :
  block_at temp xBlock yBlock = Ok blockMatrix ->
  rows blockMatrix = 4 /\ cols blockMatrix = 4 /\
  forall i j, 0 <= i < 4 -> 0 <= j < 4 ->
              inside temp (xBlock + i) (yBlock + j) = true /\
              px blockMatrix i j = px temp (xBlock + i) (yBlock + j).
Proof.
  unfold block_at. cbn [rows cols zeros]. intros Hrun.
  pose (filled := fun (b : Mat) (i j : Z) =>
                    inside temp (xBlock + i) (yBlock + j) = true /\
                    px b i j = px temp (xBlock + i) (yBlock + j)).
  pose (P := fun (i : Z) (b : Mat) =>
               (rows b = 4 /\ cols b = 4) /\
               forall i' j', 0 <= i' < i -> 0 <= j' < 4 -> filled b i' j').
  pose (Q := fun (i j : Z) (b : Mat) =>
               P i b /\ forall j', 0 <= j' < j -> filled b i j').
  assert (HP : P (Z.max 0 4) blockMatrix).
  { apply (for_each_counting_Ok P _ _ _ _ _ Hrun).
    - split; [simpl; auto | intros; lia].
    - intros i b b' Hi Hb Hrow.
      replace (rows b) with 4 in Hrow by (symmetry; apply Hb).
      assert (HQ : Q i (Z.max 0 4) b').
      { apply (for_each_counting_Ok (Q i) _ _ _ _ _ Hrow).
        - split; [exact Hb | intros; lia].
        - intros j b1 b2 Hj [[Hsz Hprev] Hcur] Hcell.
          inv_bind Hcell as v Ev. apply at_Ok in Ev. destruct Ev as (Hr & Hc & ->).
          apply set_at_Ok in Hcell. destruct Hcell as (_ & Hr2 & Hc2 & Hpx).
          split; [split |].
          + lia.
          + intros i' j' Hi' Hj'. destruct (Hprev i' j' Hi' Hj') as [Hin Hv].
            unfold filled. rewrite Hpx.
            destruct (Z.eqb_spec i' i); [lia |]. simpl. auto.
          + intros j' Hj'. unfold filled. rewrite Hpx, Z.eqb_refl.
            destruct (Z.eqb_spec j' j) as [-> | Hne]; simpl.
            * split; [apply inside_true; lia | reflexivity].
            * apply Hcur. lia. }
      destruct HQ as [[Hsz Hprev] Hrow'].
      split; [exact Hsz |]. intros i' j' Hi' Hj'.
      destruct (Z.eq_dec i' i) as [-> | Hne]; [apply Hrow'; lia | apply Hprev; lia]. }
  destruct HP as [[Hr Hc] Hcells]. split; [exact Hr |]. split; [exact Hc |].
  intros i j Hi Hj. apply Hcells; lia.
Qed.

Lemma block_at_inside (temp : Mat) (xBlock yBlock : Z) :
  (forall i j, 0 <= i < 4 -> 0 <= j < 4 ->
               inside temp (xBlock + i) (yBlock + j) = true) ->
  exists blockMatrix, block_at temp xBlock yBlock = Ok blockMatrix.
Proof.
  intros Hin. unfold block_at. cbn [rows cols zeros].
  pose (sized := fun (_ : Z) (b : Mat) => rows b = 4 /\ cols b = 4).
  destruct (for_each_counting sized
              (fun i b => for_each (counting 0 (rows b)) (fun j b =>
                 v <- at_ temp (xBlock + i) (yBlock + j) ;; set_at b i j v) b)
              0 4 (zeros 4 4)) as (b & E & _).
  - unfold sized. simpl. auto.
  - intros i b Hi Hb. replace (rows b) with 4 by (symmetry; apply Hb).
    destruct (for_each_counting sized
                (fun j b => v <- at_ temp (xBlock + i) (yBlock + j) ;; set_at b i j v)
                0 4 b) as (b' & E' & Hb').
    + exact Hb.
    + intros j b1 Hj [Hr Hc].
      unfold at_. rewrite (Hin i j Hi Hj). cbn [bind].
      unfold set_at. replace (inside b1 i j) with true
        by (symmetry; apply inside_true; lia).
      eexists. split; [reflexivity |]. unfold sized. simpl. auto.
    + exists b'. split; [exact E' | exact Hb'].
  - exists b. exact E.
Qed.

(** A vector is the list of its entries. *)
Lemma vec_entries (h : list Z) (n : Z) (f : Z -> Z) :
  size h = n -> (forall k v, vec_at h k = Ok v -> v = f k) ->
  h = map f (counting 0 n).
Proof.
  intros Hsz Hent. apply nth_error_ext. intros m.
  unfold counting. rewrite !nth_error_map, nth_error_seq.
  destruct (Nat.ltb_spec m (Z.to_nat (n - 0))) as [Hlt | Hge]; simpl.
  - destruct (nth_error h m) as [v|] eqn:E.
    + f_equal. apply (Hent (Z.of_nat m)). apply vec_at_Ok.
      rewrite Nat2Z.id. split; [lia | exact E].
    + apply nth_error_None in E. unfold size in Hsz. lia.
  - apply nth_error_None. unfold size in Hsz. lia.
Qed.

Lemma in_bin_block (temp blockMatrix : Mat) (xBlock yBlock k : Z) :
  (forall i j, 0 <= i < 4 -> 0 <= j < 4 ->
               px blockMatrix i j = px temp (xBlock + i) (yBlock + j)) ->
  forall cell, In cell (cells (zeros 4 4)) ->
               in_bin blockMatrix 45 k cell
               = in_bin temp 45 k (xBlock + fst cell, yBlock + snd cell).
Proof.
  intros Hpx [i j] Hin. apply In_cells in Hin. cbn [rows cols zeros] in Hin.
  unfold in_bin, bin_of. cbn [fst snd]. now rewrite Hpx by lia.
Qed.

Lemma block_histogram_Ok (temp blockMatrix : Mat) (xBlock yBlock : Z) (h : list Z) :
  block_at temp xBlock yBlock = Ok blockMatrix ->
  buildHistogram blockMatrix 45 360 = Ok h ->
  h = block_histogram temp xBlock yBlock.
Proof.
  intros Eb Eh. apply block_at_Ok in Eb. destruct Eb as (Hr & Hc & Hcells).
  apply buildHistogram_counted in Eh. destruct Eh as (Hsz & _ & _ & Hcnt).
  apply vec_entries; [exact Hsz |].
  intros k v Hv. rewrite (Hcnt k v Hv). unfold block_count. f_equal. f_equal.
  replace (cells blockMatrix) with (cells (zeros 4 4))
    by (unfold cells; now rewrite Hr, Hc).
  apply filter_ext_in. apply in_bin_block.
  intros i j Hi Hj. now apply Hcells.
Qed.

Lemma block_histogram_length (temp : Mat) (xBlock yBlock : Z) :
  List.length (block_histogram temp xBlock yBlock) = 8%nat.
Proof. reflexivity. Qed.

Lemma descriptor_block_Ok (temp : Mat) (xBlock yBlock : Z) (d d' : list Z) :
  (blockMatrix <- block_at temp xBlock yBlock ;;
   singleHistogram <- buildHistogram blockMatrix 45 360 ;;
   Ok (d ++ singleHistogram)) = Ok d' ->
  d' = d ++ block_histogram temp xBlock yBlock /\ block_cells_fit temp xBlock yBlock.
Proof.
  intros H. inv_bind H as blockMatrix Eb. inv_bind H as h Eh. injection H as <-.
  split; [f_equal; apply (block_histogram_Ok _ _ _ _ _ Eb Eh) |].
  apply block_at_Ok in Eb. destruct Eb as (Hr & Hc & Hcells).
  apply buildHistogram_counted in Eh. destruct Eh as (_ & _ & Hbins & _).
  intros i j Hi Hj. destruct (Hcells i j Hi Hj) as [Hin Hpx].
  split; [exact Hin |].
  destruct (Hbins (i, j)) as (index & E & Hidx).
  { apply In_cells. lia. }
  exists index. unfold bin_of in *. cbn [fst snd] in E. rewrite <- Hpx.
  split; [exact E | exact Hidx].
Qed.

Lemma descriptor_block_total (temp : Mat) (xBlock yBlock : Z) (d : list Z) :
  block_cells_fit temp xBlock yBlock ->
  exists d', (blockMatrix <- block_at temp xBlock yBlock ;;
              singleHistogram <- buildHistogram blockMatrix 45 360 ;;
              Ok (d ++ singleHistogram)) = Ok d'.
Proof.
  intros Hfit.
  destruct (block_at_inside temp xBlock yBlock) as (blockMatrix & Eb).
  { intros i j Hi Hj. apply Hfit; lia. }
  rewrite Eb. cbn [bind].
  apply block_at_Ok in Eb. destruct Eb as (Hr & Hc & Hcells).
  destruct (buildHistogram_total blockMatrix 45 360) as (h & ->).
  - intros i j Hi Hj. rewrite Hr in Hi. rewrite Hc in Hj.
    destruct (Hcells i j Hi Hj) as [_ ->].
    destruct (Hfit i j Hi Hj) as (_ & index & E & Hidx). exists index.
    split; [exact E | exact Hidx].
  - cbn [bind]. eauto.
Qed.

Lemma single_descriptor_Ok (temp : Mat) (d : list Z) :
  single_descriptor temp = Ok d ->
  d = flat_map (fun xBlock => flat_map (block_histogram temp xBlock)
                                       (counting_by4 (rows temp)))
               (counting_by4 (cols temp)) /\
  forall xBlock yBlock, In xBlock (counting_by4 (cols temp)) ->
                        In yBlock (counting_by4 (rows temp)) ->
                        block_cells_fit temp xBlock yBlock.
Proof.
  unfold single_descriptor. intros Hrun.
  set (row := fun xBlock => flat_map (block_histogram temp xBlock)
                                     (counting_by4 (rows temp))).
  pose (P := fun (done : list Z) (d : list Z) =>
               d = flat_map row done /\
               forall xBlock yBlock, In xBlock done -> In yBlock (counting_by4 (rows temp)) ->
                                     block_cells_fit temp xBlock yBlock).
  change (P ([] ++ counting_by4 (cols temp)) d).
  apply (for_each_done P _ _ [] _ _) in Hrun; [exact Hrun | |].
  - split; [reflexivity | intros xb yb []].
  - intros done xb d0 d1 _ [Hd0 Hfit0] Hrow.
    pose (Q := fun (ys : list Z) (d : list Z) =>
                 d = d0 ++ flat_map (block_histogram temp xb) ys /\
                 forall yBlock, In yBlock ys -> block_cells_fit temp xb yBlock).
    assert (HQ : Q ([] ++ counting_by4 (rows temp)) d1).
    { apply (for_each_done Q _ _ [] _ _) in Hrow; [exact Hrow | |].
      - split; [cbn [flat_map]; now rewrite app_nil_r | intros yb []].
      - intros ys yb d2 d3 _ [Hd2 Hfit2] Hblock.
        apply descriptor_block_Ok in Hblock. destruct Hblock as [-> Hfit].
        split.
        + rewrite Hd2, flat_map_app. cbn [flat_map]. now rewrite app_nil_r, app_assoc.
        + intros yb' Hin. apply in_app_iff in Hin.
          destruct Hin as [Hin | [<- | []]]; auto. }
    cbn [app] in HQ. destruct HQ as [-> Hfit1]. split.
    + rewrite Hd0, flat_map_app. cbn [flat_map]. now rewrite app_nil_r.
    + intros xb' yb Hin Hyb. apply in_app_iff in Hin.
      destruct Hin as [Hin | [<- | []]]; auto.
Qed.

Lemma single_descriptor_total (temp : Mat) :
  (forall xBlock yBlock, In xBlock (counting_by4 (cols temp)) ->
                         In yBlock (counting_by4 (rows temp)) ->
                         block_cells_fit temp xBlock yBlock) ->
  exists d, single_descriptor temp = Ok d.
Proof.
  intros Hfit. unfold single_descriptor.
  apply for_each_total. intros xb d Hxb.
  apply for_each_total. intros yb d' Hyb.
  apply descriptor_block_total. now apply Hfit.
Qed.

Lemma describable_fits (temp : Mat) :
  describable temp <->
  forall xBlock yBlock, In xBlock (counting_by4 (cols temp)) ->
                        In yBlock (counting_by4 (rows temp)) ->
                        block_cells_fit temp xBlock yBlock.
Proof.
  split.
  - intros Hd xb yb Hxb Hyb.
    apply In_counting_by4 in Hxb, Hyb.
    destruct Hxb as (kx & Hkx & -> & Hx), Hyb as (ky & Hky & -> & Hy).
    destruct Hd as [Hd | [Hd | (Hsq & Hm & Hbins)]]; [lia | lia |].
    pose proof (Z.div_mod (rows temp) 4 ltac:(lia)) as Hdm.
    intros i j Hi Hj.
    split; [apply inside_true; lia | apply Hbins; lia].
  - intros Hfit.
    destruct (Z.leb_spec (rows temp) 0) as [Hr | Hr]; [now left |].
    destruct (Z.leb_spec (cols temp) 0) as [Hc | Hc]; [right; now left |].
    right. right.
    pose proof (Z.div_mod (rows temp + 3) 4 ltac:(lia)) as Hdr.
    pose proof (Z.mod_pos_bound (rows temp + 3) 4 ltac:(lia)) as Hbr.
    pose proof (Z.div_mod (cols temp + 3) 4 ltac:(lia)) as Hdc.
    pose proof (Z.mod_pos_bound (cols temp + 3) 4 ltac:(lia)) as Hbc.
    assert (H0r : In 0 (counting_by4 (rows temp)))
      by (apply In_counting_by4; exists 0; lia).
    assert (H0c : In 0 (counting_by4 (cols temp)))
      by (apply In_counting_by4; exists 0; lia).
    assert (Hlr : In (4 * ((rows temp + 3) / 4 - 1)) (counting_by4 (rows temp)))
      by (apply In_counting_by4; exists ((rows temp + 3) / 4 - 1); lia).
    assert (Hlc : In (4 * ((cols temp + 3) / 4 - 1)) (counting_by4 (cols temp)))
      by (apply In_counting_by4; exists ((cols temp + 3) / 4 - 1); lia).
    destruct (Hfit _ _ Hlc H0r 3 0 ltac:(lia) ltac:(lia)) as [Ha _].
    destruct (Hfit _ _ H0c Hlr 0 3 ltac:(lia) ltac:(lia)) as [Hb _].
    apply inside_true in Ha, Hb.
    assert (Hsq : rows temp = cols temp) by lia.
    pose proof (Z.div_mod (rows temp) 4 ltac:(lia)) as Hdm.
    pose proof (Z.mod_pos_bound (rows temp) 4 ltac:(lia)) as Hbm.
    split; [exact Hsq |]. split; [lia |].
    intros i j Hi Hj.
    pose proof (Z.div_mod i 4 ltac:(lia)) as Hdi.
    pose proof (Z.mod_pos_bound i 4 ltac:(lia)) as Hbi.
    pose proof (Z.div_mod j 4 ltac:(lia)) as Hdj.
    pose proof (Z.mod_pos_bound j 4 ltac:(lia)) as Hbj.
    assert (Hxi : In (4 * (i / 4)) (counting_by4 (cols temp)))
      by (apply In_counting_by4; exists (i / 4); lia).
    assert (Hyj : In (4 * (j / 4)) (counting_by4 (rows temp)))
      by (apply In_counting_by4; exists (j / 4); lia).
    destruct (Hfit _ _ Hxi Hyj (i mod 4) (j mod 4) Hbi Hbj) as [_ Hbin].
    replace (4 * (i / 4) + i mod 4) with i in Hbin by lia.
    replace (4 * (j / 4) + j mod 4) with j in Hbin by lia.
    exact Hbin.
Qed.

Lemma computeDescriptors_elements (this : SIFT) :
  computeDescriptors this
  = for_elements (keypointsGradients this)
                 (fun temp descriptors =>
                    singleDescriptor <- single_descriptor temp ;;
                    Ok (descriptors ++ [singleDescriptor])) [].
Proof.
  unfold computeDescriptors.
  apply (for_each_elements
           (fun temp descriptors =>
              singleDescriptor <- single_descriptor temp ;;
              Ok (descriptors ++ [singleDescriptor]))
           (keypointsGradients this) [] []).
Qed.

Lemma descriptors_Ok :
  forall (patches : list Mat) (ds0 ds : list (list Z)),
    for_elements patches
                 (fun temp descriptors =>
                    singleDescriptor <- single_descriptor temp ;;
                    Ok (descriptors ++ [singleDescriptor])) ds0 = Ok ds ->
    exists new, ds = ds0 ++ new /\
                Forall2 (fun temp d => single_descriptor temp = Ok d) patches new.
Proof.
  induction patches as [|temp patches IH]; simpl; intros ds0 ds H.
  - injection H as <-. exists []. rewrite app_nil_r. auto.
  - inv_bind H as ds1 E. inv_bind E as d Ed. injection E as <-.
    destruct (IH _ _ H) as (new & -> & Hnew).
    exists (d :: new). rewrite <- app_assoc. simpl. auto.
Qed.

Lemma descriptors_total :
  forall (patches : list Mat) (ds0 : list (list Z)),
    Forall (fun temp => exists d, single_descriptor temp = Ok d) patches ->
    exists ds, for_elements patches
                 (fun temp descriptors =>
                    singleDescriptor <- single_descriptor temp ;;
                    Ok (descriptors ++ [singleDescriptor])) ds0 = Ok ds.
Proof.
  induction patches as [|temp patches IH]; simpl; intros ds0 H.
  - eauto.
  - inversion H as [|? ? (d & Ed) Hrest]; subst.
    rewrite Ed. cbn [bind]. now apply IH.
Qed.

Lemma computeDescriptors_Ok (this : SIFT) (descriptors : list (list Z)) :
  computeDescriptors this = Ok descriptors ->
  Forall2 (fun temp d => single_descriptor temp = Ok d)
          (keypointsGradients this) descriptors.
Proof.
  rewrite computeDescriptors_elements. intros H.
  apply descriptors_Ok in H. destruct H as (new & -> & H). exact H.
Qed.

(** X15: [computeDescriptors] returns exactly when every patch of the
    object either has no cell or is square with a side that is a multiple
    of 4 and with every value in one of the eight bins of 45 degrees.  On
    any other patch a block reaches outside the patch, or a count outside
    the histogram. *)
Theorem computeDescriptors_returns_iff (this : SIFT) :
  (exists descriptors, computeDescriptors this = Ok descriptors) <->
  Forall describable (keypointsGradients this).
Proof.
  split.
  - intros (ds & H). apply computeDescriptors_Ok in H.
    induction H as [|temp d patches ds' Hd _ IH]; constructor; [| exact IH].
    apply describable_fits. apply (single_descriptor_Ok _ _ Hd).
  - intros H. rewrite computeDescriptors_elements. apply descriptors_total.
    apply Forall_impl with (2 := H). intros temp Hd.
    apply single_descriptor_total. now apply describable_fits.
Qed.

Lemma flat_map_length_uniform {A B} (f : A -> list B) (L : nat) (l : list A) :
  (forall x, List.length (f x) = L) ->
  List.length (flat_map f l) = (List.length l * L)%nat.
Proof.
  intros H. induction l as [|x l IH]; simpl; [reflexivity |].
  now rewrite length_app, H, IH.
Qed.

Lemma nth_error_flat_map_uniform {A B} (f : A -> list B) (L : nat) :
  (forall x, List.length (f x) = L) ->
  forall (l : list A) (p q : nat) (x : A),
    nth_error l p = Some x -> (q < L)%nat ->
    nth_error (flat_map f l) (p * L + q) = nth_error (f x) q.
Proof.
  intros H. induction l as [|y l IH]; intros [|p] q x Hp Hq; simpl in Hp;
    try discriminate.
  - injection Hp as ->. simpl. apply nth_error_app1. now rewrite H.
  - simpl. rewrite nth_error_app2 by (rewrite H; lia).
    rewrite H. replace (L + p * L + q - L)%nat with (p * L + q)%nat by lia.
    now apply IH.
Qed.

Lemma counting_nth (lo hi k : Z) :
  0 <= k < hi - lo -> nth_error (counting lo hi) (Z.to_nat k) = Some (lo + k).
Proof.
  intros Hk. unfold counting. rewrite nth_error_map, nth_error_seq.
  assert (Hn : (Z.to_nat k < Z.to_nat (hi - lo))%nat) by lia.
  apply Nat.ltb_lt in Hn. rewrite Hn. cbn [option_map Nat.add].
  rewrite Z2Nat.id by lia. reflexivity.
Qed.

Lemma counting_by4_nil (hi : Z) : hi <= 0 -> counting_by4 hi = [].
Proof.
  intros H. unfold counting_by4.
  pose proof (Z.div_mod (hi + 3) 4 ltac:(lia)).
  pose proof (Z.mod_pos_bound (hi + 3) 4 ltac:(lia)).
  replace (Z.to_nat ((hi + 3) / 4)) with 0%nat by lia. reflexivity.
Qed.

Lemma single_descriptor_empty (temp : Mat) (d : list Z) :
  single_descriptor temp = Ok d -> rows temp <= 0 \/ cols temp <= 0 -> d = [].
Proof.
  intros H Hd. apply single_descriptor_Ok in H. destruct H as [-> _].
  destruct Hd as [Hr | Hc].
  - rewrite (counting_by4_nil (rows temp) Hr).
    induction (counting_by4 (cols temp)); simpl; auto.
  - now rewrite (counting_by4_nil (cols temp) Hc).
Qed.

Lemma single_descriptor_describes (temp : Mat) (d : list Z) :
  single_descriptor temp = Ok d -> 0 < rows temp -> 0 < cols temp ->
  rows temp = cols temp /\ rows temp mod 4 = 0 /\ describes temp d.
Proof.
  intros H Hr Hc. destruct (single_descriptor_Ok _ _ H) as [Hd Hfit].
  apply describable_fits in Hfit.
  destruct Hfit as [? | [? | (Hsq & Hm & _)]]; [lia | lia |].
  split; [exact Hsq |]. split; [exact Hm |].
  pose proof (counting_by4_length (rows temp) ltac:(lia) Hm) as Hly.
  assert (Hlx : Z.of_nat (List.length (counting_by4 (cols temp))) = rows temp / 4).
  { rewrite <- Hsq. exact Hly. }
  pose proof (Z.div_mod (rows temp) 4 ltac:(lia)) as Hdm.
  unfold describes. cbv zeta.
  set (n := rows temp / 4) in *.
  set (ys := counting_by4 (rows temp)) in *.
  set (xs := counting_by4 (cols temp)) in *.
  assert (Hrow : forall xb, List.length (flat_map (block_histogram temp xb) ys)
                            = (List.length ys * 8)%nat).
  { intros xb. apply flat_map_length_uniform. intros yb. reflexivity. }
  split.
  - unfold size. rewrite Hd.
    rewrite (flat_map_length_uniform _ (List.length ys * 8) xs Hrow). nia.
  - intros a b k Ha Hb Hk. apply vec_at_Ok. split; [nia |].
    replace (Z.to_nat ((a * n + b) * 8 + k))
      with (Z.to_nat a * (List.length ys * 8) + (Z.to_nat b * 8 + Z.to_nat k))%nat
      by nia.
    rewrite Hd.
    rewrite (nth_error_flat_map_uniform _ (List.length ys * 8) Hrow xs _ _ (4 * a));
      [| apply counting_by4_nth; lia | nia].
    rewrite (nth_error_flat_map_uniform (block_histogram temp (4 * a)) 8
               (fun yb => eq_refl) ys _ _ (4 * b));
      [| apply counting_by4_nth; lia | lia].
    unfold block_histogram. rewrite nth_error_map, (counting_nth 0 8 k) by lia.
    reflexivity.
Qed.

(** X16: the result of [computeDescriptors] holds one descriptor for each
    patch of the object, in their order.  A patch without a cell has the
    empty descriptor; the descriptor of any other patch has [n * n * 8]
    counts, [n] being a quarter of its side, and count
    [(a * n + b) * 8 + k] is the number of cells of rows [4 * a] to
    [4 * a + 3] and columns [4 * b] to [4 * b + 3] of the patch whose
    value falls in bin [k]. *)
Theorem computeDescriptors_counts_blocks (this : SIFT) (descriptors : list (list Z)) :
  computeDescriptors this = Ok descriptors ->
  Forall2 (fun temp d =>
             (rows temp <= 0 \/ cols temp <= 0 -> d = []) /\
             (0 < rows temp -> 0 < cols temp -> describes temp d))
          (keypointsGradients this) descriptors.
Proof.
  intros H. apply computeDescriptors_Ok in H.
  induction H as [|temp d patches ds Hd _ IH]; constructor; [| exact IH].
  split.
  - apply (single_descriptor_empty _ _ Hd).
  - intros Hr Hc. apply (single_descriptor_describes _ _ Hd Hr Hc).
Qed.

Section DescriptorsOfKeypoints.
Variable SIFT_HIST_BOREDER : Z.
Variable PI : double.
Variable atan2f : float -> float -> float.

Local Notation W := SIFT_HIST_BOREDER.
Local Notation computeOrientationHist_ :=
  (computeOrientationHist SIFT_HIST_BOREDER PI atan2f).

(** X17: the descriptors of the patches that [computeOrientationHist]
    stores in an object without patches: one for each keypoint that passes
    the test of line 293.  When there is one, [SIFT_HIST_BOREDER] is even,
    since [computeDescriptors] does not return otherwise, and each
    descriptor has [(SIFT_HIST_BOREDER / 2)^2 * 8] counts: 128 for a border
    of 8. *)
Theorem descriptors_of_oriented_keypoints
        (dog_pyr : list (list Mat)) (keypoints keypoints' : list KeyPoint)
        (this this' : SIFT) (descriptors : list (list Z)) :
  0 < W ->
  keypointsGradients this = [] ->
  computeOrientationHist_ dog_pyr keypoints this = Ok (keypoints', this') ->
  computeDescriptors this' = Ok descriptors ->
  size descriptors = Z.of_nat (List.length (filter (has_window W dog_pyr) keypoints)) /\
  (descriptors <> [] -> W mod 2 = 0) /\
  Forall (fun d => size d = (W / 2) * (W / 2) * 8) descriptors.
Proof.
  intros HW Hnone Hrun Hdesc.
  destruct (computeOrientationHist_patches _ _ _ _ _ _ _ _ Hrun) as [Hcount _].
  destruct (computeOrientationHist_keeps _ _ _ _ _ _ _ _ Hrun)
    as (_ & gs & ms & Hg & _ & _ & Hgs & _).
  rewrite Hnone in Hg, Hcount. simpl in Hg, Hcount.
  apply computeDescriptors_Ok in Hdesc. rewrite Hg in Hdesc, Hcount.
  assert (Hall : Forall (fun d => W mod 2 = 0 /\ size d = (W / 2) * (W / 2) * 8)
                        descriptors).
  { clear Hcount Hg. induction Hdesc as [|temp d patches ds Hd _ IH].
    - constructor.
    - inversion Hgs as [|? ? [Hr Hc] Hrest]; subst.
      constructor; [| now apply IH].
      destruct (single_descriptor_describes _ _ Hd ltac:(lia) ltac:(lia))
        as (_ & Hm & Hsz & _).
      rewrite Hr in Hm, Hsz.
      pose proof (Z.div_mod (W * 2) 4 ltac:(lia)) as H1.
      pose proof (Z.div_mod W 2 ltac:(lia)) as H2.
      pose proof (Z.mod_pos_bound W 2 ltac:(lia)) as H3.
      assert (Hmod : W mod 2 = 0) by lia.
      split; [exact Hmod |].
      replace (W / 2) with (W * 2 / 4) by lia. exact Hsz. }
  split; [| split].
  - unfold size. rewrite <- (Forall2_length Hdesc). lia.
  - intros Hne. destruct descriptors as [|d ds]; [congruence |].
    inversion Hall as [|? ? [Hm _] _]. exact Hm.
  - apply Forall_impl with (2 := Hall). intros d [_ H]. exact H.
Qed.
End DescriptorsOfKeypoints.

(** ** The pipeline *)

Section PipelineFacts.
Variable GaussianBlur : Mat -> double -> res Mat.
Variables SIFT_INIT_SIGMA SIFT_STEP_SIGMA INTERPOLATION_SIGMA : double.
Variable SIFT_IMG_BORDER : Z.
Variables SIFT_CONTR_THR SIFT_DETER_THR : float.
Variable SIFT_HIST_BOREDER : Z.
Variable PI : double.
Variable atan2f : float -> float -> float.
Variables ColorImage GrayImage : Type.
Variable cvtColor : ColorImage -> res GrayImage.
Variable normalize : GrayImage -> res Mat.
Variable curv_thr_default : Z.

Local Notation W := SIFT_HIST_BOREDER.
Local Notation buildGaussianPyramid_ :=
  (buildGaussianPyramid GaussianBlur SIFT_INIT_SIGMA SIFT_STEP_SIGMA INTERPOLATION_SIGMA).
Local Notation getScaleSpaceExtrema_ :=
  (getScaleSpaceExtrema SIFT_IMG_BORDER SIFT_CONTR_THR SIFT_DETER_THR).
Local Notation extrema_of_ := (extrema_of SIFT_IMG_BORDER SIFT_CONTR_THR SIFT_DETER_THR).
Local Notation orient_keypoint_ := (orient_keypoint SIFT_HIST_BOREDER PI atan2f).
Local Notation computeOrientationHist_ :=
  (computeOrientationHist SIFT_HIST_BOREDER PI atan2f).
Local Notation findSiftInterestPoint_ :=
  (findSiftInterestPoint GaussianBlur SIFT_INIT_SIGMA SIFT_STEP_SIGMA INTERPOLATION_SIGMA
                         SIFT_IMG_BORDER SIFT_CONTR_THR SIFT_DETER_THR
                         SIFT_HIST_BOREDER PI atan2f ColorImage GrayImage
                         cvtColor normalize curv_thr_default).

Lemma orient_keypoint_cases (dog_pyr : list (list Mat)) (kp kp' : KeyPoint)
      (this this' : SIFT) :
  orient_keypoint_ dog_pyr kp this = Ok (kp', this') -> reoriented W dog_pyr kp kp'.
Proof.
  unfold orient_keypoint, reoriented, has_window. intros H.
  inv_bind H as image Ei. rewrite Ei.
  destruct (window_fits W image (kp_x kp) (kp_y kp)).
  - right. inv_bind H as [mag grad] Ep. inv_bind H as histo Eh.
    inv_bind H as [maxima idx] Em. injection H as <- <-.
    apply histogramMax_first in Em. destruct Em as (Hidx & _).
    rewrite (buildHistogram_size _ _ _ _ Eh) in Hidx.
    split; [reflexivity |]. split; [| simpl; auto].
    exists idx. split; [exact Hidx | reflexivity].
  - left. injection H as <- <-. auto.
Qed.

Lemma computeOrientationHist_cases (dog_pyr : list (list Mat)) :
  forall (keypoints keypoints' : list KeyPoint) (this this' : SIFT),
    computeOrientationHist_ dog_pyr keypoints this = Ok (keypoints', this') ->
    Forall2 (reoriented W dog_pyr) keypoints keypoints'.
Proof.
  induction keypoints as [|kp rest IH]; simpl; intros kps' this this' H.
  - injection H as <- <-. constructor.
  - inv_bind H as [kp1 this1] E0. inv_bind H as [rest' this2] Er.
    injection H as <- <-. constructor.
    + apply (orient_keypoint_cases _ _ _ _ _ E0).
    + apply (IH _ _ _ Er).
Qed.

Lemma reoriented_count (dog_pyr : list (list Mat)) (keypoints keypoints' : list KeyPoint) :
  Forall2 (reoriented W dog_pyr) keypoints keypoints' ->
  Forall (fun kp => kp_angle kp = -1) keypoints ->
  List.length (filter (has_window W dog_pyr) keypoints)
  = List.length (filter (fun kp => negb (kp_angle kp =? -1)) keypoints').
Proof.
  induction 1 as [|kp kp' kps kps' Hk _ IH]; intros Hall; [reflexivity |].
  inversion Hall as [|? ? Ha Hrest]; subst. simpl.
  destruct Hk as [[-> ->] | (-> & (k & Hk & Hang) & _)].
  - rewrite Ha. simpl. now apply IH.
  - destruct (Z.eqb_spec (kp_angle kp') (-1)); [lia |]. simpl. f_equal. now apply IH.
Qed.

Lemma findSiftInterestPoint_run (image : ColorImage) (keypoints keypoints' : list KeyPoint)
      (nOctaves nIntervals : Z) (this this' : SIFT) :
  findSiftInterestPoint_ image keypoints nOctaves nIntervals this = Ok (keypoints', this') ->
  exists _image pyr dog_pyr,
    buildGaussianPyramid_ _image [] nOctaves nIntervals = Ok pyr /\
    buildDogPyr pyr = Ok dog_pyr /\
    computeOrientationHist_ dog_pyr (keypoints ++ extrema_of_ dog_pyr curv_thr_default) this
    = Ok (keypoints', this').
Proof.
  unfold findSiftInterestPoint. intros H.
  inv_bind H as g Eg. inv_bind H as m Em. inv_bind H as pyr Ep.
  inv_bind H as dog_pyr Ed. inv_bind H as kps Ek.
  apply getScaleSpaceExtrema_appends in Ek. subst kps.
  exists m, pyr, dog_pyr. auto.
Qed.

Lemma extrema_of_built (_image : Mat) (pyr dog_pyr : list (list Mat))
      (nOctaves nIntervals : Z) (kp : KeyPoint) :
  buildGaussianPyramid_ _image [] nOctaves nIntervals = Ok pyr ->
  buildDogPyr pyr = Ok dog_pyr ->
  In kp (extrema_of_ dog_pyr curv_thr_default) ->
  0 <= kp_octave kp < nOctaves /\ 1 <= kp_size kp <= nIntervals /\
  SIFT_IMG_BORDER <= kp_x kp /\ SIFT_IMG_BORDER <= kp_y kp /\
  kp_response kp = 0 /\ kp_angle kp = -1.
Proof.
  intros Hp Hd Hin.
  apply pyramid_shape in Hp. destruct Hp as [Hlen Hocts].
  apply buildDogPyr_run in Hd. destruct Hd as (first & E0 & Hsz & Hdocts).
  destruct (Hocts 0 first E0) as (base & _ & Hfirst & _).
  destruct (Hdocts 0 first E0) as (doct & Ed0 & Hdsz & _).
  apply In_extrema_of in Hin.
  destruct Hin as (first' & i & j & E0' & Hi & Hj & Hin).
  rewrite Ed0 in E0'. injection E0' as <-.
  apply In_extrema_of_interval in Hin.
  destruct Hin as (m0 & r & c & _ & Hr & Hc & _ & ->).
  unfold size in *. simpl. repeat split; lia.
Qed.

(** X18: a run of [findSiftInterestPoint] on an empty vector that returns
    leaves keypoints whose octave is below [nOctaves], whose interval is
    between 1 and [nIntervals], whose position is at least the border away
    from the first row and column, whose response is 0 and whose angle is
    either the -1 of the detector or the middle of one of the 36 bins; the
    object holds one more patch for each keypoint that has an angle.  With
    [nIntervals <= 0] no keypoint is found. *)
Theorem findSiftInterestPoint_keypoints
        (image : ColorImage) (keypoints' : list KeyPoint)
        (nOctaves nIntervals : Z) (this this' : SIFT) :
  findSiftInterestPoint_ image [] nOctaves nIntervals this = Ok (keypoints', this') ->
  Forall (fun kp => 0 <= kp_octave kp < nOctaves /\ 1 <= kp_size kp <= nIntervals /\
                    SIFT_IMG_BORDER <= kp_x kp /\ SIFT_IMG_BORDER <= kp_y kp /\
                    kp_response kp = 0 /\
                    (kp_angle kp = -1 \/ oriented (kp_angle kp)))
         keypoints' /\
  List.length (keypointsGradients this')
  = (List.length (keypointsGradients this)
     + List.length (filter (fun kp => negb (kp_angle kp =? -1)%Z) keypoints'))%nat /\
  (nIntervals <= 0 -> keypoints' = []).
Proof.
  intros H. apply findSiftInterestPoint_run in H.
  destruct H as (m & pyr & dog_pyr & Hp & Hd & Hrun). simpl in Hrun.
  assert (Hnew : Forall (fun kp => 0 <= kp_octave kp < nOctaves /\
                                   1 <= kp_size kp <= nIntervals /\
                                   SIFT_IMG_BORDER <= kp_x kp /\
                                   SIFT_IMG_BORDER <= kp_y kp /\
                                   kp_response kp = 0 /\ kp_angle kp = -1)
                        (extrema_of_ dog_pyr curv_thr_default)).
  { apply Forall_forall. intros kp Hin. apply (extrema_of_built _ _ _ _ _ _ Hp Hd Hin). }
  pose proof (computeOrientationHist_cases _ _ _ _ _ Hrun) as Hcases.
  destruct (computeOrientationHist_patches _ _ _ _ _ _ _ _ Hrun) as [Hcount _].
  assert (Hall : Forall (fun kp => 0 <= kp_octave kp < nOctaves /\
                                   1 <= kp_size kp <= nIntervals /\
                                   SIFT_IMG_BORDER <= kp_x kp /\
                                   SIFT_IMG_BORDER <= kp_y kp /\
                                   kp_response kp = 0 /\
                                   (kp_angle kp = -1 \/ oriented (kp_angle kp)))
                        keypoints').
  { clear Hcount Hrun. induction Hcases as [|kp kp' kps kps' Hk _ IH]; [constructor |].
    inversion Hnew as [|? ? (Ho & Hs & Hx & Hy & Hr & Ha) Hrest]; subst.
    constructor; [| now apply IH].
    destruct Hk as [[_ ->] | (_ & Hang & Ex & Ey & Es & Eo & Er)].
    - repeat split; try lia; auto.
    - rewrite Ex, Ey, Es, Eo, Er. repeat split; try lia; auto. }
  split; [exact Hall |]. split.
  - rewrite Hcount. f_equal. apply reoriented_count; [exact Hcases |].
    apply Forall_impl with (2 := Hnew). intros kp H. apply H.
  - intros Hle. destruct keypoints' as [|kp rest]; [reflexivity |].
    inversion Hall as [|? ? (_ & Hs & _) _]. lia.
Qed.

(** X19: with [nOctaves <= 0] the pyramid is empty and [buildDogPyr] reads
    its first octave: once the image is converted, the run is undefined,
    whatever the other arguments. *)
Theorem findSiftInterestPoint_needs_octave
        (image : ColorImage) (grey : GrayImage) (_image : Mat) (keypoints : list KeyPoint)
        (nOctaves nIntervals : Z) (this : SIFT) :
  nOctaves <= 0 ->
  cvtColor image = Ok grey -> normalize grey = Ok _image ->
  findSiftInterestPoint_ image keypoints nOctaves nIntervals this
  = Undefined (VecIndex 0).
Proof.
  intros Hn Eg Em. unfold findSiftInterestPoint. rewrite Eg. cbn [bind].
  rewrite Em. cbn [bind]. unfold buildGaussianPyramid.
  rewrite counting_nil by lia. reflexivity.
Qed.
End PipelineFacts.

(** ** Pixels that are not numbers *)

(** X20: a centre that is a NaN passes the extremum test, all of whose
    comparisons are false on it, wherever its block lies inside the three
    images. *)
Theorem isExtrema_accepts_nan (dog_pyr : list (list Mat)) (octave interval r c : Z)
        (M : Z -> Mat) :
  (forall i, In i [-1; 0; 1] ->
             pyr_at dog_pyr octave (interval + i) = Ok (M i) /\
             1 <= r /\ r + 1 < rows (M i) /\ 1 <= c /\ c + 1 < cols (M i)) ->
  px (M 0) r c = S754_nan ->
  isExtrema dog_pyr octave interval r c = Ok true.
Proof.
  intros HM Hnan.
  destruct (isExtrema_compares_24 dog_pyr octave interval r c M HM) as (b & E & Hb).
  rewrite E. f_equal. apply Hb. intros i j k _ _ _ _. rewrite Hnan.
  change (F32.gt S754_nan (F32.of_Z 0)) with false. cbv iota.
  unfold F32.ge. now destruct (px (M i) (r + j) (c + k)).
Qed.

(** X21: on an image that holds only NaN, [cleanPoints] accepts every
    position whose reads fall inside the image, whatever the three
    thresholds: none of its three comparisons holds. *)
Theorem cleanPoints_accepts_nan (x y : Z) (image : Mat) (curv_thr : Z)
        (cont_thr dtr_thr : float) :
  (forall r c, px image r c = S754_nan) ->
  1 <= x -> x + 1 < rows image -> 1 <= y -> y + 1 < cols image ->
  0 <= y < rows image -> 0 <= x < cols image ->
  cleanPoints (x, y) image curv_thr cont_thr dtr_thr = Ok true.
Proof.
  intros Hnan Hx Hx' Hy Hy' Hyr Hxc.
  unfold cleanPoints, cleanPoints_traced, cleanPoints_with, hessian.
  rewrite !at_inside by lia. rewrite !Hnan. cbn [bind].
  change (F32.lt (F32.abs S754_nan) cont_thr) with false. cbv iota.
  cbn [bind determinant trace_squared].
  change (F32.sub (F32.add S754_nan S754_nan) (F32.mul (F32.of_Z 2) S754_nan))
    with S754_nan.
  change (F32.sub (F32.sub (F32.add S754_nan S754_nan) S754_nan) S754_nan)
    with S754_nan.
  change (F32.sub (F32.mul S754_nan S754_nan) (F32.mul S754_nan S754_nan))
    with S754_nan.
  change (F32.lt S754_nan dtr_thr) with false.
  change (F32.div (F32.mul (F32.add S754_nan S754_nan) (F32.add S754_nan S754_nan))
                  S754_nan) with S754_nan.
  unfold F32.gt. destruct (F32.of_Z curv_thr); reflexivity.
Qed.

(** ** The further properties at concrete inputs *)

Lemma blur_scaling_keeps_size : blur_keeps_size blur_scaling.
Proof. intros m sigma m' [= <-]. split; reflexivity. Qed.

Lemma scaled_pyramid_built :
  buildGaussianPyramid blur_scaling (F64.of_Z 1) (F64.of_Z 2) (F64.of_Z 1)
                       spike_11x11 [] 2 1 = Ok scaled_pyramid.
Proof. reflexivity. Qed.

(** [detector_reports_exactly] on [dog_two_bumps]. *)
Lemma detector_reports_exactly_witness :
  exists new,
    [keypoint_at 12 9; keypoint_at 9 12] = [] ++ new /\
    forall kp,
      In kp new <->
      exists first m0 i j r c image,
        vec_at dog_two_bumps 0 = Ok first /\
        0 <= i < size dog_two_bumps /\ 1 <= j <= size first - 2 /\
        pyr_at dog_two_bumps i 0 = Ok m0 /\
        5 <= r < rows m0 - 5 /\ 5 <= c < cols m0 - 5 /\
        isExtrema dog_two_bumps i j r c = Ok true /\
        pyr_at dog_two_bumps i j = Ok image /\
        cleanPoints (c, r) image 10 contrast_003 F32.zero = Ok true /\
        kp = {| kp_x := c; kp_y := r; kp_size := j; kp_angle := -1;
                kp_response := 0; kp_octave := i |}.
Proof.
  apply (detector_reports_exactly 5 contrast_003 F32.zero dog_two_bumps 10 []
           [keypoint_at 12 9; keypoint_at 9 12]).
  vm_compute. reflexivity.
Defined.

(** [detector_reports_in_scan_order] on [dog_two_bumps]: row 9 before row
    12. *)
Lemma detector_reports_in_scan_order_witness :
  exists new,
    [keypoint_at 12 9; keypoint_at 9 12] = [] ++ new /\
    StronglySorted scanned_before new /\ NoDup new.
Proof.
  apply (detector_reports_in_scan_order 5 contrast_003 F32.zero dog_two_bumps 10 []
           [keypoint_at 12 9; keypoint_at 9 12]).
  vm_compute. reflexivity.
Defined.

(** [detector_returns_on_square_images] on [dog_spikes 5]. *)
Lemma detector_returns_on_square_images_witness :
  exists keypoints',
    getScaleSpaceExtrema 5 contrast_003 F32.zero (dog_spikes 5) [] 10 = Ok keypoints'.
Proof.
  apply (detector_returns_on_square_images 5 contrast_003 F32.zero (dog_spikes 5) 3 10 []).
  - lia.
  - reflexivity.
  - intros oct [<- | []]. reflexivity.
  - intros oct a b [<- | []] [<- | [<- | [<- | []]]] [<- | [<- | [<- | []]]];
      split; reflexivity.
  - intros oct m [<- | []] [<- | [<- | [<- | []]]]; reflexivity.
Defined.

(** [pyramid_interval_is_blur_of_base] on [scaled_pyramid]: image 2 of
    octave 1 is the base of the octave multiplied by 1 * 2 * 2. *)
Lemma pyramid_interval_is_blur_of_base_witness :
  0 <= 1 < 2 /\ 0 <= 2 < 1 + 3 /\
  exists base,
    octave_base blur_scaling (F64.of_Z 1) (Z.to_nat 1) spike_11x11 = Ok base /\
    blur_scaling base (sigma_at (F64.of_Z 1) (F64.of_Z 2) (Z.to_nat 2)) = Ok scaled_image.
Proof.
  apply (pyramid_interval_is_blur_of_base blur_scaling (F64.of_Z 1) (F64.of_Z 2)
           (F64.of_Z 1) spike_11x11 scaled_pyramid 2 1 1 2 scaled_image);
    reflexivity.
Defined.

(** [pyramid_octave_size] on [scaled_pyramid]: 11 x 11, then 5 x 5. *)
Lemma pyramid_octave_size_witness :
  rows scaled_image = rows spike_11x11 / 2 ^ 1 /\
  cols scaled_image = cols spike_11x11 / 2 ^ 1 /\
  (rows spike_11x11 < 2 ^ 1 -> rows scaled_image = 0) /\
  (cols spike_11x11 < 2 ^ 1 -> cols scaled_image = 0).
Proof.
  apply (pyramid_octave_size blur_scaling (F64.of_Z 1) (F64.of_Z 2) (F64.of_Z 1)
           spike_11x11 scaled_pyramid 2 1 1 2 scaled_image blur_scaling_keeps_size);
    [simpl; lia | simpl; lia | reflexivity | reflexivity].
Defined.

(** [buildHistogram_counts_cells] on [two_axes] with bins of 1: twelve
    cells hold 0, three hold 1 and one holds 2. *)
Lemma buildHistogram_counts_cells_witness :
  size [12; 3; 1] = Z.quot 3 1 /\
  total [12; 3; 1] = Z.max 0 (rows two_axes) * Z.max 0 (cols two_axes) /\
  forall k v, vec_at [12; 3; 1] k = Ok v ->
              v = Z.of_nat (List.length (filter (in_bin two_axes 1 k) (cells two_axes))).
Proof.
  apply (buildHistogram_counts_cells two_axes 1 3 [12; 3; 1]);
    [lia | lia | vm_compute; reflexivity].
Defined.

(** [buildHistogram_returns_iff] on [two_axes] with bins of 1. *)
Lemma buildHistogram_returns_iff_witness :
  (exists histo, buildHistogram two_axes 1 3 = Ok histo) <->
  forall i j, 0 <= i < rows two_axes -> 0 <= j < cols two_axes ->
              exists index, bin_of two_axes 1 i j = Ok index /\
                            0 <= index < Z.quot 3 1.
Proof. apply (buildHistogram_returns_iff two_axes 1 3); lia. Defined.

(** [histogramMax_outcomes] on the histogram of [two_axes]. *)
Lemma histogramMax_outcomes_witness :
  0 <= 0 < size [12; 3; 1] /\
  vec_at [12; 3; 1] 0 = Ok 12 /\
  (forall k v, vec_at [12; 3; 1] k = Ok v -> v <= 12) /\
  (forall k v, k < 0 -> vec_at [12; 3; 1] k = Ok v -> v < 12).
Proof.
  apply (histogramMax_outcomes [12; 3; 1]).
  repeat constructor; simpl; lia.
Defined.

(** [buildHistogram_of_one_bin] on [zeros_16x16]: 256 cells in bin 0. *)
Lemma buildHistogram_of_one_bin_witness :
  exists histo,
    buildHistogram zeros_16x16 10 360 = Ok histo /\
    size histo = Z.quot 360 10 /\
    forall k v, vec_at histo k = Ok v ->
                v = if k =? 0 then Z.max 0 (rows zeros_16x16) * Z.max 0 (cols zeros_16x16)
                    else 0.
Proof.
  apply (buildHistogram_of_one_bin zeros_16x16 10 360 0).
  - vm_compute. split; [discriminate | reflexivity].
  - intros i j _ _. reflexivity.
Defined.

(** The patch of the centre of [two_axes]. *)
Lemma two_axes_patch :
  { p : Mat * Mat |
    gradient_patch 1 pi_double atan2f_on_axes two_axes 2 2 = Ok (fst p, snd p) }.
Proof. eexists (_, _). vm_compute. reflexivity. Defined.

(** [gradient_patch_holds_gradients] on [two_axes]. *)
Lemma gradient_patch_holds_gradients_witness :
  rows (fst (proj1_sig two_axes_patch)) = 1 * 2 /\
  cols (fst (proj1_sig two_axes_patch)) = 1 * 2 /\
  rows (snd (proj1_sig two_axes_patch)) = 1 * 2 /\
  cols (snd (proj1_sig two_axes_patch)) = 1 * 2 /\
  forall i j, 0 <= i < 1 * 2 -> 0 <= j < 1 * 2 ->
              px (fst (proj1_sig two_axes_patch)) i j = magnitude_at 1 two_axes 2 2 i j /\
              px (snd (proj1_sig two_axes_patch)) i j
              = gradient_at 1 pi_double atan2f_on_axes two_axes 2 2 i j.
Proof.
  apply (gradient_patch_holds_gradients 1 pi_double atan2f_on_axes two_axes 2 2
           (fst (proj1_sig two_axes_patch)) (snd (proj1_sig two_axes_patch))
           (proj2_sig two_axes_patch)).
Defined.

(** [computeOrientationHist_frame] on [two_axes]. *)
Lemma computeOrientationHist_frame_witness :
  Forall2 (fun kp kp' => kp_x kp' = kp_x kp /\ kp_y kp' = kp_y kp /\
                         kp_size kp' = kp_size kp /\ kp_octave kp' = kp_octave kp /\
                         kp_response kp' = kp_response kp)
          [centre_keypoint]
          [{| kp_x := 2; kp_y := 2; kp_size := 0; kp_angle := 5;
              kp_response := 0; kp_octave := 0 |}] /\
  exists gradients magnitudes,
    keypointsGradients (proj1_sig two_axes_run)
    = keypointsGradients no_patches ++ gradients /\
    keypointsMagnitudes (proj1_sig two_axes_run)
    = keypointsMagnitudes no_patches ++ magnitudes /\
    List.length gradients = List.length magnitudes /\
    Forall (fun m => rows m = 1 * 2 /\ cols m = 1 * 2) gradients /\
    Forall (fun m => rows m = 1 * 2 /\ cols m = 1 * 2) magnitudes.
Proof.
  apply (computeOrientationHist_frame 1 pi_double atan2f_on_axes [[two_axes]]
           [centre_keypoint] _ no_patches (proj1_sig two_axes_run)
           (proj2_sig two_axes_run)).
Defined.

(** [computeDescriptors_counts_blocks] on [angles_4x4]: one block, with
    three cells below 45 degrees, three below 90, and so on. *)
Lemma computeDescriptors_counts_blocks_witness :
  Forall2 (fun temp d =>
             (rows temp <= 0 \/ cols temp <= 0 -> d = []) /\
             (0 < rows temp -> 0 < cols temp -> describes temp d))
          (keypointsGradients one_patch) [[3; 3; 3; 0; 2; 0; 4; 1]].
Proof.
  apply (computeDescriptors_counts_blocks one_patch [[3; 3; 3; 0; 2; 0; 4; 1]]).
  vm_compute. reflexivity.
Defined.

(** The estimator on [dog_spike_6x6] with the half-size 2. *)
Lemma spike_6x6_run :
  { r : list KeyPoint * SIFT |
    computeOrientationHist 2 pi_double atan2f_on_axes dog_spike_6x6 [keypoint_3_3]
                           no_patches = Ok (fst r, snd r) }.
Proof. eexists (_, _). vm_compute. reflexivity. Defined.

(** [descriptors_of_oriented_keypoints] on [dog_spike_6x6]: one descriptor
    of eight counts. *)
Lemma descriptors_of_oriented_keypoints_witness :
  size [[13; 0; 1; 0; 1; 0; 1; 0]]
  = Z.of_nat (List.length (filter (has_window 2 dog_spike_6x6) [keypoint_3_3])) /\
  ([[13; 0; 1; 0; 1; 0; 1; 0]] <> [] -> 2 mod 2 = 0) /\
  Forall (fun d => size d = (2 / 2) * (2 / 2) * 8) [[13; 0; 1; 0; 1; 0; 1; 0]].
Proof.
  apply (descriptors_of_oriented_keypoints 2 pi_double atan2f_on_axes dog_spike_6x6
           [keypoint_3_3] (fst (proj1_sig spike_6x6_run)) no_patches
           (snd (proj1_sig spike_6x6_run)) [[13; 0; 1; 0; 1; 0; 1; 0]]);
    [lia | reflexivity | exact (proj2_sig spike_6x6_run) | vm_compute; reflexivity].
Defined.

(** The pipeline on [spike_11x11], under [blur_scaling] with the sigmas 1,
    2, 4 and 8, the border 5 and the half-size 2: the spike is found at
    interval 1 and its angle is 5. *)
Lemma spike_11x11_run :
  { this' : SIFT |
    findSiftInterestPoint blur_scaling (F64.of_Z 1) (F64.of_Z 2) (F64.of_Z 1)
                          5 contrast_003 F32.zero 2 pi_double atan2f_on_axes
                          Mat Mat already_grey already_normal 10
                          spike_11x11 [] 1 1 no_patches
    = Ok ([{| kp_x := 5; kp_y := 5; kp_size := 1; kp_angle := 5;
              kp_response := 0; kp_octave := 0 |}], this') }.
Proof. eexists. vm_compute. reflexivity. Defined.

(** [findSiftInterestPoint_keypoints] on [spike_11x11]. *)
Lemma findSiftInterestPoint_keypoints_witness :
  Forall (fun kp => 0 <= kp_octave kp < 1 /\ 1 <= kp_size kp <= 1 /\
                    5 <= kp_x kp /\ 5 <= kp_y kp /\ kp_response kp = 0 /\
                    (kp_angle kp = -1 \/ oriented (kp_angle kp)))
         [{| kp_x := 5; kp_y := 5; kp_size := 1; kp_angle := 5;
             kp_response := 0; kp_octave := 0 |}] /\
  List.length (keypointsGradients (proj1_sig spike_11x11_run))
  = (List.length (keypointsGradients no_patches)
     + List.length (filter (fun kp => negb (kp_angle kp =? -1)%Z)
                           [{| kp_x := 5; kp_y := 5; kp_size := 1; kp_angle := 5;
                               kp_response := 0; kp_octave := 0 |}]))%nat /\
  (1 <= 0 -> [{| kp_x := 5; kp_y := 5; kp_size := 1; kp_angle := 5;
                 kp_response := 0; kp_octave := 0 |}] = []).
Proof.
  apply (findSiftInterestPoint_keypoints
           blur_scaling (F64.of_Z 1) (F64.of_Z 2) (F64.of_Z 1)
           5 contrast_003 F32.zero 2 pi_double atan2f_on_axes
           Mat Mat already_grey already_normal 10
           spike_11x11 _ 1 1 no_patches (proj1_sig spike_11x11_run)
           (proj2_sig spike_11x11_run)).
Defined.

(** [findSiftInterestPoint_needs_octave] on [spike_11x11] with no octave. *)
Lemma findSiftInterestPoint_needs_octave_witness :
  findSiftInterestPoint blur_scaling (F64.of_Z 1) (F64.of_Z 2) (F64.of_Z 1)
                        5 contrast_003 F32.zero 2 pi_double atan2f_on_axes
                        Mat Mat already_grey already_normal 10
                        spike_11x11 [] 0 1 no_patches
  = Undefined (VecIndex 0).
Proof.
  apply (findSiftInterestPoint_needs_octave
           blur_scaling (F64.of_Z 1) (F64.of_Z 2) (F64.of_Z 1)
           5 contrast_003 F32.zero 2 pi_double atan2f_on_axes
           Mat Mat already_grey already_normal 10
           spike_11x11 spike_11x11 spike_11x11 [] 0 1 no_patches);
    [lia | reflexivity | reflexivity].
Defined.

(** [isExtrema_accepts_nan] at the centre of [dog_nan]. *)
Lemma isExtrema_accepts_nan_witness : isExtrema dog_nan 0 1 1 1 = Ok true.
Proof.
  apply (isExtrema_accepts_nan dog_nan 0 1 1 1 (fun _ => nan_3x3)); [| reflexivity].
  intros i [<- | [<- | [<- | []]]]; (split; [reflexivity | simpl; lia]).
Defined.

(** [cleanPoints_accepts_nan] at the centre of [nan_3x3]. *)
Lemma cleanPoints_accepts_nan_witness :
  cleanPoints (1, 1) nan_3x3 10 contrast_003 F32.zero = Ok true.
Proof.
  apply (cleanPoints_accepts_nan 1 1 nan_3x3 10 contrast_003 F32.zero);
    [intros r c; reflexivity | simpl; lia ..].
Defined.
